(** * carefree-toolkit: the parallel executor, the HPO driver's sampling step
      and the cube normalizer

    A shallow embedding of
    - [cftool/dist/core.py] (class [Parallel]: the supervisor loop, the worker
      adapter and the shared result store),
    - [cftool/ml/hpo/base.py] (the index sampling of [HPOBase.search]),
    - [cftool/ml/param_utils/normalizers/cube/core.py] ([CubeNormalizer]),
    followed by the properties proved about them. *)

From Stdlib Require Import ZArith QArith Qabs Qround Lia Lqa Sorted.
From stdpp Require Import base option list gmap strings pretty.

Set Warnings "-register-all".
#[local] Open Scope Z_scope.


(** ** Python values *)

(** An exception object: its class name and its message. *)
Inductive pyexc := PyExc (cls : string) (msg : string).

(** The values that travel through the result store.  Dictionaries are maps
    from string keys; [VCallable] stands for a function object passed as a
    keyword argument (the [log_method] closure). *)
Inductive pyval :=
| VNone
| VBool (b : bool)
| VInt (z : Z)
| VStr (s : string)
| VErr (e : pyexc)
| VCallable (name : string)
| VDict (d : gmap string pyval).

Definition exc_cls (e : pyexc) : string := let 'PyExc c _ := e in c.
Definition exc_msg (e : pyexc) : string := let 'PyExc _ m := e in m.

(** [KeyboardInterrupt], [SystemExit] and [GeneratorExit] derive from
    [BaseException] but not from [Exception]; every other class of the model
    is an [Exception]. *)
Definition is_KeyboardInterrupt (e : pyexc) : bool :=
  String.eqb (exc_cls e) "KeyboardInterrupt".

Definition is_Exception (e : pyexc) : bool :=
  negb (String.eqb (exc_cls e) "KeyboardInterrupt"
        || String.eqb (exc_cls e) "SystemExit"
        || String.eqb (exc_cls e) "GeneratorExit").

Definition KeyboardInterrupt : pyexc := PyExc "KeyboardInterrupt" "".
Definition _ParallelError (msg : string) : pyexc := PyExc "_ParallelError" msg.

(** Python truthiness. *)
Definition truthy (v : pyval) : bool :=
  match v with
  | VNone => false
  | VBool b => b
  | VInt z => negb (Z.eqb z 0)
  | VStr s => negb (String.eqb s "")
  | VErr _ => true
  | VCallable _ => true
  | VDict d => match map_to_list d with [] => false | _ :: _ => true end
  end.

(** What a computation that can raise gives back.  [Hang] is a parent blocked
    for ever, [OutOfFuel] a bounded loop of the model that ran out. *)
Inductive outcome (A : Type) :=
| Ok (a : A)
| Raise (e : pyexc)
| Hang
| OutOfFuel.
Arguments Ok {A} a.
Arguments Raise {A} e.
Arguments Hang {A}.
Arguments OutOfFuel {A}.

(** ** The shared result store

    [self._rs]: a managed dict with the reserved keys [__meta__] and
    [__exceptions__] and one entry per finished task. *)

Definition META : string := "__meta__".
Definition EXCEPTIONS : string := "__exceptions__".

Definition init_rs (n_jobs : Z) (n_tasks : nat) : gmap string pyval :=
  <[META := VDict (<["n_jobs" := VInt n_jobs]>
                   (<["n_tasks" := VInt (Z.of_nat n_tasks)]>
                    (<["terminated" := VBool false]> ∅)))]>
  (<[EXCEPTIONS := VDict ∅]> ∅).

(** [self._rs[key]] *)
Definition rs_get (rs : gmap string pyval) (key : string) : outcome pyval :=
  match rs !! key with
  | Some v => Ok v
  | None => Raise (PyExc "KeyError" key)
  end.

(** [container[key]] on a value read from the store *)
Definition getitem (v : pyval) (key : string) : outcome pyval :=
  match v with
  | VDict d => match d !! key with
               | Some x => Ok x
               | None => Raise (PyExc "KeyError" key)
               end
  | _ => Raise (PyExc "TypeError" "object is not subscriptable")
  end.

(** [container[key] = x] on a value read from the store *)
Definition setitem (v : pyval) (key : string) (x : pyval) : outcome pyval :=
  match v with
  | VDict d => Ok (VDict (<[key := x]> d))
  | _ => Raise (PyExc "TypeError" "object does not support item assignment")
  end.

(** property [meta] *)
Definition meta (rs : gmap string pyval) : outcome pyval := rs_get rs META.

(** property [exceptions] *)
Definition exceptions (rs : gmap string pyval) : outcome pyval := rs_get rs EXCEPTIONS.

(** property [terminated]: [self.meta["terminated"]], as the truth value the
    callers test. *)
Definition terminated (rs : gmap string pyval) : outcome bool :=
  match meta rs with
  | Ok m => match getitem m "terminated" with
            | Ok v => Ok (truthy v)
            | Raise e => Raise e
            | Hang => Hang
            | OutOfFuel => OutOfFuel
            end
  | Raise e => Raise e
  | Hang => Hang
  | OutOfFuel => OutOfFuel
  end.

(** [_set_terminate]: read the whole [__meta__] record, set the flag, assign
    the record back.  The log line it writes to the meta logger is left out. *)
Definition _set_terminate (rs : gmap string pyval) : outcome (gmap string pyval) :=
  match meta rs with
  | Ok m => match setitem m "terminated" (VBool true) with
            | Ok m' => Ok (<[META := m']> rs)
            | Raise e => Raise e
            | Hang => Hang
            | OutOfFuel => OutOfFuel
            end
  | Raise e => Raise e
  | Hang => Hang
  | OutOfFuel => OutOfFuel
  end.

(** The same three statements when another process wrote the store between
    the read of [__meta__] (from [seen]) and the assignment (into [rs]). *)
Definition _set_terminate_stale (seen rs : gmap string pyval)
  : outcome (gmap string pyval) :=
  match meta seen with
  | Ok m => match setitem m "terminated" (VBool true) with
            | Ok m' => Ok (<[META := m']> rs)
            | Raise e => Raise e
            | Hang => Hang
            | OutOfFuel => OutOfFuel
            end
  | Raise e => Raise e
  | Hang => Hang
  | OutOfFuel => OutOfFuel
  end.

(** ** The executor's configuration *)

(** [resource_config["gpu_config"]]: the key [available_cuda_list] may be
    absent ([None]), hold Python's [None] ([Some None]) or a list. *)
Record gpu_config := GpuConfig {
  available_cuda_list : option (option (list Z))
}.

Record resource_config := ResourceConfig {
  refresh_patience : option nat;
  gpu_config_of : option gpu_config
}.

(** The constructor's arguments, the module constant [WINDOWS] and the
    [name_suffix] property of the logging mixin (not part of these sources). *)
Record Parallel := MkParallel {
  _n_jobs : Z;
  _use_cuda : bool;
  _task_names : option (list string);
  name_suffix : string;
  _resource_config : resource_config;
  WINDOWS : bool
}.

(** [_get_task_name]; the logger it initialises is left out. *)
Definition _get_task_name (self : Parallel) (task_id : option nat)
  : outcome (option string) :=
  match task_id with
  | None => Ok None
  | Some i =>
      match _task_names self with
      | None => Ok (Some ("task_" +:+ pretty i +:+ name_suffix self))
      | Some names =>
          match names !! i with
          | Some n => Ok (Some (n +:+ name_suffix self))
          | None => Raise (PyExc "IndexError" "list index out of range")
          end
      end
  end.

(** ** User functions and their signatures *)

Inductive param_kind :=
| POSITIONAL_ONLY
| POSITIONAL_OR_KEYWORD
| VAR_POSITIONAL
| KEYWORD_ONLY
| VAR_KEYWORD.

Definition is_VAR_KEYWORD (k : param_kind) : bool :=
  match k with VAR_KEYWORD => true | _ => false end.

Definition is_POSITIONAL_OR_KEYWORD (k : param_kind) : bool :=
  match k with POSITIONAL_OR_KEYWORD => true | _ => false end.

Inductive call_result :=
| Returns (v : pyval)
| Raises (e : pyexc).

(** A user function: its declared parameters, in order, and what a call with
    positional arguments and keyword arguments does. *)
Record pyfunc := PyFunc {
  f_parameters : list (string * param_kind);
  f_call : list pyval → gmap string pyval → call_result
}.

(** The loop over [f_signature.parameters.items()] in [_inner]: it returns
    [(f_wants_cuda, f_wants_log_method)]. *)
Fixpoint scan_parameters (ps : list (string * param_kind))
  (f_wants_cuda f_wants_log_method : bool) : bool * bool :=
  match ps with
  | [] => (f_wants_cuda, f_wants_log_method)
  | (name, kind) :: ps' =>
      if is_VAR_KEYWORD kind then (true, true)
      else if is_POSITIONAL_OR_KEYWORD kind then
        if String.eqb name "cuda" then
          scan_parameters ps' true f_wants_log_method
        else if String.eqb name "log_method" then
          scan_parameters ps' f_wants_cuda true
        else scan_parameters ps' f_wants_cuda f_wants_log_method
      else scan_parameters ps' f_wants_cuda f_wants_log_method
  end.

Definition f_wants_cuda (f : pyfunc) : bool :=
  fst (scan_parameters (f_parameters f) false false).

Definition f_wants_log_method (f : pyfunc) : bool :=
  snd (scan_parameters (f_parameters f) false false).

(** ** Logging *)

Inductive level := DEBUG | INFO | WARNING | ERROR.

(** One line written through a task's [log_method] (or [logger.exception]). *)
Record log_record := Log {
  log_task : string;
  log_level : level;
  log_text : string
}.

(** ** The worker adapter *)

(** What the children share with the parent: the store and the log sink. *)
Record shared := Shared {
  sh_rs : gmap string pyval;
  sh_logs : list log_record
}.

Definition log_method (task_name : string) (lv : level) (text : string)
  (s : shared) : shared :=
  Shared (sh_rs s) (sh_logs s ++ [Log task_name lv text]).

Definition put (key : string) (v : pyval) (s : shared) : shared :=
  Shared (<[key := v]> (sh_rs s)) (sh_logs s).

(** How a child process ends. *)
Inductive child_exit :=
| Exited
| Crashed (e : pyexc).

(** The keyword arguments [_inner] builds, and the log lines it writes while
    it does. *)
Definition build_kwargs (self : Parallel) (func : pyfunc) (task_name : string)
  (cuda : pyval) (s : shared) : gmap string pyval * shared :=
  let kwargs : gmap string pyval := ∅ in
  let '(kwargs, s) :=
    if negb (f_wants_cuda func) then
      if _use_cuda self then
        (kwargs, log_method task_name WARNING
                   "task function doesn't want cuda but cuda is used" s)
      else (kwargs, s)
    else
      (<["cuda" := cuda]> kwargs,
       log_method task_name INFO "task function wants cuda" s) in
  if negb (f_wants_log_method func) then
    (kwargs, log_method task_name WARNING
               "task function doesn't want log_method" s)
  else
    (<["log_method" := VCallable "log_method"]> kwargs,
     log_method task_name INFO "task function wants log_method" s).

(** The tail of [_inner]: [if terminate: self._set_terminate(...); ...]. *)
Definition finish_inner (task_name : string) (terminate : bool) (s : shared)
  : child_exit * shared :=
  if terminate then
    match _set_terminate (sh_rs s) with
    | Ok rs' => (Exited, log_method task_name ERROR "task terminated"
                           (Shared rs' (sh_logs s)))
    | Raise e => (Crashed e, s)
    | _ => (Exited, s)
    end
  else (Exited, s).

(** [isinstance(rs, dict) and rs.get("terminate", False)] *)
Definition terminate_requested (r : pyval) : bool :=
  match r with
  | VDict d => truthy (default (VBool false) (d !! "terminate"))
  | _ => false
  end.

(** [_f_wrapper(task_id, cuda)._inner( *args )], run in the child process.
    [task_name] is the name [_f_wrapper] computed when the process was
    created. *)
Definition _inner (self : Parallel) (func : pyfunc) (task_name : string)
  (cuda : pyval) (args : list pyval) (s : shared) : child_exit * shared :=
  match terminated (sh_rs s) with
  | Ok true => (Exited, s)
  | Ok false =>
      let s := log_method task_name INFO "task started" s in
      let '(kwargs, s) := build_kwargs self func task_name cuda s in
      match f_call func args kwargs with
      | Returns r =>
          let s := put task_name r s in
          let terminate := terminate_requested r in
          let s := if negb terminate
                   then log_method task_name INFO "task finished" s else s in
          finish_inner task_name terminate s
      | Raises err =>
          if is_KeyboardInterrupt err then
            (Exited, log_method task_name ERROR "key board interrupted" s)
          else if is_Exception err then
            let s := log_method task_name ERROR
                       ("exception occurred, " +:+ exc_msg err) s in
            match exceptions (sh_rs s) with
            | Ok excs =>
                let s := put task_name (VErr err) s in
                match setitem excs task_name (VErr err) with
                | Ok excs' =>
                    finish_inner task_name true (put EXCEPTIONS excs' s)
                | Raise e => (Crashed e, s)
                | _ => (Exited, s)
                end
            | Raise e => (Crashed e, s)
            | _ => (Exited, s)
            end
          else (Crashed err, s)
      end
  | Raise e => (Crashed e, s)
  | _ => (Exited, s)
  end.

(** ** The assignments to the store during a batch

    After the store is created, [self._rs[...] = ...] occurs in [_inner]
    (the task's own key, [__exceptions__]), in the handlers of [__call__]
    ([__exceptions__]) and in [_set_terminate] ([__meta__], from a record read
    earlier, possibly before other processes wrote). *)
Inductive rs_write :=
| WriteResult (task_name : string) (v : pyval)
| WriteExceptions (excs : pyval)
| WriteTerminate (seen : gmap string pyval).

Definition apply_write (w : rs_write) (rs : gmap string pyval)
  : gmap string pyval :=
  match w with
  | WriteResult tn v => <[tn := v]> rs
  | WriteExceptions e => <[EXCEPTIONS := e]> rs
  | WriteTerminate seen =>
      match _set_terminate_stale seen rs with
      | Ok rs' => rs'
      | _ => rs
      end
  end.

(** The successive stores of a batch: the one it starts from and the one after
    each assignment. *)
Fixpoint stores_after (ws : list rs_write) (rs : gmap string pyval)
  : list (gmap string pyval) :=
  rs :: match ws with
        | [] => []
        | w :: ws' => stores_after ws' (apply_write w rs)
        end.

(** A write of a task's result under a name that is not the reserved
    [__meta__] key. *)
Definition write_keeps_meta (w : rs_write) : Prop :=
  match w with
  | WriteResult tn _ => tn ≠ META
  | _ => True
  end.

(** The words of the specification about capabilities: the parameter list
    declares a name; the function accepts an open keyword map. *)
Definition declares (func : pyfunc) (name : string) : Prop :=
  ∃ kind, (name, kind) ∈ f_parameters func.

Definition accepts_open_keywords (func : pyfunc) : Prop :=
  ∃ name, (name, VAR_KEYWORD) ∈ f_parameters func.

(** ** [HPOBase.search]: the choice of the parameters to try *)

(** [random.sample(population, k)] of the Python standard library, by its
    pool algorithm (the one it runs whenever [k] is the size of the
    population): the [i]-th pick is [pool[j]] for [j = randbelow(n - i)], and
    the last live item of the pool moves into the vacancy.  [draws i] is what
    the generator, as seeded, yields for the [i]-th pick. *)
Fixpoint sample_pool {A} (draws : nat → nat) (pool : list A) (n i k : nat)
  : list A :=
  match k with
  | O => []
  | S k' =>
      let j := (draws i mod (n - i))%nat in
      match pool !! j, pool !! (n - i - 1)%nat with
      | Some x, Some y => x :: sample_pool draws (<[j := y]> pool) n (S i) k'
      | _, _ => []
      end
  end.

Definition random_sample {A} (draws : nat → nat) (population : list A) (k : Z)
  : outcome (list A) :=
  let n := length population in
  if (k <? 0) || (Z.of_nat n <? k) then
    Raise (PyExc "ValueError" "Sample larger than population or is negative")
  else Ok (sample_pool draws population n 0 (Z.to_nat k)).

(** [list(range(n))] *)
Definition py_range (n : Z) : list nat := seq 0 (Z.to_nat n).

(** The loop over [enumerate(self.param_generator.all())]. *)
Fixpoint select_params {A} (all_indices : gset nat) (num_search : Z) (i : nat)
  (generated : list A) (all_params : list A) : list A :=
  match generated with
  | [] => all_params
  | param :: rest =>
      let all_params :=
        if decide (i ∈ all_indices) then all_params ++ [param]
        else all_params in
      if Z.of_nat (length all_params) =? num_search then all_params
      else select_params all_indices num_search (S i) rest all_params
  end.

(** The non-sequential branch of [search] for a finite parameter space, from
    the clamp of [num_search] to the list [all_params]; it gives back
    [all_indices] too.  [n_params] and the enumeration [generated] belong to
    the parameter generator, which is not part of these sources. *)
Definition search_all_params {A} (draws : nat → nat) (n_params num_search : Z)
  (generated : list A) : outcome (gset nat * list A) :=
  let num_search := if num_search >? n_params then n_params else num_search in
  match random_sample draws (py_range num_search) num_search with
  | Ok picked =>
      let all_indices : gset nat := list_to_set picked in
      Ok (all_indices, select_params all_indices num_search 0 generated [])
  | Raise e => Raise e
  | Hang => Hang
  | OutOfFuel => OutOfFuel
  end.

(** ** [HPOBase.search]: from [num_search] to the recorded search

    The non-sequential branch of [search] over a finite parameter space, from
    its first test of [num_search] to the assignment of [last_code].
    [num_search] is a string or an integer (a float is not modelled). *)
Inductive search_count :=
| CountStr (s : string)
| CountNum (n : Z).

(** What [search] leaves on the object for [last_params] and
    [last_patterns]. *)
Record searched (A P : Type) := Searched {
  param_mapping : gmap string A;
  patterns : gmap string P;
  last_code : string
}.
Arguments Searched {A P} _ _ _.
Arguments param_mapping {A P} _.
Arguments patterns {A P} _.
Arguments last_code {A P} _.

(** [dict(zip(keys, values))]: a later pair replaces an earlier one that has
    the same key. *)
Definition dict_zip {V} (keys : list string) (values : list V)
  : gmap string V :=
  foldl (λ d kv, <[kv.1 := kv.2]> d) ∅ (zip keys values).

Section Search.
Context {A P : Type}.

(** [str] on a parameter set and [hash_code] (of [cftool.misc]); the run
    [_core(params)] that builds the patterns of one parameter set with the
    user's creator; and, when [search] has more than one job, the batch on
    [Parallel] with the read of its results,
    [[parallel.parallel_results[str(i)] for i in range(num_search)]]. *)
Context (str : A → string) (hash_code : string → string).
Context (_core : A → outcome P).
Context (parallel_patterns : Z → list A → outcome (list P)).

(** [list(map(_core, all_params))] *)
Fixpoint map_core (all_params : list A) : outcome (list P) :=
  match all_params with
  | [] => Ok []
  | params :: rest =>
      match _core params with
      | Ok local_patterns =>
          match map_core rest with
          | Ok l => Ok (local_patterns :: l)
          | o => o
          end
      | Raise e => Raise e
      | Hang => Hang
      | OutOfFuel => OutOfFuel
      end
  end.

Definition search_finite (draws : nat → nat) (num_search : search_count)
  (n_params num_jobs : Z) (generated : list A) : outcome (searched A P) :=
  match
    match num_search with
    | CountStr s =>
        if negb (String.eqb s "all") then
          Raise (PyExc "ValueError"
                   ("num_search can only be 'all' when it is a string, '"
                    +:+ s +:+ "' found"))
        else Ok n_params
    | CountNum n => Ok n
    end
  with
  | Ok requested =>
      let num_search :=
        if requested >? n_params then n_params else requested in
      let num_jobs := Z.min num_search num_jobs in
      match search_all_params draws n_params requested generated with
      | Ok (_, all_params) =>
          let codes := (λ params, hash_code (str params)) <$> all_params in
          let param_mapping := dict_zip codes all_params in
          match
            if num_jobs <=? 1 then map_core all_params
            else parallel_patterns num_jobs all_params
          with
          | Ok computed =>
              match last codes with
              | Some code =>
                  Ok (Searched param_mapping (dict_zip codes computed) code)
              | None =>
                  Raise (PyExc "IndexError" "list index out of range")
              end
          | Raise e => Raise e
          | Hang => Hang
          | OutOfFuel => OutOfFuel
          end
      | Raise e => Raise e
      | Hang => Hang
      | OutOfFuel => OutOfFuel
      end
  | Raise e => Raise e
  | Hang => Hang
  | OutOfFuel => OutOfFuel
  end.

End Search.

(** properties [last_params] and [last_patterns] *)
Definition last_params {A P} (st : searched A P) : outcome A :=
  match param_mapping st !! last_code st with
  | Some params => Ok params
  | None => Raise (PyExc "KeyError" (last_code st))
  end.

Definition last_patterns {A P} (st : searched A P) : outcome P :=
  match patterns st !! last_code st with
  | Some l => Ok l
  | None => Raise (PyExc "KeyError" (last_code st))
  end.

(** ** [CubeNormalizer], for a parameter with a list of choices

    The branch [if self._choices is not None] of [normalize] and [recover].
    Floats are modelled by the reals they denote: [fl] rounds the exact result
    of one operation to the float the machine returns.  Integers are
    converted exactly. *)
Module CubeNormalizer.
Section Choices.
Context {A : Type} `{EqDecision A}.
Variable fl : Q → Q.

(** [list.index]: the first position of the value. *)
Fixpoint index (choices : list A) (value : A) : option nat :=
  match choices with
  | [] => None
  | c :: rest =>
      if decide (c = value) then Some 0%nat
      else S <$> index rest value
  end.

(** [round] on a float: to the nearest integer, ties to the even one. *)
Definition py_round (x : Q) : Z :=
  let f := Qfloor x in
  let r := (x - inject_Z f)%Q in
  match (r ?= 1 # 2)%Q with
  | Lt => f
  | Gt => f + 1
  | Eq => if Z.even f then f else f + 1
  end.

Definition normalize (choices : list A) (value : A) : outcome Q :=
  match index choices value with
  | None => Raise (PyExc "ValueError" "value is not in list")
  | Some idx =>
      let d := Z.of_nat (length choices) - 1 in
      if d =? 0 then Raise (PyExc "ZeroDivisionError" "division by zero")
      else Ok (fl (inject_Z (Z.of_nat idx) / inject_Z d))
  end.

Definition recover (choices : list A) (value : Q) : outcome A :=
  let d := Z.of_nat (length choices) - 1 in
  let idx := py_round (fl (value * inject_Z d)) in
  let idx := Z.max 0 (Z.min d idx) in
  match choices !! Z.to_nat idx with
  | Some c => Ok c
  | None => Raise (PyExc "IndexError" "list index out of range")
  end.

End Choices.

(** property [bounds] *)
Definition bounds : Q * Q := (0%Q, 1%Q).

End CubeNormalizer.

(** The unit roundoff of a double, and the standard model of its arithmetic:
    the float returned for a real result is within that relative error. *)
Definition unit_roundoff : Q := 1 # (2 ^ 53).

Definition rounds_to_nearest (fl : Q → Q) : Prop :=
  ∀ x : Q, (Qabs (fl x - x) <= unit_roundoff * Qabs x)%Q.

(** A rounding that keeps the order of the reals and gives [0] and [1]
    themselves, as rounding to the nearest float does. *)
Definition monotone_rounding (fl : Q → Q) : Prop :=
  (∀ x y : Q, (x <= y)%Q → (fl x <= fl y)%Q) ∧
  (fl 0 == 0)%Q ∧ (fl 1 == 1)%Q.

(** ** Processes and the state of a batch *)

Inductive pstatus := Created | Alive | Dead.

(** A [Process] object: the closure [_f_wrapper(task_id, cuda)] it targets
    (with the task name computed at creation), its arguments, and whether it
    was started and has exited. *)
Record process := Process {
  p_task_id : nat;
  p_task_name : string;
  p_cuda : pyval;
  p_args : list pyval;
  p_status : pstatus
}.

(** History of a run, kept for the proofs: the number of live children right
    after each [process.start()], and the length of the working set right
    after each append of [_add_new_processes]. *)
Inductive event :=
| Started (live : nat)
| Refilled (working : nat).

(** One answer of [ResourceManager.get_process], which is not part of these
    sources: for every call it makes of the sleep callback, whether its
    checkpoint is initialised at that time (so that [_refresh] goes on to the
    finished slots); whether the process may be created; the device it assigns
    under [rs["GPU"]["tgt_resource_id"]], if any. *)
Record admission := Admission {
  adm_refreshes : list bool;
  adm_create : bool;
  adm_gpu : option Z
}.

(** The attributes of the executor that a batch changes, the process objects
    (a pid is a position in [w_procs]), the resource kinds registered, whether
    the sync manager runs, and the environment's counters: scheduling points
    passed, answers taken from the resource manager, and the number of
    scheduling points left before the user's interrupt arrives (if one
    does). *)
Record world := World {
  w_shared : shared;
  w_procs : list process;
  _working_task_ids : option (list (option nat));
  _working_processes : option (list (option nat));
  _all_task_ids : list nat;
  _cursor : nat;
  registered : list string;
  manager_up : bool;
  clock : nat;
  asked : nat;
  sigint : option nat;
  history : list event
}.

Definition set_shared (x : shared) (w : world) : world :=
  World x (w_procs w) (_working_task_ids w) (_working_processes w)
    (_all_task_ids w) (_cursor w) (registered w) (manager_up w) (clock w)
    (asked w) (sigint w) (history w).

Definition set_procs (x : list process) (w : world) : world :=
  World (w_shared w) x (_working_task_ids w) (_working_processes w)
    (_all_task_ids w) (_cursor w) (registered w) (manager_up w) (clock w)
    (asked w) (sigint w) (history w).

Definition set_working_task_ids (x : option (list (option nat))) (w : world) : world :=
  World (w_shared w) (w_procs w) x (_working_processes w) (_all_task_ids w)
    (_cursor w) (registered w) (manager_up w) (clock w) (asked w) (sigint w)
    (history w).

Definition set_working_processes (x : option (list (option nat))) (w : world) : world :=
  World (w_shared w) (w_procs w) (_working_task_ids w) x (_all_task_ids w)
    (_cursor w) (registered w) (manager_up w) (clock w) (asked w) (sigint w)
    (history w).

Definition set_all_task_ids (x : list nat) (w : world) : world :=
  World (w_shared w) (w_procs w) (_working_task_ids w) (_working_processes w)
    x (_cursor w) (registered w) (manager_up w) (clock w) (asked w) (sigint w)
    (history w).

Definition set_cursor (x : nat) (w : world) : world :=
  World (w_shared w) (w_procs w) (_working_task_ids w) (_working_processes w)
    (_all_task_ids w) x (registered w) (manager_up w) (clock w) (asked w)
    (sigint w) (history w).

Definition set_registered (x : list string) (w : world) : world :=
  World (w_shared w) (w_procs w) (_working_task_ids w) (_working_processes w)
    (_all_task_ids w) (_cursor w) x (manager_up w) (clock w) (asked w)
    (sigint w) (history w).

Definition set_manager_up (x : bool) (w : world) : world :=
  World (w_shared w) (w_procs w) (_working_task_ids w) (_working_processes w)
    (_all_task_ids w) (_cursor w) (registered w) x (clock w) (asked w)
    (sigint w) (history w).

Definition set_clock (x : nat) (w : world) : world :=
  World (w_shared w) (w_procs w) (_working_task_ids w) (_working_processes w)
    (_all_task_ids w) (_cursor w) (registered w) (manager_up w) x (asked w)
    (sigint w) (history w).

Definition set_asked (x : nat) (w : world) : world :=
  World (w_shared w) (w_procs w) (_working_task_ids w) (_working_processes w)
    (_all_task_ids w) (_cursor w) (registered w) (manager_up w) (clock w) x
    (sigint w) (history w).

Definition set_sigint (x : option nat) (w : world) : world :=
  World (w_shared w) (w_procs w) (_working_task_ids w) (_working_processes w)
    (_all_task_ids w) (_cursor w) (registered w) (manager_up w) (clock w)
    (asked w) x (history w).

Definition set_history (x : list event) (w : world) : world :=
  World (w_shared w) (w_procs w) (_working_task_ids w) (_working_processes w)
    (_all_task_ids w) (_cursor w) (registered w) (manager_up w) (clock w)
    (asked w) (sigint w) x.

(** The executor as constructed, before any batch. *)
Definition new_world (interrupt : option nat) : world :=
  World (Shared ∅ []) [] None None [] 0 [] false 0 0 interrupt [].

Definition rs (w : world) : gmap string pyval := sh_rs (w_shared w).

Definition set_status (st : pstatus) (p : process) : process :=
  Process (p_task_id p) (p_task_name p) (p_cuda p) (p_args p) st.

(** [process.is_alive()] *)
Definition is_alive (w : world) (pid : nat) : bool :=
  match w_procs w !! pid with
  | Some p => match p_status p with Alive => true | _ => false end
  | None => false
  end.

Definition live_pids (w : world) : list nat :=
  filter (λ pid, Is_true (is_alive w pid)) (seq 0 (length (w_procs w))).

(** The number of live child processes. *)
Definition live_count (w : world) : nat := length (live_pids w).

(** ** Computations of the parent *)

Definition M (A : Type) : Type := world → outcome A * world.

#[export] Instance M_ret : MRet M := λ A x w, (Ok x, w).

#[export] Instance M_bind : MBind M := λ A B f m w,
  match m w with
  | (Ok x, w') => f x w'
  | (Raise e, w') => (Raise e, w')
  | (Hang, w') => (Hang, w')
  | (OutOfFuel, w') => (OutOfFuel, w')
  end.

Definition lift {A} (o : outcome A) : M A := λ w, (o, w).
Definition raise {A} (e : pyexc) : M A := λ w, (Raise e, w).
Definition modify (f : world → world) : M unit := λ w, (Ok (), f w).
Definition read {A} (f : world → A) : M A := λ w, (Ok (f w), w).

(** [try: body except ...: handler]; [handler e] is [None] when no clause
    matches [e]. *)
Definition try_except {A} (body : M A) (handler : pyexc → option (M A)) : M A :=
  λ w, match body w with
       | (Raise e, w') =>
           match handler e with
           | Some h => h w'
           | None => (Raise e, w')
           end
       | r => r
       end.

(** [try: body finally: final] *)
Definition try_finally {A} (body : M A) (final : M unit) : M A :=
  λ w, match body w with
       | (Ok x, w') => (final ;; mret x) w'
       | (Raise e, w') => (final ;; raise e) w'
       | r => r
       end.

(** [for x in l: body x] *)
Fixpoint for_each {X} (l : list X) (body : X → M unit) : M unit :=
  match l with
  | [] => mret ()
  | x :: l' => body x ;; for_each l' body
  end.

(** [[f x for x in l]] *)
Fixpoint map_M {X Y} (f : X → M Y) (l : list X) : M (list Y) :=
  match l with
  | [] => mret []
  | x :: l' => y ← f x; ys ← map_M f l'; mret (y :: ys)
  end.

(** [for finished_slot in finished_slots[::-1]: l.pop(finished_slot)] *)
Definition pop_slots {X} (finished_slots : list nat) (l : list X) : list X :=
  foldl (λ l i, delete i l) l (reverse finished_slots).

(** The two pops of [_wait_and_handle_finish], from [_working_task_ids] and
    from [_working_processes]. *)
Definition popped (finished_slots : list nat) (w : world) : world :=
  set_working_task_ids
    (pop_slots finished_slots <$> _working_task_ids w)
    (set_working_processes
       (pop_slots finished_slots <$> _working_processes w) w).

(** ** The supervisor *)

Section Supervisor.

(** The executor, and the function and the argument columns of the batch
    ([self._func], [self._args_list]). *)
Context (self : Parallel) (func : pyfunc) (args_list : list (list pyval)).

(** The environment: the children that exit at each scheduling point (pids
    that are not live are ignored), and the successive answers of the resource
    manager. *)
Context (sched : nat → list nat) (manager : nat → admission).

(** A live child runs [_inner] to its end and exits. *)
Definition run_child (w : world) (pid : nat) : world :=
  match w_procs w !! pid with
  | Some p =>
      match p_status p with
      | Alive =>
          let s' := (_inner self func (p_task_name p) (p_cuda p) (p_args p)
                       (w_shared w)).2 in
          set_procs (<[pid := set_status Dead p]> (w_procs w)) (set_shared s' w)
      | _ => w
      end
  | None => w
  end.

Definition run_children (pids : list nat) (w : world) : world :=
  foldl run_child w pids.

(** A scheduling point of the parent (a poll, a sleep, a call of the resource
    manager, a join): the children the scheduler names exit, then the user's
    interrupt, if it is due, is raised in the parent. *)
Definition yield : M unit := λ w,
  let w := run_children (sched (clock w)) w in
  let w := set_clock (S (clock w)) w in
  match sigint w with
  | Some O => (Raise KeyboardInterrupt, set_sigint None w)
  | Some (S n) => (Ok (), set_sigint (Some n) w)
  | None => (Ok (), w)
  end.

(** [process.start()] *)
Definition start_process (pid : nat) : M unit := λ w,
  match w_procs w !! pid with
  | Some p =>
      match p_status p with
      | Created =>
          let w' := set_procs (<[pid := set_status Alive p]> (w_procs w)) w in
          (Ok (), set_history (history w' ++ [Started (live_count w')]) w')
      | _ => (Raise (PyExc "AssertionError" "cannot start a process twice"), w)
      end
  | None => (Ok (), w)
  end.

(** [process.join()]: the parent blocks until the child has exited. *)
Definition join (pid : nat) : M unit := λ w,
  match w_procs w !! pid with
  | Some p =>
      match p_status p with
      | Created =>
          (Raise (PyExc "AssertionError" "can only join a started process"), w)
      | _ => (yield ;; modify (λ w, run_child w pid)) w
      end
  | None => (Ok (), w)
  end.

(** [for process in processes: if process is None: continue; process.join()] *)
Definition join_all (processes : list (option nat)) : M unit :=
  for_each processes (λ process,
    match process with
    | None => mret ()
    | Some pid => join pid
    end).

(** [_set_terminate] on the executor's store *)
Definition set_terminate : M unit := λ w,
  match _set_terminate (rs w) with
  | Ok rs' => (Ok (), set_shared (Shared rs' (sh_logs (w_shared w))) w)
  | Raise e => (Raise e, w)
  | Hang => (Hang, w)
  | OutOfFuel => (OutOfFuel, w)
  end.

(** *** [__wait] *)

(** A slot counts as finished when it holds no process or a process that is
    not alive. *)
Definition slot_finished (w : world) (process : option nat) : bool :=
  match process with
  | None => true
  | Some pid => negb (is_alive w pid)
  end.

(** The names joined into the debug line at the top of the wait loop:
    [map(self._get_task_name, filter(bool, self._working_task_ids))]. *)
Fixpoint working_names (ids : list (option nat)) : outcome unit :=
  match ids with
  | [] => Ok ()
  | Some (S i) :: rest =>
      match _get_task_name self (Some (S i)) with
      | Ok _ => working_names rest
      | Raise e => Raise e
      | Hang => Hang
      | OutOfFuel => OutOfFuel
      end
  | _ :: rest => working_names rest
  end.

(** The loop over [enumerate(zip(self._working_task_ids,
    self._working_processes))]. *)
Fixpoint poll_slots (w : world) (i : nat)
  (slots : list (option nat * option nat)) : outcome (list nat) :=
  match slots with
  | [] => Ok []
  | (task_id, process) :: rest =>
      match process with
      | None =>
          match poll_slots w (S i) rest with
          | Ok finished_slots => Ok (i :: finished_slots)
          | o => o
          end
      | Some pid =>
          match _get_task_name self task_id with
          | Ok _ =>
              match poll_slots w (S i) rest with
              | Ok finished_slots =>
                  Ok (if is_alive w pid then finished_slots
                      else i :: finished_slots)
              | o => o
              end
          | Raise e => Raise e
          | Hang => Hang
          | OutOfFuel => OutOfFuel
          end
      end
  end.

(** One turn of the wait loop, up to [finished_slots]. *)
Definition poll : M (list nat) := λ w,
  match _working_task_ids w with
  | None =>
      (Raise (PyExc "AttributeError"
                "'Parallel' object has no attribute '_working_task_ids'"), w)
  | Some ids =>
      match working_names ids with
      | Ok _ =>
          match _working_processes w with
          | None =>
              (Raise (PyExc "TypeError" "'NoneType' object is not iterable"), w)
          | Some processes => (poll_slots w 0 (zip ids processes), w)
          end
      | Raise e => (Raise e, w)
      | Hang => (Hang, w)
      | OutOfFuel => (OutOfFuel, w)
      end
  end.

Fixpoint first_live (w : world) (processes : list (option nat)) : option nat :=
  match processes with
  | [] => None
  | Some pid :: rest => if is_alive w pid then Some pid else first_live w rest
  | None :: rest => first_live w rest
  end.

(** [time.sleep(self._sleep + random.random())]: a scheduling point.  The wait
    loop sleeps until some slot is finished; its sleeps during which no worker
    exits change nothing and are left out: with [until_exit] (the sleeps of
    the wait loop), if no slot is finished after the scheduler's choice, the
    first live worker exits. *)
Definition time_sleep (until_exit : bool) : M unit :=
  yield ;;
  if until_exit then
    modify (λ w,
      match _working_processes w with
      | Some processes =>
          if existsb (slot_finished w) processes then w
          else match first_live w processes with
               | Some pid => run_child w pid
               | None => w
               end
      | None => w
      end)
  else mret ().

(** The [while True] loop of [__wait].  Its sleep is
    [self.__sleep(skip_check_finished=True)], whose [_refresh] only talks to
    the resource manager.  After a sleep some slot is finished unless no
    worker is left to wait for, and then the loop would never end. *)
Fixpoint wait_loop (rounds : nat) (wait_until_finished : bool)
  : M (list nat) :=
  match rounds with
  | O => lift Hang
  | S rounds' =>
      yield ;;
      finished_slots ← poll;
      if negb wait_until_finished
         || match finished_slots with [] => false | _ => true end
      then mret finished_slots
      else time_sleep true ;; wait_loop rounds' wait_until_finished
  end.

Definition __wait (wait_until_finished : bool) : M (list nat) :=
  try_except (wait_loop 2 wait_until_finished)
    (λ e, if is_KeyboardInterrupt e then
            Some (set_terminate ;;
                  raise (_ParallelError "Keyboard Interrupted"))
          else None).

(** *** [_user_terminate] *)

Definition _user_terminate {A} : M A :=
  processes ← (λ w, match _working_processes w with
                    | Some l => (Ok l, w)
                    | None => (Raise (PyExc "TypeError"
                                 "'NoneType' object is not iterable"), w)
                    end);
  join_all processes ;;
  recorded_exceptions ← (λ w, (exceptions (rs w), w));
  if negb (truthy recorded_exceptions) then
    raise (_ParallelError "Parallel terminated by user action")
  else raise (_ParallelError "Parallel terminated by unexpected errors").

(** *** [_wait_and_handle_finish] *)

(** The resource manager's [handle_finish] and the deletion of the loggers
    are left out.  The parent can be preempted between the poll and the test
    of the flag. *)
Definition _wait_and_handle_finish (wait_until_finish : bool) : M unit :=
  finished_slots ← __wait wait_until_finish;
  match finished_slots with
  | [] => mret ()
  | _ =>
      yield ;;
      t ← (λ w, (terminated (rs w), w));
      if t : bool then _user_terminate
      else
        modify (popped finished_slots)
  end.

(** *** [_refresh] and [__sleep] *)

(** [checkpoint_initialized] is the resource manager's. *)
Definition _refresh (checkpoint_initialized skip_check_finished : bool)
  : M unit :=
  if negb checkpoint_initialized then mret ()
  else if negb skip_check_finished then _wait_and_handle_finish false
  else mret ().

Definition __sleep (checkpoint_initialized skip_check_finished : bool)
  : M unit :=
  time_sleep skip_check_finished ;;
  _refresh checkpoint_initialized skip_check_finished.

(** *** [_get_process] *)

(** [tuple(args[task_id] for args in self._args_list)] *)
Fixpoint row (task_id : nat) (columns : list (list pyval))
  : outcome (list pyval) :=
  match columns with
  | [] => Ok []
  | args :: rest =>
      match args !! task_id with
      | Some v =>
          match row task_id rest with
          | Ok vs => Ok (v :: vs)
          | o => o
          end
      | None => Raise (PyExc "IndexError" "list index out of range")
      end
  end.

(** [self._resource_manager.get_process(task_id,
    lambda: self.__sleep(skip_check_finished=False), start)]: the call takes
    its answer from the environment, after as many calls of the sleep callback
    as the answer says. *)
Definition resource_manager_get_process : M admission :=
  yield ;;
  adm ← (λ w, (Ok (manager (asked w)), set_asked (S (asked w)) w));
  for_each (adm_refreshes adm) (λ checkpoint, __sleep checkpoint false) ;;
  mret adm.

(** The result is the new process (its pid), or [None]. *)
Definition _get_process (task_id : nat) (start : bool) : M (option nat) :=
  adm ← resource_manager_get_process;
  if negb (adm_create adm) then mret None
  else
    let cuda :=
      if negb (_use_cuda self) then VNone
      else match adm_gpu adm with
           | Some device => VInt device
           | None => VNone
           end in
    name ← lift (_get_task_name self (Some task_id));
    args ← lift (row task_id args_list);
    pid ← (λ w, (Ok (length (w_procs w)),
                 set_procs (w_procs w ++
                   [Process task_id (default "" name) cuda args Created]) w));
    (if start then start_process pid else mret ()) ;;
    mret (Some pid).

(** *** [_add_new_processes] *)

Definition _add_new_processes : M bool :=
  n_working ← (λ w, match _working_processes w with
                    | Some l => (Ok (Z.of_nat (length l)), w)
                    | None => (Raise (PyExc "TypeError"
                                 "object of type 'NoneType' has no len()"), w)
                    end);
  let n_new_jobs := _n_jobs self - n_working in
  n_res ← read (λ w, Z.of_nat (length (_all_task_ids w)) - Z.of_nat (_cursor w));
  if 0 <? n_res then
    let n_new_jobs := Z.min n_new_jobs n_res in
    for_each (seq 0 (Z.to_nat n_new_jobs)) (λ _,
      new_task_id ← (λ w, match _all_task_ids w !! _cursor w with
                          | Some i => (Ok i, w)
                          | None => (Raise (PyExc "IndexError"
                                       "list index out of range"), w)
                          end);
      process ← _get_process new_task_id true;
      modify (λ w,
        let processes := (λ l, l ++ [process]) <$> _working_processes w in
        set_history
          (history w ++ [Refilled (length (default [] processes))])
          (set_working_processes processes w)) ;;
      modify (λ w, set_working_task_ids
                     ((λ l, l ++ [Some new_task_id]) <$> _working_task_ids w) w) ;;
      modify (λ w, set_cursor (S (_cursor w)) w)) ;;
    mret true
  else mret (0 <? n_working).

(** *** [__call__] *)

(** [exceptions = self.exceptions; exceptions["base"] = e;
    self._rs["__exceptions__"] = exceptions] *)
Definition record_base (e : pyexc) : M unit :=
  excs ← (λ w, (exceptions (rs w), w));
  excs' ← lift (setitem excs "base" (VErr e));
  modify (λ w, set_shared (put EXCEPTIONS excs' (w_shared w)) w).

(** [self._resource_manager.register(kind, methods)]; the registry is the
    resource manager's. *)
Definition register (kind : string) : M unit :=
  modify (λ w, set_registered (registered w ++ [kind]) w).

(** From the creation of the resource manager to the first refresh. *)
Definition setup_resources : M unit :=
  modify (set_registered []) ;;
  register "RAM" ;;
  let gpu_config :=
    default (GpuConfig None) (gpu_config_of (_resource_config self)) in
  let default_cuda_list : option (list Z) :=
    if _use_cuda self then None else Some [] in
  let available_cuda_list :=
    default default_cuda_list (available_cuda_list gpu_config) in
  match available_cuda_list with
  | None => register "GPU"
  | Some (_ :: _) => register "GPU"
  | Some [] => mret ()
  end.

(** The [while True] loop of [__call__]. *)
Fixpoint main_loop (fuel : nat) : M unit :=
  match fuel with
  | O => lift OutOfFuel
  | S fuel' =>
      _wait_and_handle_finish true ;;
      more ← _add_new_processes;
      if more : bool then main_loop fuel' else mret ()
  end.

(** [None] where the process is [None], the task id elsewhere. *)
Definition mask_failed (task_ids : list nat) (processes : list (option nat))
  : list (option nat) :=
  zip_with (λ i p, match p with Some _ => Some i | None => None end)
           task_ids processes.

Definition failed_task_ids (task_ids : list nat)
  (processes : list (option nat)) : list nat :=
  omap (λ '(i, p), match p with Some _ => None | None => Some i end)
       (zip task_ids processes).

(** The [try] block of [__call__]. *)
Definition batch_body (fuel : nat) (n_jobs : Z) : M unit :=
  let init_task_ids := seq 0 (Z.to_nat n_jobs) in
  init_processes ← map_M (λ i, _get_process i false) init_task_ids;
  t ← (λ w, (terminated (rs w), w));
  if t : bool then _user_terminate
  else
    modify (λ w, set_all_task_ids
                   (failed_task_ids init_task_ids init_processes
                    ++ _all_task_ids w) w) ;;
    modify (set_working_task_ids
              (Some (mask_failed init_task_ids init_processes))) ;;
    match init_processes with
    | [] => raise (PyExc "ValueError"
                     "not enough values to unpack (expected 2, got 0)")
    | _ :: _ =>
        if forallb (λ p, match p with None => true | Some _ => false end)
             init_processes
        then raise (PyExc "ValueError"
                      "too many values to unpack (expected 2)")
        else
          modify (set_working_processes (Some init_processes)) ;;
          for_each init_processes (λ p,
            match p with
            | None => mret ()
            | Some pid => start_process pid
            end) ;;
          main_loop fuel
    end.

(** The [except] clauses of [__call__]. *)
Definition batch_handler (e : pyexc) : option (M unit) :=
  if is_KeyboardInterrupt e then
    Some (record_base (_ParallelError "Keyboard Interrupted"))
  else if is_Exception e then Some (record_base e)
  else None.

(** The [finally] clause of [__call__]. *)
Definition batch_finally : M unit :=
  processes ← read _working_processes;
  match processes with
  | Some l => join_all l
  | None => mret ()
  end ;;
  modify (set_manager_up false).

(** The Windows branch: [p.map(f, *args_list)] over the rows, and
    [dict(zip(task_names, results))]. *)
Fixpoint rows (n : nat) (i : nat) : list (list pyval) :=
  match n with
  | O => []
  | S n' =>
      match row i args_list with
      | Ok r => r :: rows n' (S i)
      | _ => []
      end
  end.

Definition pool_map (n_tasks : nat) : M unit :=
  task_names ← map_M (λ i, lift (_get_task_name self (Some i))) (seq 0 n_tasks);
  results ← map_M (λ args, match f_call func args ∅ with
                           | Returns v => mret v
                           | Raises e => raise e
                           end) (rows n_tasks 0);
  modify (λ w, set_shared
    (Shared (foldl (λ m '(k, v), <[default "" k := v]> m) ∅
               (zip task_names results))
            (sh_logs (w_shared w))) w).

(** [Parallel.__call__(f, *args_list)].  [fuel] bounds the turns of the main
    loop.  For a negative [n_jobs] Python's [range(n_jobs, n_tasks)] starts
    below zero; the batch then fails before it reads [_all_task_ids], and the
    model keeps the ids from zero on. *)
Definition __call__ (fuel : nat) : M unit :=
  match args_list with
  | [] => raise (PyExc "IndexError" "tuple index out of range")
  | args :: _ =>
      let n_tasks := length args in
      let n_jobs := Z.min (_n_jobs self) (Z.of_nat n_tasks) in
      if WINDOWS self then pool_map n_tasks
      else
        modify (λ w, set_cursor 0
                       (set_all_task_ids
                          (seq (Z.to_nat n_jobs) (n_tasks - Z.to_nat n_jobs)) w)) ;;
        modify (set_manager_up true) ;;
        modify (λ w, set_shared (Shared (init_rs n_jobs n_tasks)
                                   (sh_logs (w_shared w))) w) ;;
        setup_resources ;;
        modify (set_working_processes None) ;;
        try_finally (try_except (batch_body fuel n_jobs) batch_handler)
                    batch_finally
  end.

End Supervisor.

(** ** Specifications of the parent's computations

    [hoare P m Q E]: run from a state in [P], the computation [m] either
    returns a value and a state in [Q], or ends in another way (an exception,
    a parent that hangs, no fuel) in a state in [E]. *)
Definition hoare {A} (P : world → Prop) (m : M A) (Q : A → world → Prop)
  (E : world → Prop) : Prop :=
  ∀ w, P w → match m w with
             | (Ok a, w') => Q a w'
             | (_, w') => E w'
             end.

(** ** Notions used by the proofs about the supervisor *)

(** The positions, counted from [i], at which a mask is set; and the elements
    of a list at which it is not. *)
Fixpoint indices_of (i : nat) (mask : list bool) : list nat :=
  match mask with
  | [] => []
  | b :: mask' =>
      if b then i :: indices_of (S i) mask' else indices_of (S i) mask'
  end.

Fixpoint keep_unmasked {X} (mask : list bool) (l : list X) : list X :=
  match mask, l with
  | b :: mask', x :: l' =>
      if b then keep_unmasked mask' l' else x :: keep_unmasked mask' l'
  | _, _ => l
  end.

(** The pids held by the slots of a working set. *)
Definition somes (l : list (option nat)) : list nat := omap id l.

(** Slot by slot, a process has a task id. *)
Definition slots_agree (ids processes : list (option nat)) : Prop :=
  Forall2 (λ id p, is_Some p → is_Some id) ids processes.

(** The tasks still in the queue. *)
Definition pending (w : world) : nat :=
  (length (_all_task_ids w) - _cursor w)%nat.

(** [w'] differs from [w] at most in that children have exited and in what
    they and the environment wrote: the working set, the queue and the history
    are the same, and no child is alive that was not. *)
Record calmer (w w' : world) : Prop := Calmer {
  cal_task_ids : _working_task_ids w' = _working_task_ids w;
  cal_processes : _working_processes w' = _working_processes w;
  cal_all : _all_task_ids w' = _all_task_ids w;
  cal_cursor : _cursor w' = _cursor w;
  cal_history : history w' = history w;
  cal_alive : ∀ pid, is_alive w' pid = true → is_alive w pid = true
}.

(** [finished_slots] is the result of a poll in the state [w]. *)
Definition polled (self : Parallel) (w : world) (finished_slots : list nat)
  : Prop :=
  ∃ ids processes,
    _working_task_ids w = Some ids ∧
    _working_processes w = Some processes ∧
    poll_slots self w 0 (zip ids processes) = Ok finished_slots.

(** An invariant [I] of the states of a batch that the children and the
    environment keep, with what is left of it ([E]) when the parent raises. *)
Record steady (self : Parallel) (func : pyfunc) (I E : world → Prop)
  : Prop := Steady {
  sd_child : ∀ w pid, I w → I (run_child self func w pid);
  sd_clock : ∀ w n, I w → I (set_clock n w);
  sd_sigint : ∀ w s, I w → is_Some (sigint w) → I (set_sigint s w);
  sd_asked : ∀ w n, I w → I (set_asked n w);
  sd_exc : ∀ w, I w → E w;
  sd_terminate : ∀ w rs',
    I w → _set_terminate (rs w) = Ok rs' →
    E (set_shared (Shared rs' (sh_logs (w_shared w))) w)
}.

(** A steady invariant that the pops of finished slots keep too. *)
Record stable (self : Parallel) (func : pyfunc) (I E : world → Prop)
  : Prop := Stable {
  st_child : ∀ w pid, I w → I (run_child self func w pid);
  st_clock : ∀ w n, I w → I (set_clock n w);
  st_sigint : ∀ w s, I w → is_Some (sigint w) → I (set_sigint s w);
  st_asked : ∀ w n, I w → I (set_asked n w);
  st_pop : ∀ w1 w2 fs,
    I w1 → I w2 → calmer w1 w2 → polled self w1 fs → I (popped fs w2);
  st_exc : ∀ w, I w → E w;
  st_terminate : ∀ w rs',
    I w → _set_terminate (rs w) = Ok rs' →
    E (set_shared (Shared rs' (sh_logs (w_shared w))) w)
}.

(** An event of the history within the bound [min(num_jobs, n_tasks)]. *)
Definition event_ok (bound : Z) (ev : event) : Prop :=
  match ev with
  | Started live => Z.of_nat live ≤ bound
  | Refilled working => Z.of_nat working ≤ bound
  end.

(** The invariant of the supervisor behind the bound on the live children.
    [extra] are children started and not yet appended to the working set. *)
Record supervised (self : Parallel) (n_tasks : nat) (extra : list nat)
  (w : world) : Prop := Supervised {
  sup_history :
    Forall (event_ok (Z.min (_n_jobs self) (Z.of_nat n_tasks))) (history w);
  sup_live : ∀ pid, is_alive w pid = true →
    pid ∈ extra ∨ ∃ ps, _working_processes w = Some ps ∧ Some pid ∈ ps;
  sup_ids : is_Some (_working_processes w) → is_Some (_working_task_ids w);
  sup_slots : ∀ ids ps,
    _working_task_ids w = Some ids → _working_processes w = Some ps →
    slots_agree ids ps;
  sup_jobs : ∀ ps, _working_processes w = Some ps →
    Z.of_nat (length ps + length extra) ≤ _n_jobs self;
  sup_tasks : ∀ ids, _working_task_ids w = Some ids →
    (length (somes ids) + pending w ≤ n_tasks)%nat;
  sup_extra : (length extra ≤ pending w)%nat
}.

(** Every slot of the working set has a task id. *)
Definition all_ids_some (w : world) : Prop :=
  ∀ ids, _working_task_ids w = Some ids → Forall is_Some ids.

(** There is a working set, with room for [k] more slots and [k] more tasks
    in the queue. *)
Definition room (self : Parallel) (k : nat) (w : world) : Prop :=
  is_Some (_working_processes w) ∧
  (∀ ps, _working_processes w = Some ps →
         Z.of_nat (length ps + k) ≤ _n_jobs self) ∧
  (k ≤ pending w)%nat.

(** The invariant of the loop of [_add_new_processes], [k] turns before its
    end. *)
Definition refilling (self : Parallel) (n_tasks k : nat) (w : world) : Prop :=
  supervised self n_tasks [] w ∧ all_ids_some w ∧ room self k w.

(** The invariant of the creation of the initial processes. *)
Definition initializing (self : Parallel) (n_tasks : nat) (queue : list nat)
  (w : world) : Prop :=
  supervised self n_tasks [] w ∧
  _working_processes w = None ∧
  _working_task_ids w = None ∧
  (∀ pid, is_alive w pid = false) ∧
  _all_task_ids w = queue ∧
  _cursor w = 0%nat.

(** ** Notions used by the proof about the identity batch *)

(** The name [_get_task_name] gives a task when no names were supplied. *)
Definition default_name (self : Parallel) (i : nat) : string :=
  "task_" +:+ pretty i +:+ name_suffix self.

(** A process of a batch of [identity] over the column [vs]: it carries its
    task's value and name, and once it has exited the store holds the value
    under the name. *)
Definition recorded (self : Parallel) (vs : list pyval) (w : world)
  (p : process) : Prop :=
  ∃ v, vs !! p_task_id p = Some v ∧
       p_args p = [v] ∧
       p_task_name p = default_name self (p_task_id p) ∧
       (p_status p = Dead → rs w !! default_name self (p_task_id p) = Some v).

(** No interrupt is due, the flag is clear, no exception is recorded, and
    every process is as it should be. *)
Definition clean (self : Parallel) (vs : list pyval) (w : world) : Prop :=
  sigint w = None ∧
  terminated (rs w) = Ok false ∧
  rs w !! EXCEPTIONS = Some (VDict ∅) ∧
  (∀ pid p, w_procs w !! pid = Some p → recorded self vs w p).

(** The state of the batch once the initial processes run: every process was
    started, every task is in the queue or has a process, and there is a
    working set. *)
Definition running (self : Parallel) (vs : list pyval) (w : world) : Prop :=
  clean self vs w ∧
  (∀ pid p, w_procs w !! pid = Some p → p_status p ≠ Created) ∧
  (∀ i, (i < length vs)%nat →
        i ∈ drop (_cursor w) (_all_task_ids w) ∨
        ∃ pid p, w_procs w !! pid = Some p ∧ p_task_id p = i) ∧
  Forall (λ i, (i < length vs)%nat) (_all_task_ids w) ∧
  is_Some (_working_processes w) ∧
  is_Some (_working_task_ids w).

(** The invariant of the main loop on the identity batch. *)
Definition serving (self : Parallel) (vs : list pyval) (w : world) : Prop :=
  supervised self (length vs) [] w ∧ running self vs w.

(** A resource manager that admits every task at once: it never defers (no
    call of the sleep callback) and always lets the process be created. *)
Definition admits_at_once (manager : nat → admission) : Prop :=
  ∀ k, adm_refreshes (manager k) = [] ∧ adm_create (manager k) = true.

(** What the loop of [__call__] has left to do: two for each task in the
    queue and one for each slot of the working set. *)
Definition work_left (w : world) : nat :=
  (2 * pending w + length (default [] (_working_processes w)))%nat.

(** ** Notions used by the proof that no task is dispatched twice *)

(** The task ids of the processes created so far, in the order of their
    creation. *)
Definition dispatched (w : world) : list nat := p_task_id <$> w_procs w.

(** The tasks that have a process are distinct tasks of the batch. *)
Definition dispatched_ok (n_tasks : nat) (w : world) : Prop :=
  NoDup (dispatched w) ∧ Forall (λ i, (i < n_tasks)%nat) (dispatched w).

(** The tasks that have a process and those still in the queue are distinct
    tasks of the batch. *)
Definition dispatching (n_tasks : nat) (w : world) : Prop :=
  NoDup (dispatched w ++ drop (_cursor w) (_all_task_ids w)) ∧
  Forall (λ i, (i < n_tasks)%nat)
         (dispatched w ++ drop (_cursor w) (_all_task_ids w)).

(** The tasks that have a process, the queue and the cursor are the given
    ones. *)
Definition framed (ids queue : list nat) (c : nat) (w : world) : Prop :=
  dispatched w = ids ∧ _all_task_ids w = queue ∧ _cursor w = c.

(** ** Notions used by the proof that a batch maps its function *)

(** Two processes of the same task, one of the function on a value of the
    batch and one of [identity] on what the function returns for it. *)
Definition sim_proc (g : pyval → pyval) (vs : list pyval) (p1 p2 : process)
  : Prop :=
  p_task_id p1 = p_task_id p2 ∧ p_task_name p1 = p_task_name p2 ∧
  p_status p1 = p_status p2 ∧
  ∃ v, v ∈ vs ∧ p_args p1 = [v] ∧ p_args p2 = [g v].

(** Two states of two batches, of the function and of [identity] on its
    results, that differ at most in the log and as their processes do. *)
Record sim (g : pyval → pyval) (vs : list pyval) (w1 w2 : world) : Prop := Sim {
  sim_rs : rs w1 = rs w2;
  sim_procs : Forall2 (sim_proc g vs) (w_procs w1) (w_procs w2);
  sim_task_ids : _working_task_ids w1 = _working_task_ids w2;
  sim_processes : _working_processes w1 = _working_processes w2;
  sim_all : _all_task_ids w1 = _all_task_ids w2;
  sim_cursor : _cursor w1 = _cursor w2;
  sim_registered : registered w1 = registered w2;
  sim_manager_up : manager_up w1 = manager_up w2;
  sim_clock : clock w1 = clock w2;
  sim_asked : asked w1 = asked w2;
  sim_sigint : sigint w1 = sigint w2;
  sim_history : history w1 = history w2
}.

(** Two computations that, from such states, end in the same way in such
    states. *)
Definition simM (g : pyval → pyval) (vs : list pyval) {A} (m1 m2 : M A)
  : Prop :=
  ∀ w1 w2, sim g vs w1 w2 →
           (m1 w1).1 = (m2 w2).1 ∧ sim g vs (m1 w1).2 (m2 w2).2.

(** ** Concrete inputs *)

(** [Parallel(num_jobs)] with the defaults, off Windows. *)
Definition default_parallel (num_jobs : Z) : Parallel :=
  MkParallel num_jobs false None "" (ResourceConfig None None) false.

(** [def identity(x): return x] *)
Definition identity : pyfunc :=
  PyFunc [("x", POSITIONAL_OR_KEYWORD)]
         (λ args _, match args with
                    | [x] => Returns x
                    | _ => Raises (PyExc "TypeError" "identity() takes 1 positional argument")
                    end).

(** [def add_one(x): return x + 1], on integers *)
Definition add_one : pyfunc :=
  PyFunc [("x", POSITIONAL_OR_KEYWORD)]
         (λ args _, match args with
                    | [VInt x] => Returns (VInt (x + 1))
                    | _ => Raises (PyExc "TypeError"
                                     "unsupported operand type(s) for +")
                    end).

(** [def boom(x): raise ValueError("boom")] *)
Definition boom : pyfunc :=
  PyFunc [("x", POSITIONAL_OR_KEYWORD)]
         (λ _ _, Raises (PyExc "ValueError" "boom")).

(** [def kwonly(x, *, cuda=None): return x] *)
Definition kwonly : pyfunc :=
  PyFunc [("x", POSITIONAL_OR_KEYWORD); ("cuda", KEYWORD_ONLY)]
         (λ args _, match args with
                    | [x] => Returns x
                    | _ => Raises (PyExc "TypeError" "kwonly() takes 1 positional argument")
                    end).

(** The store and the log sink right after [__call__] created the store. *)
Definition fresh_shared (n_jobs : Z) (n_tasks : nat) : shared :=
  Shared (init_rs n_jobs n_tasks) [].

(** The resource manager admits every task at once, and assigns no device. *)
Definition admit_all : nat → admission := λ _, Admission [] true None.

(** No child exits before the parent waits for it. *)
Definition lazy_sched : nat → list nat := λ _, [].

(** [Parallel(num_jobs, use_cuda=True,
    resource_config={"gpu_config": {"available_cuda_list": []}})] *)
Definition cuda_without_devices (num_jobs : Z) : Parallel :=
  MkParallel num_jobs true None ""
    (ResourceConfig None (Some (GpuConfig (Some (Some []))))) false.

(** A batch of one task whose child, running [identity] on [7], is still
    alive. *)
Definition one_live_child : world :=
  World (fresh_shared 1 1) [Process 0 "task_0" VNone [VInt 7] Alive]
        (Some [Some 0%nat]) (Some [Some 0%nat]) [] 0 ["RAM"] true 0 0 None
        [Started 1].

(* ===================================================================== *)
(** * Properties *)

(** ** Reading the store *)

Lemma terminated_insert_other (rs : gmap string pyval) key v :
  key ≠ META → terminated (<[key := v]> rs) = terminated rs.
Proof.
  intros Hne. unfold terminated, meta, rs_get.
  by rewrite lookup_insert_ne.
Qed.

Lemma exceptions_insert_other (rs : gmap string pyval) key v :
  key ≠ EXCEPTIONS → exceptions (<[key := v]> rs) = exceptions rs.
Proof.
  intros Hne. unfold exceptions, rs_get.
  by rewrite lookup_insert_ne.
Qed.

Lemma terminated_Ok_inv (rs : gmap string pyval) b :
  terminated rs = Ok b →
  ∃ m v, rs !! META = Some (VDict m) ∧ m !! "terminated" = Some v ∧ truthy v = b.
Proof.
  unfold terminated, meta, rs_get, getitem.
  destruct (rs !! META) as [[| | | | | |m]|] eqn:Hm; try discriminate.
  destruct (m !! "terminated") as [v|] eqn:Hv; try discriminate.
  intros [= <-]. eauto.
Qed.

Lemma terminated_set (rs : gmap string pyval) (m : gmap string pyval) :
  terminated (<[META := VDict (<["terminated" := VBool true]> m)]> rs) = Ok true.
Proof.
  unfold terminated, meta, rs_get, getitem.
  by rewrite lookup_insert_eq, lookup_insert_eq.
Qed.

Lemma _set_terminate_stale_Ok (seen rs rs' : gmap string pyval) :
  _set_terminate_stale seen rs = Ok rs' →
  ∃ m, seen !! META = Some (VDict m) ∧
       rs' = <[META := VDict (<["terminated" := VBool true]> m)]> rs.
Proof.
  unfold _set_terminate_stale, meta, rs_get, setitem.
  destruct (seen !! META) as [[| | | | | |m]|]; try discriminate.
  intros [= <-]. eauto.
Qed.

Lemma _set_terminate_Ok (rs rs' : gmap string pyval) :
  _set_terminate rs = Ok rs' →
  ∃ m, rs !! META = Some (VDict m) ∧
       rs' = <[META := VDict (<["terminated" := VBool true]> m)]> rs.
Proof. apply (_set_terminate_stale_Ok rs rs). Qed.

Lemma _set_terminate_sets (rs rs' : gmap string pyval) :
  _set_terminate rs = Ok rs' → terminated rs' = Ok true.
Proof.
  intros H. apply _set_terminate_Ok in H as (m & _ & ->). apply terminated_set.
Qed.

Lemma _set_terminate_defined (rs : gmap string pyval) m :
  rs !! META = Some (VDict m) →
  _set_terminate rs = Ok (<[META := VDict (<["terminated" := VBool true]> m)]> rs).
Proof.
  intros Hm. unfold _set_terminate, meta, rs_get. by rewrite Hm.
Qed.

(** ** The signature scan *)

Lemma scan_parameters_cuda ps wc wl :
  (scan_parameters ps wc wl).1 = true ↔
  wc = true ∨ ("cuda", POSITIONAL_OR_KEYWORD) ∈ ps ∨ (∃ n, (n, VAR_KEYWORD) ∈ ps).
Proof.
  revert wc wl. induction ps as [|[name kind] ps IH]; intros wc wl; simpl.
  - split; [auto|]. intros [?|[H|[n H]]]; [done|inversion H..].
  - destruct kind; simpl;
      try (rewrite IH; split;
           [intros [?|[?|[n ?]]]; [auto|right; left; by constructor
                                   |right; right; exists n; by constructor]
           |intros [?|[H|[n H]]]; [auto|inversion H; subst; auto
                                   |inversion H; subst; eauto]]; fail).
    + destruct (String.eqb_spec name "cuda") as [->|Hc].
      * rewrite IH. split; [intros _; right; left; constructor|auto].
      * assert (∀ w1 w2, (scan_parameters ps w1 w2).1 = true ↔
                  w1 = true ∨ ("cuda", POSITIONAL_OR_KEYWORD) ∈ (name, POSITIONAL_OR_KEYWORD) :: ps
                  ∨ (∃ n, (n, VAR_KEYWORD) ∈ (name, POSITIONAL_OR_KEYWORD) :: ps)) as Hgen.
        { intros w1 w2. rewrite IH. split.
          - intros [?|[?|[n ?]]]; [auto|right; left; by constructor
                                   |right; right; exists n; by constructor].
          - intros [?|[H|[n H]]]; [auto| |].
            + inversion H; subst; [congruence|auto].
            + inversion H; subst; eauto. }
        destruct (String.eqb name "log_method"); apply Hgen.
    + split; [|done]. intros _. right; right. exists name. constructor.
Qed.

Lemma scan_parameters_log_method ps wc wl :
  (scan_parameters ps wc wl).2 = true ↔
  wl = true ∨ ("log_method", POSITIONAL_OR_KEYWORD) ∈ ps
  ∨ (∃ n, (n, VAR_KEYWORD) ∈ ps).
Proof.
  revert wc wl. induction ps as [|[name kind] ps IH]; intros wc wl; simpl.
  - split; [auto|]. intros [?|[H|[n H]]]; [done|inversion H..].
  - assert (∀ k w1 w2, k ≠ VAR_KEYWORD →
              (k = POSITIONAL_OR_KEYWORD → name ≠ "log_method") →
              (scan_parameters ps w1 w2).2 = true ↔
              w2 = true ∨ ("log_method", POSITIONAL_OR_KEYWORD) ∈ (name, k) :: ps
              ∨ (∃ n, (n, VAR_KEYWORD) ∈ (name, k) :: ps)) as Hgen.
    { intros k w1 w2 Hk Hn. rewrite IH. split.
      - intros [?|[?|[n ?]]]; [auto|right; left; by constructor
                               |right; right; exists n; by constructor].
      - intros [?|[H|[n H]]]; [auto| |].
        + inversion H; subst; [exfalso; by apply Hn|auto].
        + inversion H; subst; [done|eauto]. }
    destruct kind; simpl; try (apply Hgen; [done|congruence]).
    + destruct (String.eqb_spec name "cuda") as [->|Hc].
      * apply Hgen; [done|]. intros _. discriminate.
      * destruct (String.eqb_spec name "log_method") as [->|Hl].
        -- rewrite IH. split; [intros _; right; left; constructor|auto].
        -- apply Hgen; [done|auto].
    + split; [|done]. intros _. right; right. exists name. constructor.
Qed.

Lemma build_kwargs_cuda self func tn cuda s :
  (build_kwargs self func tn cuda s).1 !! "cuda" =
  if f_wants_cuda func then Some cuda else None.
Proof.
  unfold build_kwargs.
  destruct (f_wants_cuda func), (_use_cuda self), (f_wants_log_method func);
    simpl; by simplify_map_eq.
Qed.

Lemma build_kwargs_log_method self func tn cuda s :
  (build_kwargs self func tn cuda s).1 !! "log_method" =
  if f_wants_log_method func then Some (VCallable "log_method") else None.
Proof.
  unfold build_kwargs.
  destruct (f_wants_cuda func), (_use_cuda self), (f_wants_log_method func);
    simpl; by simplify_map_eq.
Qed.

Lemma build_kwargs_rs self func tn cuda s :
  sh_rs (build_kwargs self func tn cuda s).2 = sh_rs s.
Proof.
  unfold build_kwargs.
  by destruct (f_wants_cuda func), (_use_cuda self), (f_wants_log_method func).
Qed.

Lemma build_kwargs_fst self func tn cuda s s' :
  (build_kwargs self func tn cuda s).1 = (build_kwargs self func tn cuda s').1.
Proof.
  unfold build_kwargs.
  by destruct (f_wants_cuda func), (_use_cuda self), (f_wants_log_method func).
Qed.

(** ** The worker adapter *)

Lemma log_method_rs tn lv text s : sh_rs (log_method tn lv text s) = sh_rs s.
Proof. done. Qed.

Lemma elem_of_log_method r tn lv text s :
  r ∈ sh_logs s → r ∈ sh_logs (log_method tn lv text s).
Proof. intros H. simpl. apply elem_of_app. by left. Qed.

Lemma build_kwargs_logs_mono self func tn cuda s r :
  r ∈ sh_logs s → r ∈ sh_logs (build_kwargs self func tn cuda s).2.
Proof.
  intros H. unfold build_kwargs.
  destruct (f_wants_cuda func), (_use_cuda self), (f_wants_log_method func);
    simpl; rewrite ?elem_of_app; auto.
Qed.

Lemma build_kwargs_warns self func tn cuda s :
  _use_cuda self = true → f_wants_cuda func = false →
  Log tn WARNING "task function doesn't want cuda but cuda is used"
    ∈ sh_logs (build_kwargs self func tn cuda s).2.
Proof.
  intros Hu Hw. unfold build_kwargs. rewrite Hu, Hw.
  destruct (f_wants_log_method func); simpl;
    rewrite !elem_of_app, !list_elem_of_singleton; auto.
Qed.

Lemma finish_inner_logs_mono tn b s r :
  r ∈ sh_logs s → r ∈ sh_logs (finish_inner tn b s).2.
Proof.
  intros H. unfold finish_inner. destruct b; [|done].
  destruct (_set_terminate (sh_rs s)); simpl; rewrite ?elem_of_app; auto.
Qed.

(** Once the flag is clear at its start, a worker whose function returns
    stores the value and exits normally. *)
Lemma _inner_returns self func tn cuda args s r :
  terminated (sh_rs s) = Ok false →
  tn ≠ META →
  f_call func args (build_kwargs self func tn cuda s).1 = Returns r →
  (_inner self func tn cuda args s).1 = Exited ∧
  sh_rs (_inner self func tn cuda args s).2 !! tn = Some r ∧
  terminated (sh_rs (_inner self func tn cuda args s).2)
    = Ok (terminate_requested r).
Proof.
  intros Ht Hn Hc. unfold _inner. rewrite Ht.
  destruct (build_kwargs self func tn cuda
              (log_method tn INFO "task started" s)) as [kw s1] eqn:Hb.
  assert (sh_rs s1 = sh_rs s) as Hrs.
  { change s1 with (kw, s1).2. rewrite <- Hb. by rewrite build_kwargs_rs. }
  assert (kw = (build_kwargs self func tn cuda s).1) as ->.
  { change kw with (kw, s1).1. rewrite <- Hb. apply build_kwargs_fst. }
  rewrite Hc.
  destruct (terminated_Ok_inv _ _ Ht) as (m & v & Hm & Hv & Htr).
  unfold finish_inner. destruct (terminate_requested r); simpl.
  - rewrite (_set_terminate_defined _ m) by (by rewrite lookup_insert_ne, Hrs).
    simpl. split; [done|]. split.
    + by rewrite lookup_insert_ne, lookup_insert_eq.
    + apply terminated_set.
  - split; [done|]. split; [by rewrite lookup_insert_eq|].
    by rewrite terminated_insert_other, Hrs.
Qed.

(** (C3) A worker whose user function raises an [Exception] stores the error
    record under the task's own key and under [__exceptions__[task_name]], and
    sets the termination flag.  The function is called only when the flag was
    clear at the worker's start; the store holds its two reserved records and
    the task's name is none of the reserved keys. *)
Theorem C3_worker_error_recorded self func tn cuda args s err excs :
  terminated (sh_rs s) = Ok false →
  sh_rs s !! EXCEPTIONS = Some (VDict excs) →
  tn ≠ META → tn ≠ EXCEPTIONS →
  f_call func args (build_kwargs self func tn cuda s).1 = Raises err →
  is_Exception err = true →
  let s' := (_inner self func tn cuda args s).2 in
  sh_rs s' !! tn = Some (VErr err) ∧
  sh_rs s' !! EXCEPTIONS = Some (VDict (<[tn := VErr err]> excs)) ∧
  terminated (sh_rs s') = Ok true.
Proof.
  intros Ht He Hn1 Hn2 Hc Hexc. unfold _inner. rewrite Ht.
  destruct (build_kwargs self func tn cuda
              (log_method tn INFO "task started" s)) as [kw s1] eqn:Hb.
  assert (sh_rs s1 = sh_rs s) as Hrs.
  { change s1 with (kw, s1).2. rewrite <- Hb. by rewrite build_kwargs_rs. }
  assert (kw = (build_kwargs self func tn cuda s).1) as ->.
  { change kw with (kw, s1).1. rewrite <- Hb. apply build_kwargs_fst. }
  rewrite Hc.
  assert (is_KeyboardInterrupt err = false) as ->.
  { unfold is_Exception, is_KeyboardInterrupt in *.
    destruct (String.eqb (exc_cls err) "KeyboardInterrupt"); [done|done]. }
  rewrite Hexc. simpl.
  unfold exceptions, rs_get. rewrite Hrs, He. simpl.
  destruct (terminated_Ok_inv _ _ Ht) as (m & v & Hm & Hv & Htr).
  unfold finish_inner.
  rewrite (_set_terminate_defined _ m)
    by (by rewrite !lookup_insert_ne).
  simpl. split; [|split].
  - rewrite !lookup_insert_ne by congruence. by rewrite lookup_insert_eq.
  - rewrite lookup_insert_ne by done. by rewrite lookup_insert_eq.
  - apply terminated_set.
Qed.

Lemma C3_worker_error_recorded_witness :
  let s' := (_inner (default_parallel 2) boom "task_2" VNone [VInt 2]
               (fresh_shared 2 4)).2 in
  sh_rs s' !! "task_2" = Some (VErr (PyExc "ValueError" "boom")) ∧
  sh_rs s' !! EXCEPTIONS
    = Some (VDict (<["task_2" := VErr (PyExc "ValueError" "boom")]> ∅)) ∧
  terminated (sh_rs s') = Ok true.
Proof.
  apply (C3_worker_error_recorded (default_parallel 2) boom "task_2" VNone
           [VInt 2] (fresh_shared 2 4) (PyExc "ValueError" "boom") ∅);
    [reflexivity | reflexivity | discriminate | discriminate
    | reflexivity | reflexivity].
Defined.

(** ** The termination flag *)

Lemma apply_write_keeps_flag w rs :
  write_keeps_meta w →
  terminated rs = Ok true → terminated (apply_write w rs) = Ok true.
Proof.
  intros Hw Ht. destruct w as [tn v|e|seen]; simpl in *.
  - by rewrite terminated_insert_other.
  - by rewrite terminated_insert_other.
  - destruct (_set_terminate_stale seen rs) as [rs'| | |] eqn:Hs; try done.
    apply _set_terminate_stale_Ok in Hs as (m & _ & ->).
    apply terminated_set.
Qed.

Lemma stores_after_monotonic ws : ∀ rs i j rsi rsj,
  Forall write_keeps_meta ws →
  (i ≤ j)%nat →
  stores_after ws rs !! i = Some rsi →
  stores_after ws rs !! j = Some rsj →
  terminated rsi = Ok true → terminated rsj = Ok true.
Proof.
  induction ws as [|w ws IH]; intros rs i j rsi rsj Hws Hij Hi Hj Ht.
  - destruct i, j; simpl in *; simplify_eq; try done.
  - apply Forall_cons in Hws as [Hw Hws].
    destruct i as [|i].
    + simpl in Hi. injection Hi as <-.
      destruct j as [|j]; simpl in Hj; [by simplify_eq|].
      apply (IH (apply_write w rs) 0%nat j (apply_write w rs) rsj);
        [done|lia| |done|by apply apply_write_keeps_flag].
      by destruct ws.
    + destruct j as [|j]; [lia|]. simpl in Hi, Hj.
      apply (IH (apply_write w rs) i j rsi rsj); [done|lia|done..].
Qed.

(** (C4) The termination flag of a batch starts false, and over any sequence
    of the assignments the batch makes to the store (results under task names
    other than the reserved [__meta__] key, the [__exceptions__] record, the
    [__meta__] record written by [_set_terminate], also from a stale read), a
    store in which the flag is true is followed only by stores in which it is
    true. *)
Theorem C4_termination_flag_monotonic n_jobs n_tasks ws i j rsi rsj :
  Forall write_keeps_meta ws →
  terminated (init_rs n_jobs n_tasks) = Ok false ∧
  ((i ≤ j)%nat →
   stores_after ws (init_rs n_jobs n_tasks) !! i = Some rsi →
   stores_after ws (init_rs n_jobs n_tasks) !! j = Some rsj →
   terminated rsi = Ok true → terminated rsj = Ok true).
Proof.
  intros Hws. split; [reflexivity|].
  intros Hij Hi Hj.
  by apply (stores_after_monotonic ws (init_rs n_jobs n_tasks) i j rsi rsj).
Qed.

Lemma C4_termination_flag_monotonic_witness :
  let ws := [WriteResult "task_0" (VInt 0);
             WriteTerminate (init_rs 1 2);
             WriteResult "task_1" (VDict (<["terminated" := VBool false]> ∅));
             WriteExceptions (VDict ∅)] in
  terminated (init_rs 1 2) = Ok false ∧
  ((2 ≤ 4)%nat →
   stores_after ws (init_rs 1 2) !! 2%nat
     = Some (apply_write (WriteTerminate (init_rs 1 2))
               (apply_write (WriteResult "task_0" (VInt 0)) (init_rs 1 2))) →
   stores_after ws (init_rs 1 2) !! 4%nat
     = Some (foldl (λ rs w, apply_write w rs) (init_rs 1 2) ws) →
   terminated (apply_write (WriteTerminate (init_rs 1 2))
                 (apply_write (WriteResult "task_0" (VInt 0)) (init_rs 1 2)))
     = Ok true →
   terminated (foldl (λ rs w, apply_write w rs) (init_rs 1 2) ws) = Ok true).
Proof.
  intros ws.
  apply (C4_termination_flag_monotonic 1 2 ws 2 4).
  repeat constructor; discriminate.
Defined.

(** The store a worker leaves is the store it found after a few of those
    assignments, its result going under its own task name. *)
Lemma _inner_writes self func tn cuda args s :
  ∃ ws, Forall (λ w, match w with WriteResult t _ => t = tn | _ => True end) ws ∧
        sh_rs (_inner self func tn cuda args s).2
          = foldl (λ rs w, apply_write w rs) (sh_rs s) ws.
Proof.
  assert (∀ b s0, ∃ ws,
            Forall (λ w, match w with WriteResult t _ => t = tn | _ => True end) ws ∧
            sh_rs (finish_inner tn b s0).2
              = foldl (λ rs w, apply_write w rs) (sh_rs s0) ws) as Hfin.
  { intros b s0. unfold finish_inner. destruct b; [|by exists []].
    destruct (_set_terminate (sh_rs s0)) as [rs'| | |] eqn:Hs;
      try (by exists []).
    exists [WriteTerminate (sh_rs s0)]. split; [by repeat constructor|].
    simpl. unfold _set_terminate in Hs. unfold _set_terminate_stale.
    by rewrite Hs. }
  unfold _inner.
  destruct (terminated (sh_rs s)) as [[|]| | |]; try (by exists []).
  destruct (build_kwargs self func tn cuda
              (log_method tn INFO "task started" s)) as [kw s1] eqn:Hb.
  assert (sh_rs s1 = sh_rs s) as Hrs.
  { change s1 with (kw, s1).2. rewrite <- Hb. by rewrite build_kwargs_rs. }
  destruct (f_call func args kw) as [r|err].
  - match goal with |- context [finish_inner tn ?b ?s0] =>
      destruct (Hfin b s0) as (ws & Hws & ->) end.
    exists (WriteResult tn r :: ws). split; [by constructor|].
    simpl. destruct (negb (terminate_requested r)); simpl; by rewrite Hrs.
  - destruct (is_KeyboardInterrupt err); [exists []; by rewrite <- Hrs|].
    destruct (is_Exception err); [|exists []; by rewrite <- Hrs].
    rewrite log_method_rs. destruct (exceptions (sh_rs s1)) as [excs| | |];
      try (exists []; by rewrite <- Hrs).
    destruct (setitem excs tn (VErr err)) as [excs'| | |].
    + match goal with |- context [finish_inner tn ?b ?s0] =>
        destruct (Hfin b s0) as (ws & Hws & ->) end.
      exists (WriteResult tn (VErr err) :: WriteExceptions excs' :: ws).
      split; [by repeat constructor|]. simpl. by rewrite Hrs.
    + exists [WriteResult tn (VErr err)]. split; [by repeat constructor|].
      simpl. by rewrite Hrs.
    + exists [WriteResult tn (VErr err)]. split; [by repeat constructor|].
      simpl. by rewrite Hrs.
    + exists [WriteResult tn (VErr err)]. split; [by repeat constructor|].
      simpl. by rewrite Hrs.
Qed.

(** ** Capabilities *)

Lemma _inner_keeps_kwargs_logs self func tn cuda args s r :
  terminated (sh_rs s) = Ok false →
  r ∈ sh_logs (build_kwargs self func tn cuda
                 (log_method tn INFO "task started" s)).2 →
  r ∈ sh_logs (_inner self func tn cuda args s).2.
Proof.
  intros Ht Hr. unfold _inner. rewrite Ht.
  destruct (build_kwargs self func tn cuda
              (log_method tn INFO "task started" s)) as [kw s1].
  simpl in Hr.
  destruct (f_call func args kw) as [v|err].
  - apply finish_inner_logs_mono.
    destruct (negb (terminate_requested v)); simpl; rewrite ?elem_of_app; auto.
  - destruct (is_KeyboardInterrupt err); [simpl; rewrite elem_of_app; auto|].
    destruct (is_Exception err); [|done].
    rewrite log_method_rs.
    destruct (exceptions (sh_rs s1)); try (simpl; rewrite elem_of_app; auto; fail).
    destruct (setitem a tn (VErr err));
      try (simpl; rewrite elem_of_app; auto; fail).
    apply finish_inner_logs_mono. simpl. rewrite elem_of_app; auto.
Qed.

(** (C6, as the code has it) The adapter passes [cuda] (resp. [log_method])
    exactly when the function declares a positional-or-keyword parameter of
    that name or accepts an open keyword map; the value passed for [cuda] is
    the assigned device.  When the executor uses CUDA and the function does
    not get [cuda], the adapter logs a warning and still calls the function:
    if it returns, the worker stores the value and exits normally. *)
Theorem C6_capabilities_passed self func tn cuda args s :
  let kwargs := (build_kwargs self func tn cuda s).1 in
  (is_Some (kwargs !! "cuda") ↔
     ("cuda", POSITIONAL_OR_KEYWORD) ∈ f_parameters func
     ∨ accepts_open_keywords func) ∧
  (∀ v, kwargs !! "cuda" = Some v → v = cuda) ∧
  (is_Some (kwargs !! "log_method") ↔
     ("log_method", POSITIONAL_OR_KEYWORD) ∈ f_parameters func
     ∨ accepts_open_keywords func) ∧
  (_use_cuda self = true → kwargs !! "cuda" = None →
   terminated (sh_rs s) = Ok false → tn ≠ META →
   Log tn WARNING "task function doesn't want cuda but cuda is used"
     ∈ sh_logs (_inner self func tn cuda args s).2 ∧
   ∀ r, f_call func args kwargs = Returns r →
        (_inner self func tn cuda args s).1 = Exited ∧
        sh_rs (_inner self func tn cuda args s).2 !! tn = Some r).
Proof.
  intros kwargs. subst kwargs.
  rewrite build_kwargs_cuda, build_kwargs_log_method.
  pose proof (scan_parameters_cuda (f_parameters func) false false) as Hc.
  pose proof (scan_parameters_log_method (f_parameters func) false false) as Hl.
  fold (f_wants_cuda func) in Hc. fold (f_wants_log_method func) in Hl.
  unfold accepts_open_keywords.
  split; [|split; [|split]].
  - destruct (f_wants_cuda func).
    + split; [intros _|by eauto].
      destruct Hc as [Hc _]. destruct (Hc eq_refl) as [?|?]; [done|auto].
    + split; [by intros [? ?]|]. intros H.
      destruct Hc as [_ Hc]. discriminate Hc. auto.
  - destruct (f_wants_cuda func); [by intros v [= <-]|done].
  - destruct (f_wants_log_method func).
    + split; [intros _|by eauto].
      destruct Hl as [Hl _]. destruct (Hl eq_refl) as [?|?]; [done|auto].
    + split; [by intros [? ?]|]. intros H.
      destruct Hl as [_ Hl]. discriminate Hl. auto.
  - intros Hu Hnone Ht Hn.
    assert (f_wants_cuda func = false) as Hw
      by (destruct (f_wants_cuda func); [discriminate|done]).
    split.
    + apply _inner_keeps_kwargs_logs; [done|].
      by apply build_kwargs_warns.
    + intros r Hr.
      destruct (_inner_returns self func tn cuda args s r Ht Hn Hr)
        as (? & ? & _). done.
Qed.

Lemma C6_capabilities_passed_witness :
  let self := MkParallel 1 true None "" (ResourceConfig None None) false in
  let s := fresh_shared 1 1 in
  Log "task_0" WARNING "task function doesn't want cuda but cuda is used"
    ∈ sh_logs (_inner self identity "task_0" (VInt 0) [VInt 7] s).2 ∧
  ∀ r, f_call identity [VInt 7]
         (build_kwargs self identity "task_0" (VInt 0) s).1 = Returns r →
       (_inner self identity "task_0" (VInt 0) [VInt 7] s).1 = Exited ∧
       sh_rs (_inner self identity "task_0" (VInt 0) [VInt 7] s).2 !! "task_0"
         = Some r.
Proof.
  intros self s.
  apply (C6_capabilities_passed self identity "task_0" (VInt 0) [VInt 7] s);
    [reflexivity | reflexivity | reflexivity | discriminate].
Defined.

(** The claim as the specification words it fails on a function that declares
    [cuda] as a keyword-only parameter: the name is declared, the capability
    is not passed. *)
Lemma C6_counterexample_keyword_only :
  let kwargs := (build_kwargs (default_parallel 1) kwonly "task_0" (VInt 0)
                   (fresh_shared 1 1)).1 in
  ¬ (is_Some (kwargs !! "cuda") ↔
     declares kwonly "cuda" ∨ accepts_open_keywords kwonly).
Proof.
  intros kwargs [_ H].
  assert (is_Some (kwargs !! "cuda")) as [v Hv].
  { apply H. left. exists KEYWORD_ONLY. simpl. right. left. }
  vm_compute in Hv. discriminate.
Qed.

(** ** Sampling in [HPOBase.search] *)

Lemma insert_swap_Permutation {A} (l : list A) j x y :
  l !! j = Some x → x :: <[j := y]> l ≡ₚ y :: l.
Proof.
  revert j. induction l as [|a l IH]; intros [|j] Hj; simpl in *; try done.
  - injection Hj as ->. apply perm_swap.
  - rewrite (perm_swap a x), (IH j Hj). apply perm_swap.
Qed.

(** A full sample of the live part of the pool is a permutation of it. *)
Lemma sample_pool_Permutation {A} (draws : nat → nat) k :
  ∀ (pool : list A) n i,
    (n - i = k)%nat → (k ≤ length pool)%nat →
    sample_pool draws pool n i k ≡ₚ take k pool.
Proof.
  induction k as [|k IH]; intros pool n i Hk Hlen; simpl.
  - by rewrite take_0.
  - rewrite Hk.
    assert (draws i mod S k < S k)%nat as Hj by (apply Nat.mod_upper_bound; lia).
    set (j := (draws i mod S k)%nat) in *.
    replace (S k - 1)%nat with k by lia.
    destruct (lookup_lt_is_Some_2 pool j) as [x Hx]; [lia|].
    destruct (lookup_lt_is_Some_2 pool k) as [y Hy]; [lia|].
    rewrite Hx, Hy.
    rewrite (IH (<[j := y]> pool) n (S i)); [|lia|rewrite length_insert; lia].
    rewrite (take_S_r pool k y Hy).
    destruct (decide (j = k)) as [->|Hne].
    + rewrite take_insert_ge by lia. simplify_eq.
      by rewrite Permutation_cons_append.
    + rewrite take_insert_lt by lia.
      rewrite (insert_swap_Permutation (take k pool) j x y)
        by (rewrite lookup_take_lt by lia; done).
      by rewrite Permutation_cons_append.
Qed.

Lemma random_sample_all {A} (draws : nat → nat) (population : list A) :
  ∃ picked, random_sample draws population (Z.of_nat (length population))
            = Ok picked ∧ picked ≡ₚ population.
Proof.
  unfold random_sample.
  rewrite (proj2 (Z.ltb_ge (Z.of_nat (length population)) 0)) by lia.
  rewrite Z.ltb_irrefl. simpl. eexists. split; [done|].
  rewrite Nat2Z.id, sample_pool_Permutation by lia.
  by rewrite firstn_all.
Qed.

Lemma select_params_prefix {A} (all_indices : gset nat) (n : nat) :
  (∀ i, i ∈ all_indices ↔ (i < n)%nat) →
  ∀ (generated : list A) i all_params,
    length all_params = i → (i < n)%nat → (n ≤ i + length generated)%nat →
    select_params all_indices (Z.of_nat n) i generated all_params
    = all_params ++ take (n - i) generated.
Proof.
  intros Hset. induction generated as [|p rest IH]; intros i acc Hlen Hi Hn.
  - simpl in Hn. lia.
  - simpl. rewrite decide_True by (by apply Hset).
    rewrite length_app. simpl.
    destruct (Z.eqb_spec (Z.of_nat (length acc + 1)) (Z.of_nat n)) as [He|He].
    + by replace (n - i)%nat with 1%nat by lia.
    + rewrite (IH (S i)); [|rewrite length_app; simpl; lia|lia|simpl in Hn; lia].
      replace (n - i)%nat with (S (n - S i)) by lia.
      simpl. by rewrite <- app_assoc.
Qed.

(** (C9) In the non-sequential branch of [search] over a finite parameter
    space, with [0 ≤ num_search ≤ n_params] and a generator that enumerates
    [n_params] parameters, the index set drawn by
    [random.sample(list(range(num_search)), k=num_search)] is
    [{0, …, num_search−1}] whatever the generator draws, and [all_params] is
    the first [num_search] parameters of the enumeration. *)
Theorem C9_search_samples_output_indices {A} (draws : nat → nat)
  (n_params num_search : Z) (generated : list A) :
  0 ≤ num_search ≤ n_params →
  n_params = Z.of_nat (length generated) →
  search_all_params draws n_params num_search generated
  = Ok (list_to_set (seq 0 (Z.to_nat num_search)),
        take (Z.to_nat num_search) generated).
Proof.
  intros Hns Hn. unfold search_all_params.
  rewrite Z.gtb_ltb, (proj2 (Z.ltb_ge n_params num_search)) by lia.
  destruct (random_sample_all draws (py_range num_search)) as (picked & Hp & Hperm).
  unfold py_range in *. rewrite length_seq, Z2Nat.id in Hp by lia.
  rewrite Hp. f_equal.
  assert ((list_to_set picked : gset nat) = list_to_set (seq 0 (Z.to_nat num_search)))
    as Hset by (by apply list_to_set_perm_L).
  rewrite Hset. f_equal.
  set (n := Z.to_nat num_search).
  replace num_search with (Z.of_nat n) by lia.
  destruct (decide (n = 0%nat)) as [Hz|Hz].
  - rewrite Hz. destruct generated as [|p rest]; [done|].
    simpl. by rewrite decide_False by set_solver.
  - rewrite (select_params_prefix _ n); [by rewrite Nat.sub_0_r| |done|lia|lia].
    intros i. rewrite elem_of_list_to_set, elem_of_seq. lia.
Qed.

Lemma C9_search_samples_output_indices_witness :
  search_all_params (λ i, (7 * i + 3)%nat) 5 3 ["a"; "b"; "c"; "d"; "e"]
  = Ok (list_to_set (seq 0 (Z.to_nat 3)), take (Z.to_nat 3) ["a"; "b"; "c"; "d"; "e"]).
Proof.
  apply (C9_search_samples_output_indices (λ i, (7 * i + 3)%nat) 5 3
           ["a"; "b"; "c"; "d"; "e"]); [lia | reflexivity].
Defined.

(** ** [CubeNormalizer] *)

Lemma index_Some {A} `{EqDecision A} (choices : list A) (v : A) :
  v ∈ choices →
  ∃ i, CubeNormalizer.index choices v = Some i ∧ choices !! i = Some v.
Proof.
  induction choices as [|c rest IH]; intros Hin; [by inversion Hin|].
  simpl. destruct (decide (c = v)) as [->|Hne]; [by exists 0%nat|].
  destruct IH as (i & Hi & Hl); [by inversion Hin; subst|].
  exists (S i). by rewrite Hi.
Qed.

Lemma py_round_near (x : Q) (z : Z) :
  (Qabs (x - inject_Z z) < 1 # 2)%Q → CubeNormalizer.py_round x = z.
Proof.
  intros Habs.
  assert (- (1 # 2) < x - inject_Z z ∧ x - inject_Z z < 1 # 2)%Q as [Hlo Hhi].
  { split.
    - apply Qnot_le_lt. intros Hc.
      assert (Qabs (x - inject_Z z) == - (x - inject_Z z))%Q as He
        by (apply Qabs_neg; lra).
      rewrite He in Habs. lra.
    - eapply Qle_lt_trans; [apply Qle_Qabs|done]. }
  assert (∀ a, inject_Z (a + 1) == inject_Z a + 1)%Q as Hplus
    by (intros a; by rewrite inject_Z_plus).
  assert (∀ a, inject_Z (a - 1) == inject_Z a - 1)%Q as Hminus
    by (intros a; unfold Z.sub; by rewrite inject_Z_plus, inject_Z_opp).
  unfold CubeNormalizer.py_round.
  pose proof (Qfloor_le x) as Hfl. pose proof (Qlt_floor x) as Hfu.
  rewrite Hplus in Hfu.
  destruct (Qlt_le_dec x (inject_Z z)) as [Hlt|Hge].
  - assert (Qfloor x = z - 1) as Hf.
    { assert (z - 1 ≤ Qfloor x).
      { rewrite <- (Qfloor_Z (z - 1)). apply Qfloor_resp_le.
        rewrite Hminus. lra. }
      assert (Qfloor x < z); [|lia].
      apply Z.lt_nge. intros Hc. rewrite Zle_Qle in Hc. lra. }
    rewrite Hf.
    assert ((x - inject_Z (z - 1) ?= 1 # 2)%Q = Gt) as ->.
    { rewrite <- Qgt_alt, Hminus. lra. }
    lia.
  - assert (Qfloor x = z) as Hf.
    { assert (z ≤ Qfloor x).
      { rewrite <- (Qfloor_Z z) at 1. by apply Qfloor_resp_le. }
      assert (Qfloor x < z + 1); [|lia].
      apply Z.lt_nge. intros Hc. rewrite Zle_Qle, Hplus in Hc. lra. }
    rewrite Hf.
    assert ((x - inject_Z z ?= 1 # 2)%Q = Lt) as ->; [|done].
    by rewrite <- Qlt_alt.
Qed.

(** Two roundings, of [i / d] and of the product with [d], leave the result
    within a half of [i] as long as [d] is at most [2 ^ 50]. *)
Lemma two_roundings_near (t q y D I : Q) :
  (t * D == I → 0 <= I → I <= D → 1 <= D → D <= inject_Z (2 ^ 50) →
   Qabs (q - t) <= unit_roundoff * Qabs t →
   Qabs (y - q * D) <= unit_roundoff * Qabs (q * D) →
   Qabs (y - I) < 1 # 2)%Q.
Proof.
  intros Ht HI HID HD HDC H1 H2.
  assert (0 <= t)%Q as Ht0 by nra.
  rewrite (Qabs_pos t Ht0) in H1.
  apply Qabs_Qle_condition in H1 as [H1 H1'].
  assert (inject_Z (2 ^ 50) == 1125899906842624)%Q as HC by reflexivity.
  rewrite HC in HDC.
  unfold unit_roundoff in *.
  change (2 ^ 53)%positive with 9007199254740992%positive in *.
  assert (0 <= q * D)%Q as Hp0 by nra.
  rewrite (Qabs_pos _ Hp0) in H2.
  apply Qabs_Qle_condition in H2 as [H2 H2'].
  assert (- ((1 # 9007199254740992) * I) <= q * D - I)%Q as Hp1
    by (rewrite <- Ht; nra).
  assert (q * D - I <= (1 # 9007199254740992) * I)%Q as Hp2
    by (rewrite <- Ht; nra).
  set (p := (q * D)%Q) in *.
  apply Qabs_Qlt_condition. split; lra.
Qed.

(** (C10) On a list of at least two choices (and at most [2 ^ 50]), under the
    standard model of float rounding, [recover] undoes [normalize] on every
    value of the list. *)
Theorem C10_recover_normalize {A} `{EqDecision A} (fl : Q → Q)
  (choices : list A) (v : A) :
  rounds_to_nearest fl →
  (2 ≤ length choices)%nat →
  Z.of_nat (length choices) ≤ 2 ^ 50 →
  v ∈ choices →
  ∃ q, CubeNormalizer.normalize fl choices v = Ok q ∧
       CubeNormalizer.recover fl choices q = Ok v.
Proof.
  intros Hfl Hlen Hbig Hin.
  destruct (index_Some choices v Hin) as (i & Hi & Hl).
  assert (i < length choices)%nat as Hlt by (by eapply lookup_lt_Some).
  unfold CubeNormalizer.normalize, CubeNormalizer.recover. rewrite Hi.
  set (d := Z.of_nat (length choices) - 1).
  assert (1 ≤ d ∧ Z.of_nat i ≤ d ∧ d ≤ 2 ^ 50) as (Hd1 & Hid & Hdb)
    by (unfold d; lia).
  rewrite (proj2 (Z.eqb_neq d 0)) by lia.
  eexists. split; [done|].
  rewrite (py_round_near _ (Z.of_nat i)).
  - rewrite Z.min_r, Z.max_r, Nat2Z.id by lia. by rewrite Hl.
  - apply (two_roundings_near (inject_Z (Z.of_nat i) / inject_Z d)%Q
             (fl (inject_Z (Z.of_nat i) / inject_Z d)%Q) _ (inject_Z d)).
    + assert (¬ inject_Z d == 0)%Q as Hnz.
      { change 0%Q with (inject_Z 0). rewrite inject_Z_injective. lia. }
      by field.
    + change 0%Q with (inject_Z 0). rewrite <- Zle_Qle. lia.
    + by rewrite <- Zle_Qle.
    + change 1%Q with (inject_Z 1). by rewrite <- Zle_Qle.
    + by rewrite <- Zle_Qle.
    + apply Hfl.
    + apply Hfl.
Qed.

Lemma exact_rounds_to_nearest : rounds_to_nearest (λ x, x).
Proof.
  intros x. unfold unit_roundoff.
  assert (x - x == 0)%Q as -> by ring.
  simpl. apply Qmult_le_0_compat; [done|apply Qabs_nonneg].
Qed.

Lemma C10_recover_normalize_witness :
  ∃ q, CubeNormalizer.normalize (λ x, x) [10; 20; 30] 20 = Ok q ∧
       CubeNormalizer.recover (λ x, x) [10; 20; 30] q = Ok 20.
Proof.
  apply (C10_recover_normalize (λ x, x) [10; 20; 30] 20);
    [apply exact_rounds_to_nearest | simpl; lia | simpl; lia
    | apply list_elem_of_In; simpl; auto].
Defined.

(** ** Rules for [hoare] *)

Lemma bind_unfold {A B} (m : M A) (f : A → M B) w :
  (m ≫= f) w = match m w with
               | (Ok x, w') => f x w'
               | (Raise e, w') => (Raise e, w')
               | (Hang, w') => (Hang, w')
               | (OutOfFuel, w') => (OutOfFuel, w')
               end.
Proof. done. Qed.

Lemma modify_unfold f w : modify f w = (Ok (), f w).
Proof. done. Qed.

Lemma ret_unfold {A} (a : A) w : (mret a : M A) w = (Ok a, w).
Proof. done. Qed.

Lemma hoare_ret {A} (P : world → Prop) (a : A) (Q : A → world → Prop) E :
  (∀ w, P w → Q a w) → hoare P (mret a) Q E.
Proof. intros H w Hw. by apply H. Qed.

Lemma hoare_bind {A B} (P : world → Prop) (m : M A) (f : A → M B)
  (R : A → world → Prop) (Q : B → world → Prop) E :
  hoare P m R E → (∀ a, hoare (R a) (f a) Q E) → hoare P (m ≫= f) Q E.
Proof.
  intros Hm Hf w Hw. rewrite bind_unfold. specialize (Hm w Hw).
  destruct (m w) as [[a| | |] w']; try done. by apply Hf.
Qed.

Lemma hoare_conseq {A} (P P' : world → Prop) (m : M A)
  (Q Q' : A → world → Prop) (E E' : world → Prop) :
  hoare P' m Q' E' →
  (∀ w, P w → P' w) → (∀ a w, Q' a w → Q a w) → (∀ w, E' w → E w) →
  hoare P m Q E.
Proof.
  intros Hm HP HQ HE w Hw. specialize (Hm w (HP w Hw)).
  destruct (m w) as [[a| | |] w']; auto.
Qed.

Lemma hoare_and {A} (P1 P2 : world → Prop) (m : M A)
  (Q1 Q2 : A → world → Prop) (E1 E2 : world → Prop) :
  hoare P1 m Q1 E1 → hoare P2 m Q2 E2 →
  hoare (λ w, P1 w ∧ P2 w) m (λ a w, Q1 a w ∧ Q2 a w) (λ w, E1 w ∧ E2 w).
Proof.
  intros H1 H2 w [Hw1 Hw2]. specialize (H1 w Hw1). specialize (H2 w Hw2).
  destruct (m w) as [[a| | |] w']; auto.
Qed.

Lemma hoare_lift {A} (P : world → Prop) (o : outcome A)
  (Q : A → world → Prop) (E : world → Prop) :
  (∀ w, P w → match o with Ok a => Q a w | _ => E w end) →
  hoare P (lift o) Q E.
Proof. intros H w Hw. specialize (H w Hw). unfold lift. by destruct o. Qed.

Lemma hoare_raise {A} (P : world → Prop) e (Q : A → world → Prop)
  (E : world → Prop) :
  (∀ w, P w → E w) → hoare P (raise e) Q E.
Proof. intros H w Hw. by apply H. Qed.

Lemma hoare_modify (P : world → Prop) (f : world → world)
  (Q : unit → world → Prop) E :
  (∀ w, P w → Q () (f w)) → hoare P (modify f) Q E.
Proof. intros H w Hw. by apply H. Qed.

Lemma hoare_read {A} (P : world → Prop) (f : world → A)
  (Q : A → world → Prop) E :
  (∀ w, P w → Q (f w) w) → hoare P (read f) Q E.
Proof. intros H w Hw. by apply H. Qed.

Lemma hoare_try_except {A} (P : world → Prop) (body : M A) handler
  (Q : A → world → Prop) (I E : world → Prop) :
  hoare P body Q I →
  (∀ e h, handler e = Some h → hoare I h Q E) →
  (∀ w, I w → E w) →
  hoare P (try_except body handler) Q E.
Proof.
  intros Hb Hh HI w Hw. unfold try_except. specialize (Hb w Hw).
  destruct (body w) as [[a|e| |] w']; auto.
  destruct (handler e) as [h|] eqn:He; [|auto].
  by apply (Hh e h He).
Qed.

Lemma hoare_try_finally {A} (P : world → Prop) (body : M A) final
  (R : A → world → Prop) (Q : A → world → Prop) (I E : world → Prop) :
  hoare P body R I →
  (∀ a, hoare (R a) final (λ _, Q a) E) →
  hoare I final (λ _, E) E →
  (∀ w, I w → E w) →
  hoare P (try_finally body final) Q E.
Proof.
  intros Hb Hf1 Hf2 HI w Hw. unfold try_finally. specialize (Hb w Hw).
  destruct (body w) as [[a|e| |] w']; auto.
  - rewrite bind_unfold. specialize (Hf1 a w' Hb).
    by destruct (final w') as [[[]| | |] w''].
  - rewrite bind_unfold. specialize (Hf2 w' Hb).
    by destruct (final w') as [[[]| | |] w''].
Qed.

Lemma hoare_for_each {X} (I : world → Prop) (l : list X) (body : X → M unit)
  (E : world → Prop) :
  (∀ x, x ∈ l → hoare I (body x) (λ _, I) E) →
  hoare I (for_each l body) (λ _, I) E.
Proof.
  induction l as [|x l IH]; intros Hb; simpl.
  - by apply hoare_ret.
  - eapply hoare_bind; [apply Hb; by left|].
    intros []. apply IH. intros y Hy. apply Hb. by right.
Qed.

Lemma hoare_map_M {X Y} (I : world → Prop) (R : X → Y → Prop) (l : list X)
  (f : X → M Y) (E : world → Prop) :
  (∀ x, x ∈ l → hoare I (f x) (λ y w, I w ∧ R x y) E) →
  hoare I (map_M f l) (λ ys w, I w ∧ Forall2 R l ys) E.
Proof.
  induction l as [|x l IH]; intros Hb; simpl.
  - apply hoare_ret. auto.
  - eapply hoare_bind; [apply Hb; by left|].
    intros y. simpl.
    intros w [Hw Hy]. rewrite bind_unfold.
    assert (hoare I (map_M f l) (λ ys w, I w ∧ Forall2 R l ys) E) as Hl
      by (apply IH; intros z Hz; apply Hb; by right).
    specialize (Hl w Hw).
    destruct (map_M f l w) as [[ys| | |] w']; try done.
    destruct Hl as [? ?]. simpl. split; [done|]. by constructor.
Qed.

(** ** Setup of the resource kinds *)

(** (C5, as the code has it) With [use_cuda = true] and an empty
    [available_cuda_list], setup raises nothing: it registers the RAM kind
    only, and no GPU manager. *)
Theorem C5_setup_registers_ram_only self w :
  _use_cuda self = true →
  gpu_config_of (_resource_config self) = Some (GpuConfig (Some (Some []))) →
  setup_resources self w = (Ok (), set_registered ["RAM"] w).
Proof.
  intros Hu Hg. unfold setup_resources. by rewrite Hg.
Qed.

Lemma C5_setup_registers_ram_only_witness :
  setup_resources (cuda_without_devices 4) (new_world None)
  = (Ok (), set_registered ["RAM"] (new_world None)).
Proof.
  apply (C5_setup_registers_ram_only (cuda_without_devices 4) (new_world None));
    reflexivity.
Defined.

(** The claim of the specification fails: with that configuration the batch
    runs to its end, no [ResourceUnavailable] is raised, and the task's
    result is stored. *)
Lemma C5_counterexample_batch_proceeds :
  let r := __call__ (cuda_without_devices 1) identity [[VInt 7]]
             lazy_sched admit_all 2 (new_world None) in
  (¬ ∃ msg, r.1 = Raise (PyExc "ResourceUnavailable" msg)) ∧
  r.1 = Ok () ∧
  registered r.2 = ["RAM"] ∧
  rs r.2 !! "task_0" = Some (VInt 7).
Proof.
  vm_compute. split; [|done]. by intros [msg ?].
Qed.

(** ** The user's interrupt *)

(** (C7) An interrupt that reaches the parent inside [_add_new_processes]
    (here at the sixth scheduling point of a batch of two tasks on one job,
    when the parent asks the resource manager for the second process) is
    caught by [__call__]: the [base] exception is recorded, the children are
    joined and the manager is shut down, but the termination flag stays
    false. *)
Theorem C7_interrupt_during_refill_leaves_flag :
  let r := __call__ (default_parallel 1) identity [[VInt 1; VInt 2]]
             lazy_sched admit_all 20 (new_world (Some 5%nat)) in
  r.1 = Ok () ∧
  (∃ excs, rs r.2 !! EXCEPTIONS = Some (VDict excs) ∧
           excs !! "base" = Some (VErr (_ParallelError "Keyboard Interrupted"))) ∧
  live_count r.2 = 0%nat ∧
  manager_up r.2 = false ∧
  terminated (rs r.2) = Ok false.
Proof.
  vm_compute. split; [done|]. split; [|done]. eexists. split; reflexivity.
Qed.

(** The sibling path: the same batch interrupted inside [__wait] ends with the
    flag set. *)
Lemma interrupt_during_wait_sets_flag :
  let r := __call__ (default_parallel 1) identity [[VInt 1; VInt 2]]
             lazy_sched admit_all 20 (new_world (Some 1%nat)) in
  r.1 = Ok () ∧
  (∃ excs, rs r.2 !! EXCEPTIONS = Some (VDict excs) ∧
           excs !! "base" = Some (VErr (_ParallelError "Keyboard Interrupted"))) ∧
  live_count r.2 = 0%nat ∧
  manager_up r.2 = false ∧
  terminated (rs r.2) = Ok true.
Proof.
  vm_compute. split; [done|]. split; [|done]. eexists. split; reflexivity.
Qed.

(** ** Children that exit *)

Section Children.
Context (self : Parallel) (func : pyfunc) (sched : nat → list nat).

Lemma is_alive_run_child w q pid :
  is_alive (run_child self func w q) pid
  = if decide (pid = q) then false else is_alive w pid.
Proof.
  unfold run_child, is_alive.
  destruct (w_procs w !! q) as [p|] eqn:Hq.
  - destruct (p_status p) eqn:Hs; simpl.
    + case_decide; [subst; by rewrite Hq, Hs|done].
    + case_decide.
      * subst. rewrite list_lookup_insert_eq; [done|by eapply lookup_lt_Some].
      * by rewrite list_lookup_insert_ne.
    + case_decide; [subst; by rewrite Hq, Hs|done].
  - case_decide; [subst; by rewrite Hq|done].
Qed.

Lemma run_child_keeps_dead w q pid :
  is_alive w pid = false → is_alive (run_child self func w q) pid = false.
Proof. intros H. rewrite is_alive_run_child. by case_decide. Qed.

Lemma run_children_keeps_dead pids : ∀ w pid,
  is_alive w pid = false → is_alive (run_children self func pids w) pid = false.
Proof.
  induction pids as [|q pids IH]; intros w pid H; [done|].
  simpl. apply IH. by apply run_child_keeps_dead.
Qed.

Lemma yield_keeps_dead w pid :
  is_alive w pid = false →
  is_alive (yield self func sched w).2 pid = false.
Proof.
  intros H. unfold yield.
  pose proof (run_children_keeps_dead (sched (clock w)) w pid H) as H'.
  destruct (sigint _) as [[|n]|]; simpl; exact H'.
Qed.

Lemma join_keeps_dead w q pid :
  is_alive w pid = false →
  is_alive (join self func sched q w).2 pid = false.
Proof.
  intros H. unfold join.
  destruct (w_procs w !! q) as [p|]; [|done].
  destruct (p_status p); [done| |].
  all: rewrite bind_unfold;
    pose proof (yield_keeps_dead w pid H) as H';
    destruct (yield self func sched w) as [[[]| | |] w']; try done;
    simpl in *; by apply run_child_keeps_dead.
Qed.

Lemma join_joins w q w' :
  join self func sched q w = (Ok (), w') → is_alive w' q = false.
Proof.
  unfold join.
  destruct (w_procs w !! q) as [p|] eqn:Hq.
  - destruct (p_status p) eqn:Hs; [done| |].
    all: rewrite bind_unfold;
      destruct (yield self func sched w) as [[[]| | |] w1]; try done;
      simpl; intros [= <-]; rewrite is_alive_run_child; by case_decide.
  - intros [= <-]. unfold is_alive. by rewrite Hq.
Qed.

Lemma join_all_keeps_dead ps : ∀ w pid,
  is_alive w pid = false →
  is_alive (join_all self func sched ps w).2 pid = false.
Proof.
  induction ps as [|[q|] ps IH]; intros w pid H; [done| |].
  - unfold join_all. simpl. rewrite bind_unfold.
    pose proof (join_keeps_dead w q pid H) as H'.
    destruct (join self func sched q w) as [[[]| | |] w']; try done.
    by apply IH.
  - unfold join_all. simpl. rewrite bind_unfold. simpl. by apply IH.
Qed.

Lemma join_all_joins ps : ∀ w w' pid,
  join_all self func sched ps w = (Ok (), w') →
  Some pid ∈ ps → is_alive w' pid = false.
Proof.
  induction ps as [|[q|] ps IH]; intros w w' pid Hj Hin; [by inversion Hin| |].
  - unfold join_all in Hj. simpl in Hj. rewrite bind_unfold in Hj.
    destruct (join self func sched q w) as [[[]| | |] w1] eqn:Hq; try done.
    apply elem_of_cons in Hin as [[= ->]|Hin].
    + apply join_joins in Hq.
      pose proof (join_all_keeps_dead ps w1 q Hq) as H'.
      unfold join_all in H'. by rewrite Hj in H'.
    + by apply (IH w1).
  - apply elem_of_cons in Hin as [[=]|Hin].
    unfold join_all in Hj. simpl in Hj. rewrite bind_unfold in Hj.
    by apply (IH w).
Qed.

End Children.

Lemma truthy_VDict_false (d : gmap string pyval) :
  truthy (VDict d) = false ↔ d = ∅.
Proof.
  simpl. destruct (map_to_list d) as [|x l] eqn:Hl.
  - split; [intros _|done]. by apply map_to_list_empty_iff.
  - split; [done|]. intros ->. by rewrite map_to_list_empty in Hl.
Qed.

(** (C8) [_user_terminate] first joins every child of the working set; once
    they are joined, it raises "terminated by user action" exactly when the
    [__exceptions__] record of the store is then empty, and "terminated by
    unexpected errors" exactly when it is not. *)
Theorem C8_user_terminate_message self func sched ps w w1 excs :
  _working_processes w = Some ps →
  join_all self func sched ps w = (Ok (), w1) →
  rs w1 !! EXCEPTIONS = Some (VDict excs) →
  (∀ pid, Some pid ∈ ps → is_alive w1 pid = false) ∧
  ∃ msg, _user_terminate (A:=unit) self func sched w
         = (Raise (_ParallelError msg), w1) ∧
         (msg = "Parallel terminated by user action" ↔ excs = ∅) ∧
         (msg = "Parallel terminated by unexpected errors" ↔ excs ≠ ∅).
Proof.
  intros Hps Hj He. split.
  - intros pid Hin. by apply (join_all_joins self func sched ps w).
  - unfold _user_terminate. rewrite bind_unfold, Hps.
    rewrite bind_unfold, Hj. rewrite bind_unfold.
    unfold exceptions, rs_get. rewrite He.
    destruct (truthy (VDict excs)) eqn:Ht; simpl.
    + exists "Parallel terminated by unexpected errors".
      split; [done|]. split.
      * split; [done|]. intros He0. apply truthy_VDict_false in He0.
        congruence.
      * split; [|done]. intros _ He0. apply truthy_VDict_false in He0.
        congruence.
    + apply truthy_VDict_false in Ht.
      exists "Parallel terminated by user action". split; [done|]. split.
      * done.
      * split; [done|]. intros Hne. by destruct Hne.
Qed.

Lemma C8_user_terminate_message_witness :
  let w1 := (join_all (default_parallel 1) identity lazy_sched [Some 0%nat]
               one_live_child).2 in
  (∀ pid, Some pid ∈ [Some 0%nat] → is_alive w1 pid = false) ∧
  ∃ msg, _user_terminate (A:=unit) (default_parallel 1) identity lazy_sched
           one_live_child
         = (Raise (_ParallelError msg), w1) ∧
         (msg = "Parallel terminated by user action" ↔ (∅ : gmap string pyval) = ∅) ∧
         (msg = "Parallel terminated by unexpected errors" ↔ (∅ : gmap string pyval) ≠ ∅).
Proof.
  intros w1.
  apply (C8_user_terminate_message (default_parallel 1) identity lazy_sched
           [Some 0%nat] one_live_child w1 ∅);
    [reflexivity | vm_compute; reflexivity | vm_compute; reflexivity].
Defined.

(** ** Popping the finished slots *)

Lemma pop_slots_nil {X} (l : list X) : pop_slots [] l = l.
Proof. done. Qed.

Lemma pop_slots_cons {X} i fs (l : list X) :
  pop_slots (i :: fs) l = delete i (pop_slots fs l).
Proof. unfold pop_slots. by rewrite reverse_cons, foldl_app. Qed.

Lemma pop_slots_fmap_S {X} fs (x : X) l :
  pop_slots (S <$> fs) (x :: l) = x :: pop_slots fs l.
Proof.
  induction fs as [|i fs IH]; [done|].
  rewrite fmap_cons, !pop_slots_cons, IH. done.
Qed.

Lemma indices_of_S i mask : indices_of (S i) mask = S <$> indices_of i mask.
Proof.
  revert i. induction mask as [|b mask IH]; intros i; [done|].
  simpl. rewrite (IH (S i)). by destruct b.
Qed.

Lemma pop_slots_on_nil {X} fs : pop_slots fs ([] : list X) = [].
Proof.
  induction fs as [|i fs IH]; [done|]. by rewrite pop_slots_cons, IH.
Qed.

Lemma pop_slots_indices {X} mask : ∀ l : list X,
  pop_slots (indices_of 0 mask) l = keep_unmasked mask l.
Proof.
  induction mask as [|b mask IH]; intros l; [done|].
  destruct l as [|x l].
  { rewrite pop_slots_on_nil. by destruct b. }
  simpl. rewrite indices_of_S.
  destruct b.
  - by rewrite pop_slots_cons, pop_slots_fmap_S, <- IH.
  - by rewrite pop_slots_fmap_S, IH.
Qed.

Lemma keep_unmasked_length {X} mask : ∀ l : list X,
  (length (keep_unmasked mask l) ≤ length l)%nat.
Proof.
  induction mask as [|b mask IH]; intros [|x l]; simpl; try lia.
  specialize (IH l). destruct b; simpl; lia.
Qed.

Lemma keep_unmasked_Forall2 {X Y} (R : X → Y → Prop) mask :
  ∀ l k, Forall2 R l k → Forall2 R (keep_unmasked mask l) (keep_unmasked mask k).
Proof.
  induction mask as [|b mask IH]; intros l k H; [by destruct l, k|].
  destruct H as [|x y l k Hxy H]; [done|]. simpl.
  destruct b; [by apply IH|]. constructor; [done|by apply IH].
Qed.

Lemma keep_unmasked_elem_of {X} (P : X → bool) l x :
  x ∈ l → P x = false → x ∈ keep_unmasked (P <$> l) l.
Proof.
  induction l as [|y l IH]; intros Hin Hx; [by inversion Hin|].
  simpl. apply elem_of_cons in Hin as [->|Hin].
  - rewrite Hx. by left.
  - destruct (P y); [by apply IH|]. right. by apply IH.
Qed.

Lemma keep_unmasked_unmasked {X} (P : X → bool) l :
  Forall (λ x, P x = false) (keep_unmasked (P <$> l) l).
Proof.
  induction l as [|y l IH]; simpl; [done|].
  destruct (P y) eqn:Hy; [done|]. by constructor.
Qed.

Lemma keep_unmasked_subseteq {X} mask : ∀ (l : list X) x,
  x ∈ keep_unmasked mask l → x ∈ l.
Proof.
  induction mask as [|b mask IH]; intros [|y l] x; simpl; try done.
  destruct b.
  - intros H. right. by apply IH.
  - intros [->|H]%elem_of_cons; [by left|right; by apply IH].
Qed.

Lemma keep_unmasked_somes mask : ∀ l : list (option nat),
  (length (somes (keep_unmasked mask l)) ≤ length (somes l))%nat.
Proof.
  induction mask as [|b mask IH]; intros [|y l]; simpl; try lia.
  specialize (IH l). unfold somes in *.
  destruct b, y; cbn in *; lia.
Qed.

Lemma keep_unmasked_none {X} (l : list X) mask :
  Forall (λ b, b = false) mask → keep_unmasked mask l = l.
Proof.
  intros H. revert l. induction H as [|b mask -> H IH]; intros [|x l]; simpl;
    try done. by rewrite IH.
Qed.

Lemma indices_of_nil i mask :
  indices_of i mask = [] → Forall (λ b, b = false) mask.
Proof.
  revert i. induction mask as [|b mask IH]; intros i; [done|].
  simpl. destruct b; [done|]. intros H. constructor; [done|by eapply IH].
Qed.

Lemma popped_nil w : popped [] w = w.
Proof.
  destruct w as [? ? ids ps ? ? ? ? ? ? ? ?]. unfold popped. simpl.
  by destruct ids, ps.
Qed.

Lemma poll_slots_indices self w slots : ∀ i fs,
  poll_slots self w i slots = Ok fs →
  fs = indices_of i ((λ s, slot_finished w s.2) <$> slots).
Proof.
  induction slots as [|[tid p] slots IH]; intros i fs H; simpl in *.
  - by injection H.
  - destruct p as [pid|].
    + destruct (_get_task_name self tid); try done.
      destruct (poll_slots self w (S i) slots) as [fs'| | |] eqn:Hp; try done.
      injection H as <-. rewrite (IH (S i) fs' Hp).
      unfold slot_finished. by destruct (is_alive w pid).
    + destruct (poll_slots self w (S i) slots) as [fs'| | |] eqn:Hp; try done.
      injection H as <-. by rewrite (IH (S i) fs' Hp).
Qed.

Lemma zip_snd_agree (ids ps : list (option nat)) :
  slots_agree ids ps → (zip ids ps).*2 = ps.
Proof. intros H. apply snd_zip. by rewrite (Forall2_length _ _ _ H). Qed.

(** What a poll pops, on a working set whose two lists agree. *)
Lemma polled_pops self w fs ids ps :
  polled self w fs →
  _working_task_ids w = Some ids → _working_processes w = Some ps →
  slots_agree ids ps →
  pop_slots fs ids = keep_unmasked (slot_finished w <$> ps) ids ∧
  pop_slots fs ps = keep_unmasked (slot_finished w <$> ps) ps.
Proof.
  intros (ids' & ps' & Hi & Hp & Hpoll) Hids Hps Hag.
  rewrite Hi in Hids. rewrite Hp in Hps.
  injection Hids as ->. injection Hps as ->.
  apply poll_slots_indices in Hpoll.
  assert (((λ s : option nat * option nat, slot_finished w s.2) <$> zip ids ps)
          = slot_finished w <$> ps) as Hm.
  { rewrite <- (zip_snd_agree ids ps Hag) at 2. by rewrite <- list_fmap_compose. }
  rewrite Hm in Hpoll. subst fs. by rewrite !pop_slots_indices.
Qed.

(** ** Steps that keep a stable invariant *)

Lemma calmer_refl w : calmer w w.
Proof. by constructor. Qed.

Lemma calmer_trans w1 w2 w3 : calmer w1 w2 → calmer w2 w3 → calmer w1 w3.
Proof.
  intros [] []. constructor; try congruence. auto.
Qed.

Section Steady.
Context (self : Parallel) (func : pyfunc) (sched : nat → list nat).
Context (I E : world → Prop) (Hsd : steady self func I E).

Lemma run_child_calmer w pid : calmer w (run_child self func w pid).
Proof.
  constructor; try (unfold run_child; destruct (w_procs w !! pid) as [p|];
                    [destruct (p_status p)|]; done).
  intros q. rewrite is_alive_run_child. by case_decide.
Qed.

Lemma run_children_calmer pids : ∀ w, calmer w (run_children self func pids w).
Proof.
  induction pids as [|pid pids IH]; intros w; [apply calmer_refl|].
  simpl. eapply calmer_trans; [apply run_child_calmer|apply IH].
Qed.

Lemma run_children_steady pids : ∀ w, I w → I (run_children self func pids w).
Proof.
  induction pids as [|pid pids IH]; intros w Hw; [done|].
  simpl. apply IH. by apply (sd_child _ _ _ _ Hsd).
Qed.

Lemma yield_calmer w : calmer w (yield self func sched w).2.
Proof.
  unfold yield.
  pose proof (run_children_calmer (sched (clock w)) w) as H.
  destruct (sigint _) as [[|n]|]; simpl; by destruct H.
Qed.

Lemma yield_steady : hoare I (yield self func sched) (λ _, I) I.
Proof.
  intros w Hw. unfold yield.
  pose proof (run_children_steady (sched (clock w)) w Hw) as H.
  apply (sd_clock _ _ _ _ Hsd _
           (S (clock (run_children self func (sched (clock w)) w)))) in H.
  destruct (sigint _) as [[|n]|] eqn:Hs; [| |done].
  - apply (sd_sigint _ _ _ _ Hsd); [done|by rewrite Hs].
  - apply (sd_sigint _ _ _ _ Hsd); [done|by rewrite Hs].
Qed.

Lemma time_sleep_steady b : hoare I (time_sleep self func sched b) (λ _, I) I.
Proof.
  unfold time_sleep. eapply hoare_bind; [apply yield_steady|].
  intros []. destruct b; [|by apply hoare_ret].
  apply hoare_modify. intros w Hw.
  destruct (_working_processes w) as [ps|]; [|done].
  destruct (existsb _ ps); [done|].
  destruct (first_live w ps); [|done]. by apply (sd_child _ _ _ _ Hsd).
Qed.

Lemma poll_steady :
  hoare I (poll self) (λ fs w, I w ∧ polled self w fs) I.
Proof.
  intros w Hw. unfold poll.
  destruct (_working_task_ids w) as [ids|] eqn:Hi; [|done].
  destruct (working_names self ids); try done.
  destruct (_working_processes w) as [ps|] eqn:Hp; [|done].
  destruct (poll_slots self w 0 (zip ids ps)) as [fs| | |] eqn:Hpoll; try done.
  split; [done|]. by exists ids, ps.
Qed.

Lemma wait_loop_steady rounds b :
  hoare I (wait_loop self func sched rounds b)
        (λ fs w, I w ∧ polled self w fs) I.
Proof.
  induction rounds as [|rounds IH]; simpl.
  - by apply hoare_lift.
  - eapply hoare_bind; [apply yield_steady|]. intros [].
    eapply hoare_bind; [apply poll_steady|]. intros fs. simpl.
    destruct (negb b || _).
    + by apply hoare_ret.
    + eapply hoare_bind.
      * eapply hoare_conseq; [apply time_sleep_steady|by intros ? [? ?]|done..].
      * intros []. apply IH.
Qed.

Lemma set_terminate_steady : hoare I set_terminate (λ _, E) E.
Proof.
  intros w Hw. unfold set_terminate.
  destruct (_set_terminate (rs w)) as [rs'| | |] eqn:Ht;
    try by apply (sd_exc _ _ _ _ Hsd).
  by apply (sd_terminate _ _ _ _ Hsd).
Qed.

Lemma __wait_steady b :
  hoare I (__wait self func sched b) (λ fs w, I w ∧ polled self w fs) E.
Proof.
  unfold __wait. eapply hoare_try_except; [apply wait_loop_steady| |].
  - intros e h He. destruct (is_KeyboardInterrupt e); [|done].
    injection He as <-.
    eapply hoare_bind; [apply set_terminate_steady|].
    intros []. by apply hoare_raise.
  - apply (sd_exc _ _ _ _ Hsd).
Qed.

Lemma join_steady pid : hoare I (join self func sched pid) (λ _, I) I.
Proof.
  intros w Hw. unfold join.
  destruct (w_procs w !! pid) as [p|]; [|done].
  destruct (p_status p); [done| |].
  all: rewrite bind_unfold; pose proof (yield_steady w Hw) as Hy;
    destruct (yield self func sched w) as [[[]| | |] w']; try done;
    simpl; by apply (sd_child _ _ _ _ Hsd).
Qed.

Lemma join_all_steady ps : hoare I (join_all self func sched ps) (λ _, I) I.
Proof.
  unfold join_all. apply hoare_for_each. intros [pid|] _.
  - apply join_steady.
  - by apply hoare_ret.
Qed.

Lemma _user_terminate_steady {A} (Q : A → world → Prop) :
  hoare I (_user_terminate self func sched) Q E.
Proof.
  unfold _user_terminate.
  eapply (hoare_bind _ _ _ (λ _, I)).
  { intros w Hw. destruct (_working_processes w); [done|].
    by apply (sd_exc _ _ _ _ Hsd). }
  intros ps. eapply hoare_bind.
  { eapply hoare_conseq; [apply join_all_steady|done|done|].
    apply (sd_exc _ _ _ _ Hsd). }
  intros []. eapply (hoare_bind _ _ _ (λ _, I)).
  { intros w Hw. destruct (exceptions (rs w)); try done;
      by apply (sd_exc _ _ _ _ Hsd). }
  intros excs. destruct (negb (truthy excs));
    apply hoare_raise, (sd_exc _ _ _ _ Hsd).
Qed.

End Steady.

Lemma stable_steady self func I E : stable self func I E → steady self func I E.
Proof. intros []. by constructor. Qed.

Section Stable.
Context (self : Parallel) (func : pyfunc) (sched : nat → list nat).
Context (I E : world → Prop) (Hst : stable self func I E).

Lemma run_children_stable pids : ∀ w, I w → I (run_children self func pids w).
Proof. eapply run_children_steady; apply (stable_steady _ _ _ _ Hst). Qed.

Lemma yield_stable : hoare I (yield self func sched) (λ _, I) I.
Proof. eapply yield_steady; apply (stable_steady _ _ _ _ Hst). Qed.

Lemma time_sleep_stable b : hoare I (time_sleep self func sched b) (λ _, I) I.
Proof. eapply time_sleep_steady; apply (stable_steady _ _ _ _ Hst). Qed.

Lemma poll_stable :
  hoare I (poll self) (λ fs w, I w ∧ polled self w fs) I.
Proof. eapply poll_steady; apply (stable_steady _ _ _ _ Hst). Qed.

Lemma wait_loop_stable rounds b :
  hoare I (wait_loop self func sched rounds b)
        (λ fs w, I w ∧ polled self w fs) I.
Proof. eapply wait_loop_steady; apply (stable_steady _ _ _ _ Hst). Qed.

Lemma set_terminate_stable : hoare I set_terminate (λ _, E) E.
Proof. eapply set_terminate_steady; apply (stable_steady _ _ _ _ Hst). Qed.

Lemma __wait_stable b :
  hoare I (__wait self func sched b) (λ fs w, I w ∧ polled self w fs) E.
Proof. eapply __wait_steady; apply (stable_steady _ _ _ _ Hst). Qed.

Lemma join_stable pid : hoare I (join self func sched pid) (λ _, I) I.
Proof. eapply join_steady; apply (stable_steady _ _ _ _ Hst). Qed.

Lemma join_all_stable ps : hoare I (join_all self func sched ps) (λ _, I) I.
Proof. eapply join_all_steady; apply (stable_steady _ _ _ _ Hst). Qed.

Lemma _user_terminate_stable {A} (Q : A → world → Prop) :
  hoare I (_user_terminate self func sched) Q E.
Proof. eapply _user_terminate_steady; apply (stable_steady _ _ _ _ Hst). Qed.

(** After [_wait_and_handle_finish] the state is one in which a poll was
    made, then children exited, then the slots the poll found were popped. *)
Lemma _wait_and_handle_finish_stable b :
  hoare I (_wait_and_handle_finish self func sched b)
    (λ _ w3, I w3 ∧ ∃ w1 w2 fs, I w1 ∧ polled self w1 fs ∧
                                calmer w1 w2 ∧ w3 = popped fs w2) E.
Proof.
  unfold _wait_and_handle_finish.
  eapply hoare_bind; [apply __wait_stable|].
  intros fs. destruct fs as [|i fs].
  { apply hoare_ret. intros w [Hw Hp]. split; [done|].
    exists w, w, []. rewrite popped_nil. auto using calmer_refl. }
  intros w1 [Hw1 Hp]. rewrite bind_unfold.
  pose proof (yield_stable w1 Hw1) as Hy.
  pose proof (yield_calmer self func sched w1) as Hc.
  destruct (yield self func sched w1) as [[[]| | |] w2];
    try by apply (st_exc _ _ _ _ Hst).
  simpl in Hc. rewrite bind_unfold.
  destruct (terminated (rs w2)) as [[|]| | |];
    try by apply (st_exc _ _ _ _ Hst).
  - exact (_user_terminate_stable
             (λ _ w3, I w3 ∧ ∃ w1 w2 fs0, I w1 ∧ polled self w1 fs0 ∧
                                          calmer w1 w2 ∧ w3 = popped fs0 w2)
             w2 Hy).
  - simpl. split.
    + by apply (st_pop _ _ _ _ Hst w1).
    + by exists w1, w2, (i :: fs).
Qed.

Lemma __sleep_stable c b : hoare I (__sleep self func sched c b) (λ _, I) E.
Proof.
  unfold __sleep. eapply hoare_bind.
  { eapply hoare_conseq; [apply time_sleep_stable|done|done|].
    apply (st_exc _ _ _ _ Hst). }
  intros []. unfold _refresh. destruct (negb c); [by apply hoare_ret|].
  destruct (negb b); [|by apply hoare_ret].
  eapply hoare_conseq; [apply _wait_and_handle_finish_stable|done| |done].
  by intros _ w [? _].
Qed.

End Stable.

(** ** The bound on the live children *)

Lemma elem_of_live_pids w pid : pid ∈ live_pids w ↔ is_alive w pid = true.
Proof.
  unfold live_pids. rewrite list_elem_of_filter, elem_of_seq.
  split.
  - intros [H _]. by apply Is_true_true.
  - intros H. split; [by apply Is_true_true|].
    unfold is_alive in H. destruct (w_procs w !! pid) eqn:Hp; [|done].
    apply lookup_lt_Some in Hp. lia.
Qed.

Lemma live_count_le w (l : list nat) :
  (∀ pid, is_alive w pid = true → pid ∈ l) →
  (live_count w ≤ length l)%nat.
Proof.
  intros H. unfold live_count. apply submseteq_length, NoDup_submseteq.
  - unfold live_pids. apply NoDup_filter, NoDup_seq.
  - intros pid Hp. by apply H, elem_of_live_pids.
Qed.

Lemma somes_length l : (length (somes l) ≤ length l)%nat.
Proof.
  induction l as [|[x|] l IH]; unfold somes in *; cbn in *; lia.
Qed.

Lemma elem_of_somes l pid : pid ∈ somes l ↔ Some pid ∈ l.
Proof.
  unfold somes. rewrite list_elem_of_omap. split.
  - intros (x & Hx & Heq). simpl in Heq. by subst.
  - intros H. by exists (Some pid).
Qed.

Lemma slots_agree_somes ids ps :
  slots_agree ids ps → (length (somes ps) ≤ length (somes ids))%nat.
Proof.
  induction 1 as [|id p ids ps Hp H IH]; [done|].
  unfold somes in *. destruct p as [pid|]; cbn.
  - destruct (Hp (mk_is_Some _ _ eq_refl)) as [i ->]. cbn. lia.
  - destruct id; cbn; lia.
Qed.

Section Bound.
Context (self : Parallel) (func : pyfunc) (n_tasks : nat).

Lemma supervised_calmer extra w w' :
  calmer w w' → supervised self n_tasks extra w →
  supervised self n_tasks extra w'.
Proof.
  intros [Hi Hp Ha Hc Hh Hl] [H1 H2 H3 H4 H5 H6 H7].
  constructor; unfold pending in *; rewrite ?Hi, ?Hp, ?Ha, ?Hc, ?Hh; auto.
Qed.

(** In a supervised state with a working set, the live children are within
    the bound. *)
Lemma supervised_live_bound extra w ps :
  supervised self n_tasks extra w →
  _working_processes w = Some ps →
  Z.of_nat (live_count w) ≤ Z.min (_n_jobs self) (Z.of_nat n_tasks).
Proof.
  intros [H1 H2 H3 H4 H5 H6 H7] Hps.
  destruct H3 as [ids Hids]; [by rewrite Hps|].
  assert (live_count w ≤ length (extra ++ somes ps))%nat as Hle.
  { apply live_count_le. intros pid Hpid. apply elem_of_app.
    destruct (H2 pid Hpid) as [?|(ps' & Hps' & Hin)]; [by left|right].
    rewrite Hps in Hps'. injection Hps' as <-. by apply elem_of_somes. }
  rewrite length_app in Hle.
  pose proof (somes_length ps). pose proof (H5 ps Hps).
  pose proof (slots_agree_somes ids ps (H4 ids ps Hids Hps)).
  pose proof (H6 ids Hids). lia.
Qed.

Lemma supervised_popped w1 w2 fs :
  supervised self n_tasks [] w1 → supervised self n_tasks [] w2 →
  calmer w1 w2 → polled self w1 fs →
  supervised self n_tasks [] (popped fs w2) ∧ all_ids_some (popped fs w2).
Proof.
  intros Hs1 [H1 H2 H3 H4 H5 H6 H7] [Hi Hp Ha Hc Hh Hl] Hpoll.
  pose proof Hpoll as (ids & ps & Hids & Hps & _).
  destruct (polled_pops self w1 fs ids ps Hpoll Hids Hps) as [Epi Epp];
    [by apply (sup_slots _ _ _ _ Hs1)|].
  rewrite Hids in Hi. rewrite Hps in Hp.
  assert (slots_agree ids ps) as Hag by (by apply H4).
  split.
  - constructor; unfold pending, popped; simpl; rewrite ?Hi, ?Hp; simpl;
      rewrite ?Epi, ?Epp.
    + done.
    + intros pid Hpid. right. eexists. split; [done|].
      apply keep_unmasked_elem_of.
      * destruct (H2 pid Hpid) as [Hin|(ps' & Hps' & Hin)]; [by inversion Hin|].
        rewrite Hp in Hps'. by injection Hps' as <-.
      * simpl. by rewrite (Hl pid Hpid).
    + by intros _.
    + intros ? ? [= <-] [= <-]. by apply keep_unmasked_Forall2.
    + intros ? [= <-]. specialize (H5 ps Hp).
      pose proof (keep_unmasked_length (slot_finished w1 <$> ps) ps). lia.
    + intros ? [= <-]. specialize (H6 ids Hi). unfold pending in H6.
      pose proof (keep_unmasked_somes (slot_finished w1 <$> ps) ids). lia.
    + simpl. lia.
  - intros ids'. unfold popped. simpl. rewrite Hi. simpl. intros [= <-].
    rewrite Epi.
    eapply Forall2_Forall_l.
    + apply (keep_unmasked_Forall2 _ (slot_finished w1 <$> ps) ids ps Hag).
    + eapply Forall_impl; [apply keep_unmasked_unmasked|].
      intros [pid|] Hf id Hid; [by apply Hid|done].
Qed.

Lemma supervised_stable :
  stable self func (supervised self n_tasks []) (supervised self n_tasks []).
Proof.
  constructor.
  - intros w pid. apply supervised_calmer, run_child_calmer.
  - intros w n. by apply supervised_calmer.
  - intros w s ? _. by apply (supervised_calmer [] w).
  - intros w n. by apply supervised_calmer.
  - intros w1 w2 fs H1 H2 Hc Hp.
    by destruct (supervised_popped w1 w2 fs H1 H2 Hc Hp).
  - done.
  - intros w rs' H _. revert H. by apply supervised_calmer.
Qed.

End Bound.

Lemma hoare_for_each_count {X} (I : nat → world → Prop) (l : list X)
  (body : X → M unit) (E : world → Prop) :
  (∀ x k, hoare (I (S k)) (body x) (λ _, I k) E) →
  hoare (I (length l)) (for_each l body) (λ _, I 0%nat) E.
Proof.
  intros Hb. induction l as [|x l IH]; simpl.
  - by apply hoare_ret.
  - eapply hoare_bind; [apply Hb|]. by intros [].
Qed.

Lemma is_alive_create w P q :
  p_status P = Created →
  is_alive (set_procs (w_procs w ++ [P]) w) q = is_alive w q.
Proof.
  intros HP. unfold is_alive. simpl.
  destruct (decide (q < length (w_procs w))%nat) as [Hlt|Hge].
  - by rewrite lookup_app_l.
  - rewrite (lookup_ge_None_2 (w_procs w) q) by lia.
    destruct (decide (q = length (w_procs w))) as [->|Hne].
    + by rewrite list_lookup_middle, HP.
    + rewrite lookup_ge_None_2; [done|]. rewrite length_app. simpl. lia.
Qed.

Lemma is_alive_start w pid P q :
  w_procs w !! pid = Some P →
  is_alive (set_procs (<[pid := set_status Alive P]> (w_procs w)) w) q
  = if decide (q = pid) then true else is_alive w q.
Proof.
  intros HP. unfold is_alive. simpl. case_decide.
  - subst. rewrite list_lookup_insert_eq; [done|by eapply lookup_lt_Some].
  - by rewrite list_lookup_insert_ne.
Qed.

Section Refill.
Context (self : Parallel) (func : pyfunc) (args_list : list (list pyval)).
Context (sched : nat → list nat) (manager : nat → admission).
Context (n_tasks : nat).

Lemma refilling_stable k :
  stable self func (refilling self n_tasks k) (supervised self n_tasks []).
Proof.
  assert (∀ w w', calmer w w' → refilling self n_tasks k w →
                  refilling self n_tasks k w') as Hcal.
  { intros w w' Hc (Hs & Ha & Hr1 & Hr2 & Hr3).
    split; [by eapply supervised_calmer|].
    destruct Hc as [Hi Hp Hall Hcu Hh Hl].
    unfold all_ids_some, room, pending. rewrite Hi, Hp, Hall, Hcu. auto. }
  constructor.
  - intros w pid. apply Hcal, run_child_calmer.
  - intros w n. by apply Hcal.
  - intros w s ? _. by apply (Hcal w).
  - intros w n. by apply Hcal.
  - intros w1 w2 fs (H1 & _) (H2 & Ha2 & [ps Hps] & Hr2 & Hr3) Hc Hp.
    destruct (supervised_popped self n_tasks w1 w2 fs H1 H2 Hc Hp) as [Hs Ha].
    split; [done|]. split; [done|].
    unfold room, popped, pending. simpl. rewrite Hps. simpl.
    split; [done|]. split; [|done].
    intros ? [= <-]. specialize (Hr2 ps Hps).
    pose proof Hp as (ids & ps1 & Hids & Hps1 & _).
    destruct (polled_pops self w1 fs ids ps1 Hp Hids Hps1) as [_ Epp];
      [by apply (sup_slots _ _ _ _ H1)|].
    destruct Hc as [_ Hcp _ _ _ _]. rewrite Hps1, Hps in Hcp.
    injection Hcp as ->. rewrite Epp.
    pose proof (keep_unmasked_length (slot_finished w1 <$> ps1) ps1). lia.
  - by intros w (? & _).
  - intros w rs' (H & _) _. revert H. by apply supervised_calmer.
Qed.

Lemma initializing_stable queue :
  stable self func (initializing self n_tasks queue)
         (supervised self n_tasks []).
Proof.
  assert (∀ w w', calmer w w' → initializing self n_tasks queue w →
                  initializing self n_tasks queue w') as Hcal.
  { intros w w' Hc (Hs & Hp & Hi & Hd & Ha & Hcu).
    split; [by eapply supervised_calmer|].
    destruct Hc as [Hi' Hp' Hall Hcu' Hh Hl].
    rewrite Hi', Hp', Hall, Hcu'. repeat split; try done.
    intros pid. destruct (is_alive w' pid) eqn:Hal; [|done].
    by rewrite <- (Hd pid), (Hl pid Hal). }
  constructor.
  - intros w pid. apply Hcal, run_child_calmer.
  - intros w n. by apply Hcal.
  - intros w s ? _. by apply (Hcal w).
  - intros w n. by apply Hcal.
  - intros w1 w2 fs (_ & Hp1 & _) _ _ (ids & ps & _ & Hps & _). congruence.
  - by intros w (? & _).
  - intros w rs' (H & _) _. revert H. by apply supervised_calmer.
Qed.

(** The call of the resource manager keeps a stable invariant. *)
Lemma resource_manager_get_process_stable (I : world → Prop) :
  stable self func I (supervised self n_tasks []) →
  hoare I (resource_manager_get_process self func sched manager)
    (λ _, I) (supervised self n_tasks []).
Proof.
  intros Hst. unfold resource_manager_get_process. eapply hoare_bind.
  { eapply hoare_conseq; [apply (yield_stable _ _ _ _ _ Hst)|done|done|].
    apply (st_exc _ _ _ _ Hst). }
  intros []. eapply (hoare_bind _ _ _ (λ _, I)).
  { intros w Hw. by apply (st_asked _ _ _ _ Hst). }
  intros adm. eapply hoare_bind.
  { apply hoare_for_each. intros c _. apply (__sleep_stable _ _ _ _ _ Hst). }
  intros []. by apply hoare_ret.
Qed.

Lemma _get_process_initializing queue task_id :
  hoare (initializing self n_tasks queue)
    (_get_process self func args_list sched manager task_id false)
    (λ _, initializing self n_tasks queue) (supervised self n_tasks []).
Proof.
  pose proof (initializing_stable queue) as Hst.
  unfold _get_process. eapply hoare_bind;
    [by apply resource_manager_get_process_stable|].
  intros adm. destruct (negb (adm_create adm)); [by apply hoare_ret|].
  eapply (hoare_bind _ _ _ (λ _, initializing self n_tasks queue)).
  { apply hoare_lift. intros w Hw.
    destruct (_get_task_name self (Some task_id)); try done;
      by apply (st_exc _ _ _ _ Hst). }
  intros name. eapply (hoare_bind _ _ _ (λ _, initializing self n_tasks queue)).
  { apply hoare_lift. intros w Hw.
    destruct (row task_id args_list); try done; by apply (st_exc _ _ _ _ Hst). }
  intros args w (Hs & Hp & Hi & Hd & Ha & Hcu). simpl.
  set (P := Process _ _ _ _ _).
  assert (∀ q, is_alive (set_procs (w_procs w ++ [P]) w) q = is_alive w q)
    as Hal by (intros q; by apply is_alive_create).
  split; [|split; [done|split; [done|split; [|by split]]]].
  - destruct Hs as [H1 H2 H3 H4 H5 H6 H7]. constructor; try done.
    intros q. rewrite Hal. apply H2.
  - intros q. by rewrite Hal.
Qed.

(** A child started by [_get_process] from a state with room for it. *)
Lemma started_supervised k w P :
  p_status P = Created →
  refilling self n_tasks (S k) w →
  let pid := length (w_procs w) in
  let r := start_process pid (set_procs (w_procs w ++ [P]) w) in
  r.1 = Ok () ∧ supervised self n_tasks [pid] r.2 ∧
  all_ids_some r.2 ∧ room self (S k) r.2.
Proof.
  intros HP (Hs & Ha & [ps Hps] & Hr2 & Hr3) pid r.
  subst r. unfold start_process. simpl.
  rewrite list_lookup_middle by done. rewrite HP. simpl.
  split; [done|].
  set (w1 := set_procs _ (set_procs _ w)).
  assert (∀ q, is_alive w1 q = true → q = pid ∨ is_alive w q = true) as Hal.
  { intros q. unfold w1.
    rewrite (is_alive_start (set_procs (w_procs w ++ [P]) w) pid P)
      by (simpl; by apply list_lookup_middle).
    case_decide; [auto|]. rewrite is_alive_create by done. auto. }
  destruct Hs as [H1 H2 H3 H4 H5 H6 H7].
  assert (supervised self n_tasks [pid] w1) as Hs1.
  { constructor; try done.
    - intros q Hq. destruct (Hal q Hq) as [->|Hq'].
      + left. by apply list_elem_of_singleton.
      + destruct (H2 q Hq') as [Hin|?]; [by inversion Hin|by right].
    - intros ps' Hps'. specialize (Hr2 ps' Hps'). simpl. lia.
    - change (pending w1) with (pending w). simpl. lia. }
  pose proof (supervised_live_bound self n_tasks [pid] w1 ps Hs1 Hps) as Hb.
  split; [|by split].
  destruct Hs1 as [G1 G2 G3 G4 G5 G6 G7]. constructor; try done.
  simpl. apply Forall_app. split; [done|]. by constructor.
Qed.

Lemma _get_process_refilling k task_id :
  hoare (refilling self n_tasks (S k))
    (_get_process self func args_list sched manager task_id true)
    (λ r w, supervised self n_tasks
              (match r with Some pid => [pid] | None => [] end) w ∧
            all_ids_some w ∧ room self (S k) w)
    (supervised self n_tasks []).
Proof.
  pose proof (refilling_stable (S k)) as Hst.
  unfold _get_process. eapply hoare_bind;
    [by apply resource_manager_get_process_stable|].
  intros adm. destruct (negb (adm_create adm)); [by apply hoare_ret|].
  eapply (hoare_bind _ _ _ (λ _, refilling self n_tasks (S k))).
  { apply hoare_lift. intros w Hw.
    destruct (_get_task_name self (Some task_id)); try done;
      by apply (st_exc _ _ _ _ Hst). }
  intros name. eapply (hoare_bind _ _ _ (λ _, refilling self n_tasks (S k))).
  { apply hoare_lift. intros w Hw.
    destruct (row task_id args_list); try done; by apply (st_exc _ _ _ _ Hst). }
  intros args w Hw. rewrite bind_unfold. cbn beta iota.
  rewrite bind_unfold.
  set (P := Process _ _ _ _ _).
  destruct (started_supervised k w P eq_refl Hw) as (Hok & Hsup).
  destruct (start_process _ _) as [o w2]. simpl in Hok. subst o. exact Hsup.
Qed.

(** The three assignments that end a turn of the loop of
    [_add_new_processes]. *)
Lemma appended_refilling k w process task_id :
  supervised self n_tasks
    (match process with Some pid => [pid] | None => [] end) w →
  all_ids_some w → room self (S k) w →
  refilling self n_tasks k
    (set_cursor (S (_cursor w))
       (set_working_task_ids
          ((λ l, l ++ [Some task_id]) <$> _working_task_ids w)
          (let processes := (λ l, l ++ [process]) <$> _working_processes w in
           set_history
             (history w ++ [Refilled (length (default [] processes))])
             (set_working_processes processes w)))).
Proof.
  intros [H1 H2 H3 H4 H5 H6 H7] Ha ([ps Hps] & Hr2 & Hr3).
  destruct H3 as [ids Hids]; [by rewrite Hps|].
  specialize (Hr2 ps Hps). specialize (H4 ids ps Hids Hps).
  specialize (H6 ids Hids). specialize (Ha ids Hids).
  assert (length (somes ids) = length ids) as Hsl.
  { clear -Ha. induction Ha as [|[x|] l Hx Hl IH]; unfold somes in *; cbn.
    - done.
    - by rewrite IH.
    - by destruct Hx. }
  pose proof (Forall2_length _ _ _ H4) as Hlen.
  assert (somes (ids ++ [Some task_id]) = somes ids ++ [task_id]) as Hso
    by (unfold somes; by rewrite omap_app).
  unfold pending in *.
  split; [|split].
  - constructor; unfold pending; simpl; rewrite ?Hps, ?Hids; simpl.
    + apply Forall_app. split; [done|]. constructor; [|done].
      simpl. rewrite length_app. simpl. lia.
    + intros q Hq. right. eexists. split; [done|].
      apply elem_of_app. destruct (H2 q Hq) as [Hin|(ps' & Hps' & Hin)].
      * right. destruct process as [pid|]; [|by inversion Hin].
        apply list_elem_of_singleton in Hin as ->. by left.
      * left. rewrite Hps in Hps'. by injection Hps' as <-.
    + by intros _.
    + intros ? ? [= <-] [= <-]. apply Forall2_app; [done|].
      constructor; [|done]. by intros _.
    + intros ? [= <-]. rewrite length_app. simpl. lia.
    + intros ? [= <-]. rewrite Hso, length_app. simpl. lia.
    + lia.
  - intros ids'. simpl. rewrite Hids. simpl. intros [= <-].
    apply Forall_app. split; [done|]. by constructor.
  - unfold room, pending. simpl. rewrite Hps. simpl.
    split; [done|]. split; [|lia].
    intros ? [= <-]. rewrite length_app. simpl. lia.
Qed.

Lemma _add_new_processes_supervised :
  hoare (λ w, supervised self n_tasks [] w ∧ all_ids_some w)
    (_add_new_processes self func args_list sched manager)
    (λ _ w, supervised self n_tasks [] w ∧ all_ids_some w)
    (supervised self n_tasks []).
Proof.
  unfold _add_new_processes.
  eapply (hoare_bind _ _ _
    (λ nw w, (supervised self n_tasks [] w ∧ all_ids_some w) ∧
             ∃ ps, _working_processes w = Some ps ∧ nw = Z.of_nat (length ps))).
  { intros w [Hs Ha]. destruct (_working_processes w) as [ps|] eqn:Hps; eauto. }
  intros nw.
  eapply (hoare_bind _ _ _
    (λ n_res w, ((supervised self n_tasks [] w ∧ all_ids_some w) ∧
                 ∃ ps, _working_processes w = Some ps ∧ nw = Z.of_nat (length ps)) ∧
                n_res = Z.of_nat (length (_all_task_ids w)) - Z.of_nat (_cursor w))).
  { by apply hoare_read. }
  intros n_res. destruct (0 <? n_res) eqn:Hres.
  - apply Z.ltb_lt in Hres.
    set (K := Z.to_nat (Z.min (_n_jobs self - nw) n_res)).
    eapply hoare_bind.
    + eapply (hoare_conseq _ _ _ _ _ _ _
                (hoare_for_each_count (refilling self n_tasks) (seq 0 K) _
                   (supervised self n_tasks []) _)).
      * intros w (([Hs Ha] & ps & Hps & ->) & ->). rewrite length_seq.
        split; [done|]. split; [done|].
        split; [by rewrite Hps|]. unfold pending. split; [|lia].
        intros ps' Hps'. rewrite Hps in Hps'. injection Hps' as <-.
        pose proof (sup_jobs _ _ _ _ Hs ps Hps). simpl in *. lia.
      * intros a w Hw. exact Hw.
      * done.
    + intros []. apply hoare_ret. by intros w (? & ? & _).
  - apply hoare_ret. by intros w ((? & _) & _).
  Unshelve.
  intros x k. cbv beta.
  eapply (hoare_bind _ _ _ (λ _, refilling self n_tasks (S k))).
  { intros w Hw. destruct (_all_task_ids w !! _cursor w); [done|].
    by destruct Hw. }
  intros task_id. eapply hoare_bind; [apply _get_process_refilling|].
  intros process w (Hs & Ha & Hr). rewrite !bind_unfold. simpl.
  by apply (appended_refilling k w process task_id).
Qed.

Lemma main_loop_supervised fuel :
  hoare (supervised self n_tasks [])
    (main_loop self func args_list sched manager fuel)
    (λ _, supervised self n_tasks []) (supervised self n_tasks []).
Proof.
  induction fuel as [|fuel IH]; simpl.
  - by apply hoare_lift.
  - eapply hoare_bind.
    { apply (_wait_and_handle_finish_stable _ _ _ _ _
               (supervised_stable self func n_tasks)). }
    intros []. eapply hoare_bind.
    { eapply hoare_conseq; [apply _add_new_processes_supervised| |done|done].
      intros w (_ & w1 & w2 & fs & Hs1 & Hp & Hc & ->).
      apply (supervised_popped self n_tasks w1 w2 fs); try done.
      by apply (supervised_calmer self n_tasks [] w1). }
    intros [|]; [|apply hoare_ret; by intros w [? _]].
    eapply hoare_conseq; [apply IH|by intros w [? _]|done|done].
Qed.

Lemma mask_failed_agree ids : ∀ ps,
  length ids = length ps → slots_agree (mask_failed ids ps) ps.
Proof.
  induction ids as [|i ids IH]; intros [|p ps] Hlen; try done.
  - constructor.
  - simpl in Hlen. constructor; [|apply IH; lia].
    destruct p; [by intros _|by intros []].
Qed.

Lemma mask_failed_count ids : ∀ ps,
  length ids = length ps →
  (length (somes (mask_failed ids ps)) + length (failed_task_ids ids ps)
   = length ps)%nat.
Proof.
  induction ids as [|i ids IH]; intros [|p ps] Hlen; try done.
  simpl in Hlen. specialize (IH ps ltac:(lia)).
  unfold somes, mask_failed, failed_task_ids in *.
  destruct p; cbn in *; lia.
Qed.

(** The state after the initial processes were created and the queue and the
    task ids were set, and the one with the working set assigned. *)
Lemma initialized_supervised w ids ps :
  let nj := Z.to_nat (Z.min (_n_jobs self) (Z.of_nat n_tasks)) in
  initializing self n_tasks (seq nj (n_tasks - nj)) w →
  length ids = nj → length ids = length ps →
  let w' := set_working_task_ids (Some (mask_failed ids ps))
              (set_all_task_ids (failed_task_ids ids ps ++ _all_task_ids w) w) in
  supervised self n_tasks [] w' ∧
  (ps ≠ [] → supervised self n_tasks []
               (set_working_processes (Some ps) w')).
Proof.
  intros nj (Hs & Hp & Hi & Hd & Ha & Hcu) Hnj Hlen w'.
  destruct Hs as [H1 H2 H3 H4 H5 H6 H7].
  pose proof (mask_failed_count ids ps Hlen) as Hcount.
  assert (length (somes (mask_failed ids ps)) + pending w' ≤ n_tasks)%nat
    as Htasks.
  { unfold pending, w'. simpl. rewrite Ha, Hcu, length_app, length_seq.
    subst nj. lia. }
  split.
  - constructor.
    + done.
    + intros pid. change (is_alive w' pid) with (is_alive w pid).
      by rewrite Hd.
    + unfold w'. simpl. rewrite Hp. by intros [].
    + unfold w'. simpl. by rewrite Hp.
    + unfold w'. simpl. by rewrite Hp.
    + by intros ? [= <-].
    + simpl. lia.
  - intros Hne. constructor.
    + done.
    + intros pid. change (is_alive _ pid) with (is_alive w pid).
      by rewrite Hd.
    + by intros _.
    + intros ? ? [= <-] [= <-]. by apply mask_failed_agree.
    + intros ? [= <-]. simpl.
      destruct ps as [|p ps]; [done|]. simpl in *. subst nj. lia.
    + by intros ? [= <-].
    + simpl. lia.
Qed.

Lemma start_process_in_working ps pid :
  Some pid ∈ ps →
  hoare (λ w, supervised self n_tasks [] w ∧ _working_processes w = Some ps)
    (start_process pid)
    (λ _ w, supervised self n_tasks [] w ∧ _working_processes w = Some ps)
    (supervised self n_tasks []).
Proof.
  intros Hin w [Hs Hps]. unfold start_process.
  destruct (w_procs w !! pid) as [P|] eqn:HP; [|done].
  destruct (p_status P); try done.
  set (w1 := set_procs _ w).
  assert (supervised self n_tasks [] w1) as Hs1.
  { destruct Hs as [H1 H2 H3 H4 H5 H6 H7]. constructor; try done.
    intros q. unfold w1. rewrite (is_alive_start w pid P) by done.
    case_decide; [|apply H2]. subst. intros _. right. by exists ps. }
  pose proof (supervised_live_bound self n_tasks [] w1 ps Hs1 Hps) as Hb.
  split; [|done].
  destruct Hs1 as [G1 G2 G3 G4 G5 G6 G7]. constructor; try done.
  simpl. apply Forall_app. split; [done|]. by constructor.
Qed.

Lemma batch_body_supervised fuel :
  let n_jobs := Z.min (_n_jobs self) (Z.of_nat n_tasks) in
  hoare (initializing self n_tasks
           (seq (Z.to_nat n_jobs) (n_tasks - Z.to_nat n_jobs)))
    (batch_body self func args_list sched manager fuel n_jobs)
    (λ _, supervised self n_tasks []) (supervised self n_tasks []).
Proof.
  intros n_jobs. unfold batch_body.
  set (queue := seq _ _).
  pose proof (initializing_stable queue) as Hst.
  eapply hoare_bind.
  { apply (hoare_map_M (initializing self n_tasks queue) (λ _ _, True)).
    intros i _. eapply hoare_conseq;
      [apply (_get_process_initializing queue i)|done| |done].
    by intros a w ?. }
  intros ps.
  eapply (hoare_bind _ _ _
            (λ _ w, initializing self n_tasks queue w ∧
                    Forall2 (λ _ _, True) (seq 0 (Z.to_nat n_jobs)) ps)).
  { intros w [Hw HF]. destruct (terminated (rs w)); try done;
      by apply (st_exc _ _ _ _ Hst). }
  intros [|].
  { eapply hoare_conseq;
      [apply (_user_terminate_stable _ _ _ _ _ Hst (λ _ _, False))
      |by intros w [? _]|by intros|done]. }
  intros w [Hw HF].
  rewrite bind_unfold, modify_unfold. cbv beta iota.
  rewrite bind_unfold, modify_unfold. cbv beta iota.
  apply Forall2_length in HF.
  destruct (initialized_supervised w (seq 0 (Z.to_nat n_jobs)) ps Hw)
    as [Hs1 Hs2]; [by rewrite length_seq|done|].
  destruct ps as [|p ps]; [exact Hs1|].
  destruct (forallb _ (p :: ps)); [exact Hs1|].
  rewrite bind_unfold, modify_unfold. cbv beta iota.
  rewrite bind_unfold.
  specialize (Hs2 ltac:(done)).
  set (w2 := set_working_processes _ _) in *.
  assert (hoare (λ w, supervised self n_tasks [] w ∧
                      _working_processes w = Some (p :: ps))
            (for_each (p :: ps) (λ p0, match p0 with
                                       | Some pid => start_process pid
                                       | None => mret ()
                                       end))
            (λ _ w, supervised self n_tasks [] w ∧
                    _working_processes w = Some (p :: ps))
            (supervised self n_tasks [])) as Hstart.
  { apply hoare_for_each. intros [pid|] Hin.
    - by apply start_process_in_working.
    - by apply hoare_ret. }
  specialize (Hstart w2 (conj Hs2 eq_refl)).
  destruct (for_each _ _ w2) as [[[]| | |] w3]; try done.
  destruct Hstart as [Hs3 _].
  exact (main_loop_supervised fuel w3 Hs3).
Qed.

Lemma record_base_supervised e :
  hoare (supervised self n_tasks []) (record_base e)
    (λ _, supervised self n_tasks []) (supervised self n_tasks []).
Proof.
  unfold record_base.
  eapply (hoare_bind _ _ _ (λ _, supervised self n_tasks [])).
  { intros w Hw. by destruct (exceptions (rs w)). }
  intros excs. eapply (hoare_bind _ _ _ (λ _, supervised self n_tasks [])).
  { apply hoare_lift. intros w Hw. by destruct (setitem _ _ _). }
  intros excs'. apply hoare_modify. intros w.
  by apply supervised_calmer.
Qed.

Lemma batch_finally_supervised :
  hoare (supervised self n_tasks []) (batch_finally self func sched)
    (λ _, supervised self n_tasks []) (supervised self n_tasks []).
Proof.
  unfold batch_finally.
  eapply (hoare_bind _ _ _ (λ _, supervised self n_tasks [])).
  { by apply hoare_read. }
  intros ps. eapply (hoare_bind _ _ _ (λ _, supervised self n_tasks [])).
  { destruct ps as [l|]; [|by apply hoare_ret].
    apply (join_all_stable _ _ _ _ _ (supervised_stable self func n_tasks)). }
  intros []. apply hoare_modify. intros w. by apply supervised_calmer.
Qed.

Lemma setup_resources_registers w :
  ∃ kinds, setup_resources self w = (Ok (), set_registered kinds w).
Proof.
  unfold setup_resources.
  destruct (default _ (available_cuda_list _)) as [[|? ?]|]; by eexists.
Qed.

Lemma hoare_map_M_inv {X Y} (I : world → Prop) (l : list X) (f : X → M Y)
  (E : world → Prop) :
  (∀ x, hoare I (f x) (λ _, I) E) → hoare I (map_M f l) (λ _, I) E.
Proof.
  intros Hf. eapply hoare_conseq.
  - apply (hoare_map_M I (λ _ _, True) l f E). intros x _.
    eapply hoare_conseq; [apply (Hf x)|done| |done]. by intros.
  - done.
  - by intros ? ? [? _].
  - done.
Qed.

Lemma pool_map_history n :
  hoare (λ w, history w = []) (pool_map self func args_list n)
    (λ _ w, history w = []) (λ w, history w = []).
Proof.
  unfold pool_map.
  eapply (hoare_bind _ _ _ (λ _ w, history w = [])).
  { apply hoare_map_M_inv. intros i. apply hoare_lift. intros w Hw.
    by destruct (_get_task_name self (Some i)). }
  intros names. eapply (hoare_bind _ _ _ (λ _ w, history w = [])).
  { apply hoare_map_M_inv. intros args w Hw.
    by destruct (f_call func args ∅). }
  intros results. by apply hoare_modify.
Qed.

End Refill.

(** (C2) Whatever the function, the arguments, the scheduling of the
    children, the answers of the resource manager, the moment of an interrupt
    and the number of turns of the main loop, in a batch run by a fresh
    executor the number of live children right after each [process.start()]
    is at most [min(num_jobs, n_tasks)] (the count changes upwards at no other
    moment), and so is the length of the working set right after each append
    of [_add_new_processes]. *)
Theorem C2_live_children_bounded self func args_list sched manager fuel
  interrupt :
  let n_tasks := length (default [] (head args_list)) in
  Forall (event_ok (Z.min (_n_jobs self) (Z.of_nat n_tasks)))
    (history (__call__ self func args_list sched manager fuel
                (new_world interrupt)).2).
Proof.
  intros n_tasks. unfold __call__.
  destruct args_list as [|args rest]; [by constructor|].
  simpl in n_tasks. fold n_tasks.
  destruct (WINDOWS self).
  { pose proof (pool_map_history self func (args :: rest) n_tasks
                  (new_world interrupt) eq_refl) as H.
    destruct (pool_map _ _ _ _ _) as [[[]| | |] w]; simpl in *;
      by rewrite H. }
  set (n_jobs := Z.min (_n_jobs self) (Z.of_nat n_tasks)).
  set (queue := seq (Z.to_nat n_jobs) (n_tasks - Z.to_nat n_jobs)).
  rewrite bind_unfold, modify_unfold. cbv beta iota.
  rewrite bind_unfold, modify_unfold. cbv beta iota.
  rewrite bind_unfold, modify_unfold. cbv beta iota.
  rewrite bind_unfold.
  match goal with |- context [setup_resources self ?w] =>
    destruct (setup_resources_registers self w) as [kinds ->] end.
  cbv beta iota.
  rewrite bind_unfold, modify_unfold. cbv beta iota.
  match goal with |- context [try_finally _ _ ?w] => set (w0 := w) end.
  assert (initializing self n_tasks queue w0) as Hinit.
  { split; [|done]. constructor.
    - by constructor.
    - done.
    - by intros [].
    - done.
    - done.
    - done.
    - simpl. lia. }
  assert (hoare (initializing self n_tasks queue)
            (try_finally
               (try_except
                  (batch_body self func (args :: rest) sched manager fuel n_jobs)
                  (batch_handler))
               (batch_finally self func sched))
            (λ _, supervised self n_tasks [])
            (supervised self n_tasks [])) as Hrun.
  { eapply hoare_try_finally.
    - eapply (hoare_try_except _ _ _ _ (supervised self n_tasks [])).
      + apply batch_body_supervised.
      + intros e h He. unfold batch_handler in He.
        destruct (is_KeyboardInterrupt e); [|destruct (is_Exception e)];
          simplify_eq; apply record_base_supervised.
      + done.
    - intros []. apply batch_finally_supervised.
    - apply batch_finally_supervised.
    - done. }
  specialize (Hrun w0 Hinit).
  destruct (try_finally _ _ w0) as [[[]| | |] w1]; simpl;
    by apply (sup_history _ _ _ _ Hrun).
Qed.

(** ** The identity batch *)

Lemma string_app_length (s t : string) :
  String.length (s +:+ t) = (String.length s + String.length t)%nat.
Proof. induction s as [|a s IH]; simpl; [done|]. by rewrite IH. Qed.

Lemma string_app_inj_r (s1 s2 t : string) : s1 +:+ t = s2 +:+ t → s1 = s2.
Proof.
  revert s2. induction s1 as [|a s1 IH]; intros [|b s2] H; simpl in *.
  - done.
  - apply (f_equal String.length) in H.
    rewrite ?string_app_length in H. simpl in H.
    rewrite ?string_app_length in H. lia.
  - apply (f_equal String.length) in H.
    rewrite ?string_app_length in H. simpl in H.
    rewrite ?string_app_length in H. lia.
  - injection H as -> H. by rewrite (IH s2 H).
Qed.

Lemma default_name_inj self i j :
  default_name self i = default_name self j → i = j.
Proof.
  unfold default_name. intros H.
  apply (inj (String.app "task_")) in H.
  apply string_app_inj_r in H. by apply (inj pretty) in H.
Qed.

Lemma default_name_not_reserved self i :
  default_name self i ≠ META ∧ default_name self i ≠ EXCEPTIONS.
Proof. by split. Qed.

Lemma _get_task_name_default self i :
  _task_names self = None →
  _get_task_name self (Some i) = Ok (Some (default_name self i)).
Proof. intros H. unfold _get_task_name. by rewrite H. Qed.

Lemma _get_task_name_Ok self id :
  _task_names self = None → ∃ name, _get_task_name self id = Ok name.
Proof.
  intros H. destruct id as [i|]; [|by eexists].
  rewrite _get_task_name_default by done. by eexists.
Qed.

(** A worker of [identity] that starts with the flag clear stores its value,
    unless the value asks for termination. *)
Lemma _inner_identity self tn cuda v s :
  terminated (sh_rs s) = Ok false →
  terminate_requested v = false →
  sh_rs (_inner self identity tn cuda [v] s).2 = <[tn := v]> (sh_rs s).
Proof.
  intros Ht Hv. unfold _inner. rewrite Ht.
  destruct (build_kwargs self identity tn cuda
              (log_method tn INFO "task started" s)) as [kw s1] eqn:Hb.
  assert (sh_rs s1 = sh_rs s) as Hrs.
  { change s1 with (kw, s1).2. rewrite <- Hb. by rewrite build_kwargs_rs. }
  simpl. rewrite Hv. simpl. by rewrite Hrs.
Qed.

Section Identity.
Context (self : Parallel) (vs : list pyval).
Context (sched : nat → list nat) (manager : nat → admission).
Hypothesis Hnames : _task_names self = None.
Hypothesis Hvs : Forall (λ v, terminate_requested v = false) vs.
Hypothesis Hadm : admits_at_once manager.

Lemma clean_run_child w pid :
  clean self vs w → clean self vs (run_child self identity w pid).
Proof.
  intros (Hsig & Hterm & Hexc & Hrec). unfold run_child.
  destruct (w_procs w !! pid) as [p|] eqn:Hp; [|done].
  destruct (p_status p) eqn:Hst; try done.
  destruct (Hrec pid p Hp) as (v & Hv & Hargs & Hname & Hdead).
  assert (terminate_requested v = false) as Hnot.
  { eapply (proj1 (Forall_forall _ vs) Hvs), list_elem_of_lookup_2, Hv. }
  pose proof (_inner_identity self (p_task_name p) (p_cuda p) v (w_shared w)
                Hterm Hnot) as Hin.
  rewrite Hargs. set (s' := (_inner _ _ _ _ _ _).2) in *.
  destruct (default_name_not_reserved self (p_task_id p)) as [Hn1 Hn2].
  set (w' := set_procs _ (set_shared s' w)).
  assert (rs w' = <[default_name self (p_task_id p) := v]> (rs w)) as Hrs
    by (unfold rs; simpl; by rewrite Hin, Hname).
  unfold clean. rewrite Hrs.
  split; [done|]. split; [by rewrite terminated_insert_other|].
  split; [by rewrite lookup_insert_ne|].
  intros q pq Hq. unfold recorded. rewrite Hrs. simpl in Hq.
  destruct (decide (q = pid)) as [->|Hne].
  - rewrite list_lookup_insert_eq in Hq by (by eapply lookup_lt_Some).
    injection Hq as <-. exists v. simpl.
    split; [done|]. split; [done|]. split; [done|].
    intros _. by rewrite lookup_insert_eq.
  - rewrite list_lookup_insert_ne in Hq by done.
    destruct (Hrec q pq Hq) as (vq & Hvq & Hargsq & Hnameq & Hdeadq).
    exists vq. split; [done|]. split; [done|]. split; [done|]. intros Hd.
    destruct (decide (default_name self (p_task_id p)
                      = default_name self (p_task_id pq))) as [He|He].
    + rewrite He, lookup_insert_eq.
      apply default_name_inj in He. rewrite He in Hv. congruence.
    + rewrite lookup_insert_ne by done. by apply Hdeadq.
Qed.

Lemma running_run_child w pid :
  running self vs w → running self vs (run_child self identity w pid).
Proof.
  intros (Hc & Hnc & Hcov & Hall & Hwp & Hwt).
  split; [by apply clean_run_child|].
  unfold run_child.
  destruct (w_procs w !! pid) as [p|] eqn:Hp; [|done].
  destruct (p_status p) eqn:Hst; try done.
  simpl. split; [|split; [|done]].
  - intros q pq Hq. destruct (decide (q = pid)) as [->|Hne].
    + rewrite list_lookup_insert_eq in Hq by (by eapply lookup_lt_Some).
      by injection Hq as <-.
    + rewrite list_lookup_insert_ne in Hq by done. by eapply Hnc.
  - intros i Hi. destruct (Hcov i Hi) as [?|(q & pq & Hq & Hid)]; [by left|].
    right. destruct (decide (q = pid)) as [->|Hne].
    + exists pid, (set_status Dead p).
      rewrite list_lookup_insert_eq by (by eapply lookup_lt_Some).
      split; [done|]. simpl. congruence.
    + exists q, pq. by rewrite list_lookup_insert_ne.
Qed.

Lemma sigint_run_children pids : ∀ w,
  sigint (run_children self identity pids w) = sigint w.
Proof.
  induction pids as [|pid pids IH]; intros w; [done|].
  simpl. rewrite IH. unfold run_child.
  destruct (w_procs w !! pid) as [p|]; [|done]. by destruct (p_status p).
Qed.

Lemma yield_total :
  hoare (λ w, sigint w = None) (yield self identity sched)
        (λ _ _, True) (λ _, False).
Proof.
  intros w Hs. unfold yield.
  assert (sigint (set_clock
            (S (clock (run_children self identity (sched (clock w)) w)))
            (run_children self identity (sched (clock w)) w)) = None) as ->.
  { simpl. by rewrite sigint_run_children. }
  done.
Qed.

Lemma hoare_total {A} (P : world → Prop) (m : M A) (Q : A → world → Prop) :
  hoare P m Q (λ _, True) → hoare P m (λ _ _, True) (λ _, False) →
  hoare P m Q (λ _, False).
Proof.
  intros H1 H2. eapply hoare_conseq; [apply (hoare_and _ _ _ _ _ _ _ H1 H2)|..].
  - done.
  - by intros a w [? _].
  - by intros w [_ ?].
Qed.

Lemma serving_sigint w : serving self vs w → sigint w = None.
Proof. by intros (_ & (? & _) & _). Qed.

Lemma yield_serving w0 (extra : world → Prop) :
  (∀ w pid, extra w → extra (run_child self identity w pid)) →
  (∀ w n, extra w → extra (set_clock n w)) →
  hoare (λ w, serving self vs w ∧ calmer w0 w ∧ extra w)
        (yield self identity sched)
        (λ _ w, serving self vs w ∧ calmer w0 w ∧ extra w) (λ _, False).
Proof.
  intros He1 He2.
  apply hoare_total.
  - intros w (Hs & Hc & He). unfold yield.
    assert (serving self vs (run_children self identity (sched (clock w)) w) ∧
            calmer w0 (run_children self identity (sched (clock w)) w) ∧
            extra (run_children self identity (sched (clock w)) w)) as Hrun.
    { generalize (sched (clock w)). intros pids. revert w Hs Hc He.
      induction pids as [|pid pids IH]; intros w Hs Hc He; [done|].
      simpl. apply IH.
      - destruct Hs as [Hs Hr]. split.
        + eapply supervised_calmer; [apply run_child_calmer|done].
        + by apply running_run_child.
      - eapply calmer_trans; [done|apply run_child_calmer].
      - by apply He1. }
    destruct Hrun as (Hs' & Hc' & He').
    assert (sigint (set_clock
              (S (clock (run_children self identity (sched (clock w)) w)))
              (run_children self identity (sched (clock w)) w)) = None) as ->.
    { simpl. rewrite sigint_run_children. by apply serving_sigint. }
    split; [|split].
    + destruct Hs' as [Hs1 Hr1]. split; [|done].
      by apply (supervised_calmer self (length vs) []
                  (run_children self identity (sched (clock w)) w)).
    + by destruct Hc'.
    + by apply He2.
  - eapply hoare_conseq; [apply yield_total| |done|done].
    intros w (Hs & _). by apply serving_sigint.
Qed.

Lemma working_names_Ok ids : working_names self ids = Ok ().
Proof.
  induction ids as [|[[|i]|] ids IH]; simpl; try done.
  destruct (_get_task_name_Ok self (Some (S i)) Hnames) as [name Hn].
  unfold _get_task_name in *. rewrite Hnames in *. done.
Qed.

Lemma poll_slots_Ok w slots : ∀ i, ∃ fs, poll_slots self w i slots = Ok fs.
Proof.
  induction slots as [|[tid p] slots IH]; intros i; simpl; [by eexists|].
  destruct (IH (S i)) as [fs Hfs]. rewrite Hfs.
  destruct p as [pid|]; [|by eexists].
  destruct (_get_task_name_Ok self tid Hnames) as [name ->]. by eexists.
Qed.

Lemma poll_serving (R : world → Prop) :
  hoare (λ w, serving self vs w ∧ R w) (poll self)
        (λ fs w, (serving self vs w ∧ R w) ∧ polled self w fs) (λ _, False).
Proof.
  intros w [Hs HR]. unfold poll.
  destruct Hs as [Hsup (Hc & Hnc & Hcov & Hall & [ps Hps] & [ids Hids])].
  rewrite Hids, working_names_Ok, Hps.
  destruct (poll_slots_Ok w (zip ids ps) 0) as [fs Hfs]. rewrite Hfs.
  split; [done|]. by exists ids, ps.
Qed.

Lemma slot_finished_run_child w q p :
  slot_finished w p = true →
  slot_finished (run_child self identity w q) p = true.
Proof.
  destruct p as [pid|]; [|done]. simpl.
  rewrite !negb_true_iff. apply run_child_keeps_dead.
Qed.

Lemma some_finished_run_child ps w q :
  existsb (slot_finished w) ps = true →
  existsb (slot_finished (run_child self identity w q)) ps = true.
Proof.
  rewrite !existsb_exists. intros (p & Hin & Hp).
  exists p. split; [done|]. by apply slot_finished_run_child.
Qed.

Lemma first_live_Some w ps :
  existsb (slot_finished w) ps = false → ps ≠ [] →
  ∃ pid, first_live w ps = Some pid ∧ Some pid ∈ ps.
Proof.
  destruct ps as [|p ps]; [done|]. simpl. intros H _.
  apply orb_false_iff in H as [Hp _].
  destruct p as [pid|]; [|done]. simpl in Hp.
  apply negb_false_iff in Hp. rewrite Hp. exists pid. split; [done|by left].
Qed.

Lemma indices_of_existsb {X} (f : X → bool) l i :
  existsb f l = true → indices_of i (f <$> l) ≠ [].
Proof.
  revert i. induction l as [|x l IH]; intros i; simpl; [done|].
  destruct (f x); [done|]. simpl. apply IH.
Qed.

Lemma keep_unmasked_shorter {X} mask : ∀ (l : list X) i,
  indices_of i mask ≠ [] → length mask = length l →
  (length (keep_unmasked mask l) < length l)%nat.
Proof.
  induction mask as [|b mask IH]; intros [|x l] i Hne Hlen; simpl in *;
    try done.
  destruct b.
  - pose proof (keep_unmasked_length mask l). lia.
  - specialize (IH l (S i) Hne ltac:(lia)). simpl. lia.
Qed.

Lemma polled_mask w fs :
  serving self vs w → polled self w fs →
  ∃ ids ps, _working_task_ids w = Some ids ∧ _working_processes w = Some ps ∧
            slots_agree ids ps ∧
            fs = indices_of 0 (slot_finished w <$> ps).
Proof.
  intros [Hsup _] Hp. pose proof Hp as (ids & ps & Hids & Hps & Hpoll).
  exists ids, ps. split; [done|]. split; [done|].
  pose proof (sup_slots _ _ _ _ Hsup ids ps Hids Hps) as Hag.
  split; [done|].
  apply poll_slots_indices in Hpoll. rewrite Hpoll. f_equal.
  rewrite <- (zip_snd_agree ids ps Hag) at 2. by rewrite <- list_fmap_compose.
Qed.

(** A sleep of the wait loop ends with a finished slot. *)
Lemma time_sleep_forces w0 ps :
  _working_processes w0 = Some ps → ps ≠ [] →
  hoare (λ w, serving self vs w ∧ calmer w0 w ∧ True)
        (time_sleep self identity sched true)
        (λ _ w, serving self vs w ∧ calmer w0 w ∧
                existsb (slot_finished w) ps = true) (λ _, False).
Proof.
  intros Hps Hne. unfold time_sleep.
  eapply hoare_bind; [by apply (yield_serving w0 (λ _, True))|].
  intros []. apply hoare_modify. intros w (Hs & Hc & _).
  rewrite (cal_processes _ _ Hc), Hps.
  destruct (existsb (slot_finished w) ps) eqn:Hex; [done|].
  destruct (first_live_Some w ps Hex Hne) as (pid & -> & Hin).
  split; [|split].
  - destruct Hs as [Hsup Hr]. split.
    + eapply supervised_calmer; [apply run_child_calmer|done].
    + by apply running_run_child.
  - eapply calmer_trans; [done|apply run_child_calmer].
  - apply existsb_exists. exists (Some pid). split.
    + by apply list_elem_of_In.
    + simpl. rewrite is_alive_run_child. by case_decide.
Qed.

(** The blocking wait returns, with at least one finished slot. *)
Lemma __wait_serving w0 ps :
  _working_processes w0 = Some ps → ps ≠ [] →
  hoare (λ w, serving self vs w ∧ calmer w0 w)
        (__wait self identity sched true)
        (λ fs w, serving self vs w ∧ calmer w0 w ∧ polled self w fs ∧ fs ≠ [])
        (λ _, False).
Proof.
  intros Hps Hne. unfold __wait.
  eapply (hoare_try_except _ _ _ _ (λ _, False));
    [|by intros e h _ w []|done].
  unfold wait_loop.
  eapply hoare_bind.
  { eapply hoare_conseq; [by apply (yield_serving w0 (λ _, True))| |done|done].
    by intros w [? ?]. }
  intros []. eapply hoare_bind; [apply (poll_serving (λ w, calmer w0 w ∧ True))|].
  intros fs. destruct fs as [|i fs]; simpl.
  2:{ apply hoare_ret. by intros w ((? & ? & _) & ?). }
  eapply hoare_bind.
  { eapply hoare_conseq; [by apply (time_sleep_forces w0 ps)| |done|done].
    by intros w ((? & ? & _) & _). }
  intros []. eapply hoare_bind.
  { apply (yield_serving w0 (λ w, existsb (slot_finished w) ps = true)).
    - intros w q. apply some_finished_run_child.
    - done. }
  intros []. eapply hoare_bind.
  { apply (poll_serving
             (λ w, calmer w0 w ∧ existsb (slot_finished w) ps = true)). }
  intros fs. destruct fs as [|i fs]; simpl.
  2:{ apply hoare_ret. by intros w ((? & ? & _) & ?). }
  intros w ((Hs & Hc & Hex) & Hp). exfalso.
  destruct (polled_mask w [] Hs Hp) as (ids & ps' & _ & Hps' & _ & Hfs).
  rewrite (cal_processes _ _ Hc), Hps in Hps'. injection Hps' as <-.
  symmetry in Hfs. by apply (indices_of_existsb _ _ _ Hex) in Hfs.
Qed.

Lemma running_popped fs w : running self vs w → running self vs (popped fs w).
Proof.
  intros (Hc & Hnc & Hcov & Hall & [ps Hps] & [ids Hids]).
  split; [done|]. split; [done|]. split; [done|]. split; [done|].
  unfold popped. simpl. rewrite Hps, Hids. by split.
Qed.

(** A turn of the wait of the main loop returns with the flag clear and a
    working set that has lost a slot. *)
Lemma _wait_and_handle_finish_serving w0 ps :
  _working_processes w0 = Some ps → ps ≠ [] →
  hoare (λ w, serving self vs w ∧ calmer w0 w)
        (_wait_and_handle_finish self identity sched true)
        (λ _ w, serving self vs w ∧ all_ids_some w ∧
                (∃ ps', _working_processes w = Some ps' ∧
                        (length ps' < length ps)%nat) ∧
                pending w = pending w0)
        (λ _, False).
Proof.
  intros Hps Hne. unfold _wait_and_handle_finish.
  eapply hoare_bind; [by apply (__wait_serving w0 ps)|].
  intros fs w1 (Hs1 & Hc1 & Hp1 & Hfs).
  destruct fs as [|i fs]; [done|]. clear Hfs.
  pose proof (yield_serving w1 (λ _, True) ltac:(done) ltac:(done) w1
                (conj Hs1 (conj (calmer_refl w1) I))) as Hy.
  rewrite bind_unfold.
  destruct (yield self identity sched w1) as [[[]| | |] w2]; try done.
  destruct Hy as (Hs2 & Hc2 & _).
  rewrite bind_unfold.
  destruct Hs2 as [Hsup2 Hr2]. pose proof Hr2 as ((_ & Ht & _) & _).
  rewrite Ht. rewrite modify_unfold.
  destruct Hs1 as [Hsup1 Hr1].
  destruct (supervised_popped self (length vs) w1 w2 (i :: fs)
              Hsup1 Hsup2 Hc2 Hp1) as [Hsup3 Hall3].
  split; [split; [done|by apply running_popped]|]. split; [done|].
  destruct (polled_mask w1 (i :: fs) (conj Hsup1 Hr1) Hp1)
    as (ids & ps1 & Hids1 & Hps1 & Hag & Hmask).
  rewrite (cal_processes _ _ Hc1), Hps in Hps1. injection Hps1 as <-.
  destruct (polled_pops self w1 (i :: fs) ids ps Hp1 Hids1) as [_ Epp];
    [by rewrite (cal_processes _ _ Hc1)|done|].
  split.
  - exists (pop_slots (i :: fs) ps). split.
    + unfold popped. simpl.
      by rewrite (cal_processes _ _ Hc2), (cal_processes _ _ Hc1), Hps.
    + rewrite Epp. apply (keep_unmasked_shorter _ _ 0%nat).
      * by rewrite <- Hmask.
      * by rewrite length_fmap.
  - unfold pending, popped. simpl.
    by rewrite (cal_all _ _ Hc2), (cal_all _ _ Hc1),
               (cal_cursor _ _ Hc2), (cal_cursor _ _ Hc1).
Qed.

Lemma yield_Ok w :
  sigint w = None →
  yield self identity sched w
  = (Ok (), set_clock (S (clock (run_children self identity (sched (clock w)) w)))
                      (run_children self identity (sched (clock w)) w)).
Proof.
  intros Hs. unfold yield.
  assert (sigint (set_clock
            (S (clock (run_children self identity (sched (clock w)) w)))
            (run_children self identity (sched (clock w)) w)) = None) as ->.
  { simpl. by rewrite sigint_run_children. }
  done.
Qed.

(** [_get_process] on a task of the batch, when no interrupt is due: after a
    scheduling point the manager admits the task and the process is created. *)
Lemma _get_process_unfold w i v start :
  sigint w = None → vs !! i = Some v →
  ∃ w1 cuda,
    yield self identity sched w = (Ok (), w1) ∧
    _get_process self identity [vs] sched manager i start w
    = ((if start then start_process (length (w_procs w1)) else mret ()) ;;
       mret (Some (length (w_procs w1))))
        (set_procs (w_procs w1 ++
                    [Process i (default_name self i) cuda [v] Created])
                   (set_asked (S (asked w1)) w1)).
Proof.
  intros Hs Hv. eexists _, _. split; [by apply yield_Ok|].
  unfold _get_process, resource_manager_get_process.
  rewrite !bind_unfold, (yield_Ok w Hs). cbv beta iota.
  rewrite !bind_unfold. cbv beta iota.
  destruct (Hadm (asked (set_clock
              (S (clock (run_children self identity (sched (clock w)) w)))
              (run_children self identity (sched (clock w)) w)))) as [Hr Hc].
  rewrite Hr. simpl for_each. rewrite !ret_unfold. cbv beta iota.
  rewrite Hc. change (negb true) with false. cbv beta iota.
  rewrite !bind_unfold. unfold lift.
  rewrite (_get_task_name_default self i Hnames). cbv beta iota.
  simpl row. rewrite Hv. cbv beta iota.
  rewrite !bind_unfold. cbv beta iota. reflexivity.
Qed.

Lemma refilling_calmer n k w w' :
  calmer w w' → refilling self n k w → refilling self n k w'.
Proof.
  intros Hc (Hs & Ha & Hr1 & Hr2 & Hr3).
  split; [by eapply supervised_calmer|].
  destruct Hc as [Hi Hp Hall Hcu Hh Hl].
  unfold all_ids_some, room, pending. rewrite Hi, Hp, Hall, Hcu. auto.
Qed.

(** [running] looks at the store, the processes, the interrupt, the queue,
    and whether there is a working set. *)
Lemma running_frame w w' :
  running self vs w →
  w_shared w' = w_shared w → w_procs w' = w_procs w → sigint w' = sigint w →
  _all_task_ids w' = _all_task_ids w → _cursor w' = _cursor w →
  is_Some (_working_processes w') → is_Some (_working_task_ids w') →
  running self vs w'.
Proof.
  intros ((Hsig & Ht & He & Hrec) & Hnc & Hcov & Hall & _ & _)
         Hsh Hpr Hsi Hal Hcu Hwp Hwi.
  unfold running, clean, recorded, rs in *.
  rewrite Hsh, Hpr, Hsi, Hal, Hcu. done.
Qed.

Lemma insert_created {X} (l : list X) (P P' : X) :
  <[length l := P']> (l ++ [P]) = l ++ [P'].
Proof.
  rewrite insert_app_r_alt by lia. by rewrite Nat.sub_diag.
Qed.

(** The state after [_get_process] created and started the process of a task
    of the batch. *)
Lemma started_running w i v cuda :
  running self vs w → vs !! i = Some v →
  let P := Process i (default_name self i) cuda [v] Created in
  let r := start_process (length (w_procs w))
             (set_procs (w_procs w ++ [P]) w) in
  running self vs r.2 ∧
  (∃ pid p, w_procs r.2 !! pid = Some p ∧ p_task_id p = i) ∧
  _all_task_ids r.2 = _all_task_ids w ∧ _cursor r.2 = _cursor w ∧
  _working_processes r.2 = _working_processes w.
Proof.
  intros ((Hsig & Ht & He & Hrec) & Hnc & Hcov & Hall & Hwp & Hwi) Hv P r.
  subst r. unfold start_process. simpl.
  rewrite list_lookup_middle by done. simpl.
  rewrite insert_created.
  split; [|split; [|done]].
  - split; [split; [done|split; [done|split; [done|]]]|].
    + intros q p Hq. simpl in Hq. unfold recorded, rs. simpl.
      apply lookup_snoc_Some in Hq as [[_ Hq]|[_ <-]].
      * exact (Hrec q p Hq).
      * exists v. by simpl.
    + simpl. split; [|split; [|done]].
      * intros q p Hq. apply lookup_snoc_Some in Hq as [[_ Hq]|[_ <-]].
        -- by eapply Hnc.
        -- done.
      * intros j Hj. destruct (Hcov j Hj) as [?|(q & p & Hq & Hid)]; [by left|].
        right. exists q, p. split; [|done].
        apply lookup_snoc_Some. left. split; [by eapply lookup_lt_Some|done].
  - exists (length (w_procs w)), (set_status Alive P). split; [|done].
    simpl. apply lookup_snoc_Some. by right.
Qed.

Lemma serving_asked n w : serving self vs w → serving self vs (set_asked n w).
Proof.
  intros [Hs Hr]. split.
  - by apply (supervised_calmer self (length vs) [] w).
  - destruct Hr as (? & ? & ? & ? & ? & ?). by eapply running_frame.
Qed.

(** [_get_process] in a turn of the refill. *)
Lemma _get_process_refill k i w :
  refilling self (length vs) (S k) w → running self vs w →
  (i < length vs)%nat →
  ∃ pid w',
    _get_process self identity [vs] sched manager i true w
    = (Ok (Some pid), w') ∧
    supervised self (length vs) [pid] w' ∧ all_ids_some w' ∧
    room self (S k) w' ∧ running self vs w' ∧
    (∃ q p, w_procs w' !! q = Some p ∧ p_task_id p = i) ∧
    _all_task_ids w' = _all_task_ids w ∧ _cursor w' = _cursor w ∧
    _working_processes w' = _working_processes w.
Proof.
  intros Hre Hrun Hi.
  destruct (lookup_lt_is_Some_2 vs i Hi) as [v Hv].
  pose proof Hrun as ((Hsig & _) & _).
  destruct (_get_process_unfold w i v true Hsig Hv) as (w1 & cuda & Hy & ->).
  pose proof (yield_serving w (λ _, True) ltac:(done) ltac:(done) w
                (conj (conj (proj1 Hre) Hrun) (conj (calmer_refl w) I))) as H.
  rewrite Hy in H. destruct H as (Hs1 & Hc1 & _).
  set (w2 := set_asked (S (asked w1)) w1).
  assert (calmer w w2) as Hc2.
  { eapply calmer_trans; [done|]. by constructor. }
  pose proof (refilling_calmer _ _ _ _ Hc2 Hre) as Hre2.
  destruct (serving_asked (S (asked w1)) w1 Hs1) as [_ Hrun2].
  fold w2 in Hrun2.
  set (P := Process i (default_name self i) cuda [v] Created).
  destruct (started_supervised self (length vs) k w2 P eq_refl Hre2)
    as (Hok & Hsup & Hall & Hroom).
  destruct (started_running w2 i v cuda Hrun2 Hv)
    as (Hrun3 & Hproc & Ha3 & Hcu3 & Hwp3).
  fold P in Hrun3, Hproc, Ha3, Hcu3, Hwp3.
  change (length (w_procs w1)) with (length (w_procs w2)).
  change (set_procs (w_procs w1 ++ [P]) w2)
    with (set_procs (w_procs w2 ++ [P]) w2).
  rewrite bind_unfold.
  destruct (start_process (length (w_procs w2))
              (set_procs (w_procs w2 ++ [P]) w2)) as [o w3].
  simpl in Hok, Hsup, Hall, Hroom, Hrun3, Hproc, Ha3, Hcu3, Hwp3. subst o.
  exists (length (w_procs w2)), w3. split; [done|].
  split; [done|]. split; [done|]. split; [done|]. split; [done|].
  split; [done|].
  rewrite Ha3, Hcu3, Hwp3. unfold w2. simpl.
  by rewrite (cal_all _ _ Hc1), (cal_cursor _ _ Hc1), (cal_processes _ _ Hc1).
Qed.

(** The end of a turn of the refill: the task at the cursor has its process
    and the cursor moves on. *)
Lemma running_advance w w' i :
  running self vs w →
  w_shared w' = w_shared w → w_procs w' = w_procs w → sigint w' = sigint w →
  _all_task_ids w' = _all_task_ids w → _cursor w' = S (_cursor w) →
  is_Some (_working_processes w') → is_Some (_working_task_ids w') →
  _all_task_ids w !! _cursor w = Some i →
  (∃ q p, w_procs w !! q = Some p ∧ p_task_id p = i) →
  running self vs w'.
Proof.
  intros ((Hsig & Ht & He & Hrec) & Hnc & Hcov & Hall & _ & _)
         Hsh Hpr Hsi Hal Hcu Hwp Hwi Hlook Hproc.
  unfold running, clean, recorded, rs in *.
  rewrite Hsh, Hpr, Hsi, Hal, Hcu.
  split; [done|]. split; [done|]. split; [|done].
  intros j Hj. destruct (Hcov j Hj) as [Hin|?]; [|by right].
  rewrite (drop_S _ _ _ Hlook) in Hin.
  apply elem_of_cons in Hin as [->|Hin]; [by right|by left].
Qed.

(** The refill of the main loop: it returns, the work left does not grow, and
    it says to go on exactly when the working set is not empty. *)
Lemma _add_new_processes_serving w ps :
  serving self vs w → all_ids_some w →
  _working_processes w = Some ps → Z.of_nat (length ps) < _n_jobs self →
  ∃ more w',
    _add_new_processes self identity [vs] sched manager w = (Ok more, w') ∧
    serving self vs w' ∧
    (work_left w' ≤ work_left w)%nat ∧
    ∃ ps', _working_processes w' = Some ps' ∧
           if more : bool then ps' ≠ [] else ps' = [] ∧ pending w' = 0%nat.
Proof.
  intros [Hsup Hrun] Hall Hps Hlt.
  unfold _add_new_processes. rewrite bind_unfold, Hps. cbv beta iota.
  rewrite bind_unfold. unfold read. cbv beta iota.
  destruct (0 <? _) eqn:Hres.
  - apply Z.ltb_lt in Hres.
    set (K := Z.to_nat (Z.min (_n_jobs self - Z.of_nat (length ps))
                          (Z.of_nat (length (_all_task_ids w))
                           - Z.of_nat (_cursor w)))).
    assert ((1 ≤ K)%nat ∧ (K ≤ pending w)%nat ∧
            Z.of_nat (length ps + K) ≤ _n_jobs self)
      as (HK1 & HK2 & HK3) by (unfold pending, K; lia).
    rewrite bind_unfold.
    match goal with
    | |- context [for_each ?l ?b] =>
        pose proof (hoare_for_each_count
          (λ k w', (refilling self (length vs) k w' ∧ running self vs w') ∧
                   ∃ ps', _working_processes w' = Some ps' ∧
                          (length ps' + k = length ps + K)%nat ∧
                          (pending w' + K = pending w + k)%nat)
          l b (λ _, False)) as Hloop
    end.
    cbv beta in Hloop. rewrite length_seq in Hloop.
    match type of Hloop with
    | ?turn → _ => assert turn as Hturn
    end.
    { intros x k w1 ((Hre1 & Hrun1) & ps1 & Hps1 & Hl1 & Hp1).
      assert (is_Some (_all_task_ids w1 !! _cursor w1)) as [i Hi].
      { apply lookup_lt_is_Some_2. unfold pending in *. lia. }
      rewrite bind_unfold, Hi. cbv beta iota.
      assert (i < length vs)%nat as Hlt_i.
      { destruct Hrun1 as (_ & _ & _ & HF & _).
        eapply (proj1 (Forall_forall _ _) HF), list_elem_of_lookup_2, Hi. }
      rewrite bind_unfold.
      destruct (_get_process_refill k i w1 Hre1 Hrun1 Hlt_i)
        as (pid & w2 & -> & Hs2 & Ha2 & Hr2 & Hrun2 & Hproc & Hal2 & Hcu2 & Hwp2).
      cbv beta iota.
      rewrite bind_unfold, modify_unfold. cbv beta iota.
      rewrite bind_unfold, modify_unfold. cbv beta iota.
      rewrite modify_unfold.
      pose proof (appended_refilling self (length vs) k w2 (Some pid) i
                    Hs2 Ha2 Hr2) as Hre3.
      split; [split; [exact Hre3|]|].
      - destruct Hrun2 as (Hc2 & Hnc2 & Hcov2 & HF2 & [ps2 Hps2] & [ids2 Hids2]).
        eapply (running_advance w2 _ i); try done.
        + simpl. by rewrite Hps2.
        + simpl. by rewrite Hids2.
        + by rewrite Hal2, Hcu2.
      - exists (ps1 ++ [Some pid]). simpl. rewrite Hwp2, Hps1. simpl.
        split; [done|]. rewrite length_app. simpl.
        unfold pending in *. simpl. rewrite Hal2, Hcu2. lia. }
    specialize (Hloop Hturn w). clear Hturn.
    match type of Hloop with
    | ?init → _ => assert init as Hinit
    end.
    { split; [split; [split; [done|split; [done|]]|done]|].
      - split; [by rewrite Hps|]. split; [|lia].
        intros ? Hps'. rewrite Hps in Hps'. by injection Hps' as <-.
      - exists ps. split; [done|]. lia. }
    specialize (Hloop Hinit). clear Hinit.
    destruct (for_each _ _ w) as [[[]| | |] w']; try done.
    destruct Hloop as (((Hs' & _) & Hrun') & ps' & Hps' & Hl' & Hp').
    exists true, w'. split; [done|]. split; [by split|].
    split.
    + unfold work_left. rewrite Hps', Hps. simpl. lia.
    + exists ps'. split; [done|]. destruct ps'; [simpl in *; lia|done].
  - apply Z.ltb_ge in Hres. rewrite ret_unfold.
    exists (0 <? Z.of_nat (length ps)), w. split; [done|]. split; [by split|].
    split; [done|]. exists ps. split; [done|].
    destruct ps as [|p ps']; simpl.
    + split; [done|]. unfold pending. lia.
    + done.
Qed.

(** The main loop of the identity batch ends, with nothing left to do. *)
Lemma main_loop_serving fuel : ∀ w ps,
  serving self vs w → _working_processes w = Some ps → ps ≠ [] →
  (work_left w ≤ fuel)%nat →
  ∃ w', main_loop self identity [vs] sched manager fuel w = (Ok (), w') ∧
        serving self vs w' ∧ _working_processes w' = Some [] ∧
        pending w' = 0%nat.
Proof.
  induction fuel as [|fuel IH]; intros w ps Hs Hps Hne Hfuel.
  { unfold work_left in Hfuel. rewrite Hps in Hfuel.
    destruct ps; [done|simpl in Hfuel; lia]. }
  simpl main_loop. rewrite bind_unfold.
  pose proof (_wait_and_handle_finish_serving w ps Hps Hne w
                (conj Hs (calmer_refl w))) as Hw.
  destruct (_wait_and_handle_finish _ _ _ _ w) as [[[]| | |] w1]; try done.
  destruct Hw as (Hs1 & Ha1 & (ps1 & Hps1 & Hlen1) & Hp1).
  pose proof (sup_jobs _ _ _ _ (proj1 Hs) ps Hps) as Hjobs. simpl in Hjobs.
  destruct (_add_new_processes_serving w1 ps1 Hs1 Ha1 Hps1 ltac:(lia))
    as (more & w2 & Hadd & Hs2 & Hwl & ps2 & Hps2 & Hmore).
  rewrite bind_unfold, Hadd.
  assert (work_left w1 < work_left w)%nat as Hdec.
  { unfold work_left. rewrite Hps, Hps1, Hp1. simpl. lia. }
  destruct more.
  - apply (IH w2 ps2); try done. lia.
  - destruct Hmore as [-> Hp2]. exists w2. by rewrite ret_unfold.
Qed.

Lemma run_child_quiet w pid :
  is_alive w pid = false → run_child self identity w pid = w.
Proof.
  unfold run_child, is_alive.
  destruct (w_procs w !! pid) as [p|]; [|done]. by destruct (p_status p).
Qed.

Lemma run_children_quiet pids w :
  (∀ pid, is_alive w pid = false) → run_children self identity pids w = w.
Proof.
  intros Hq. induction pids as [|pid pids IH]; [done|].
  simpl. by rewrite run_child_quiet.
Qed.

(** [_get_process] on one of the first tasks: the process is created with the
    task's id as pid, and is not started. *)
Lemma _get_process_created a w queue :
  (a < length vs)%nat →
  initializing self (length vs) queue w → clean self vs w →
  length (w_procs w) = a →
  (∀ pid p, w_procs w !! pid = Some p →
            p_task_id p = pid ∧ p_status p = Created) →
  ∃ w', _get_process self identity [vs] sched manager a false w
        = (Ok (Some a), w') ∧
        initializing self (length vs) queue w' ∧ clean self vs w' ∧
        length (w_procs w') = S a ∧
        (∀ pid p, w_procs w' !! pid = Some p →
                  p_task_id p = pid ∧ p_status p = Created).
Proof.
  intros Hlt Hinit Hclean Hlen Hprocs.
  destruct (lookup_lt_is_Some_2 vs a Hlt) as [v Hv].
  pose proof Hclean as (Hsig & Ht & He & Hrec).
  destruct (_get_process_unfold w a v false Hsig Hv) as (w1 & cuda & Hy & Heq).
  rewrite yield_Ok in Hy by done.
  rewrite run_children_quiet in Hy by apply Hinit. injection Hy as <-.
  pose proof (_get_process_initializing self identity [vs] sched manager
                (length vs) queue a w Hinit) as Hi.
  rewrite Heq in Hi |- *. rewrite bind_unfold, !ret_unfold in Hi |- *.
  cbv beta iota in Hi |- *. simpl in Hi |- *. rewrite Hlen.
  eexists. split; [done|]. split; [exact Hi|].
  split; [|split].
  - split; [done|]. split; [done|]. split; [done|].
    intros q p Hq. simpl in Hq. unfold recorded, rs. simpl.
    apply lookup_snoc_Some in Hq as [[_ Hq]|[_ <-]].
    + exact (Hrec q p Hq).
    + exists v. by simpl.
  - simpl. rewrite length_app. simpl. lia.
  - intros q p Hq. simpl in Hq.
    apply lookup_snoc_Some in Hq as [[_ Hq]|[-> <-]].
    + by apply Hprocs.
    + by simpl.
Qed.

Lemma init_processes_created n : ∀ a w queue,
  (a + n ≤ length vs)%nat →
  initializing self (length vs) queue w → clean self vs w →
  length (w_procs w) = a →
  (∀ pid p, w_procs w !! pid = Some p →
            p_task_id p = pid ∧ p_status p = Created) →
  ∃ w', map_M (λ i, _get_process self identity [vs] sched manager i false)
              (seq a n) w
        = (Ok (Some <$> seq a n), w') ∧
        initializing self (length vs) queue w' ∧ clean self vs w' ∧
        length (w_procs w') = (a + n)%nat ∧
        (∀ pid p, w_procs w' !! pid = Some p →
                  p_task_id p = pid ∧ p_status p = Created).
Proof.
  induction n as [|n IH]; intros a w queue Hle Hinit Hclean Hlen Hprocs.
  - exists w. rewrite Nat.add_0_r. by split.
  - simpl map_M. rewrite bind_unfold.
    destruct (_get_process_created a w queue ltac:(lia) Hinit Hclean Hlen Hprocs)
      as (w1 & -> & Hinit1 & Hclean1 & Hlen1 & Hprocs1).
    cbv beta iota. rewrite bind_unfold.
    destruct (IH (S a) w1 queue ltac:(lia) Hinit1 Hclean1 Hlen1 Hprocs1)
      as (w2 & -> & Hinit2 & Hclean2 & Hlen2 & Hprocs2).
    cbv beta iota. rewrite ret_unfold.
    exists w2. split; [done|]. split; [done|]. split; [done|].
    split; [lia|done].
Qed.

Lemma failed_task_ids_none ids : ∀ l : list nat,
  failed_task_ids ids (Some <$> l) = [].
Proof.
  induction ids as [|i ids IH]; intros [|x l]; try done.
  unfold failed_task_ids in *. cbn. apply IH.
Qed.

Lemma mask_failed_all (l : list nat) : mask_failed l (Some <$> l) = Some <$> l.
Proof.
  induction l as [|x l IH]; [done|].
  unfold mask_failed in *. cbn. by rewrite IH.
Qed.

(** The loop that starts the initial processes. *)
Lemma start_all_running l : ∀ w,
  NoDup l → clean self vs w →
  (∀ pid p, w_procs w !! pid = Some p → p_status p = Created → pid ∈ l) →
  (∀ pid, pid ∈ l → ∃ p, w_procs w !! pid = Some p ∧ p_status p = Created) →
  ∃ w', for_each (Some <$> l)
          (λ p, match p with
                | None => mret ()
                | Some pid => start_process pid
                end) w = (Ok (), w') ∧
        clean self vs w' ∧
        (∀ pid p, w_procs w' !! pid = Some p → p_status p ≠ Created) ∧
        (∀ pid p, w_procs w !! pid = Some p →
                  ∃ p', w_procs w' !! pid = Some p' ∧
                        p_task_id p' = p_task_id p) ∧
        _all_task_ids w' = _all_task_ids w ∧ _cursor w' = _cursor w ∧
        _working_processes w' = _working_processes w ∧
        _working_task_ids w' = _working_task_ids w.
Proof.
  induction l as [|pid l IH]; intros w Hnd Hclean Hcr Hl.
  - exists w. split; [done|]. split; [done|]. split.
    + intros pid p Hp Hst. specialize (Hcr pid p Hp Hst). by inversion Hcr.
    + split; [|done]. intros pid p Hp. by exists p.
  - apply NoDup_cons in Hnd as [Hnotin Hnd].
    destruct (Hl pid ltac:(by left)) as (p & Hp & Hst).
    rewrite fmap_cons. cbn [for_each]. rewrite bind_unfold.
    unfold start_process at 1. rewrite Hp, Hst.
    set (w1 := set_history _ _).
    assert (w_procs w1 = <[pid := set_status Alive p]> (w_procs w)) as Hw1
      by done.
    destruct Hclean as (Hsig & Ht & He & Hrec).
    destruct (IH w1) as (w2 & -> & Hclean2 & Hnc2 & Hkeep2 & Hframe); [done|..].
    + split; [done|]. split; [done|]. split; [done|].
      intros q pq Hq. rewrite Hw1 in Hq.
      destruct (decide (q = pid)) as [->|Hne].
      * rewrite list_lookup_insert_eq in Hq by (by eapply lookup_lt_Some).
        injection Hq as <-.
        destruct (Hrec pid p Hp) as (v & Hv & Hargs & Hname & _).
        exists v. by simpl.
      * rewrite list_lookup_insert_ne in Hq by done. exact (Hrec q pq Hq).
    + intros q pq Hq Hstq. rewrite Hw1 in Hq.
      destruct (decide (q = pid)) as [->|Hne].
      * rewrite list_lookup_insert_eq in Hq by (by eapply lookup_lt_Some).
        by injection Hq as <-.
      * rewrite list_lookup_insert_ne in Hq by done.
        specialize (Hcr q pq Hq Hstq).
        by apply elem_of_cons in Hcr as [?|?].
    + intros q Hq. destruct (Hl q ltac:(by right)) as (pq & Hpq & Hstq).
      exists pq. split; [|done]. rewrite Hw1.
      rewrite list_lookup_insert_ne; [done|]. by intros <-.
    + exists w2. split; [done|]. split; [done|]. split; [done|].
      split; [|exact Hframe].
      intros q pq Hq. destruct (decide (q = pid)) as [->|Hne].
      * destruct (Hkeep2 pid (set_status Alive p)) as (p' & Hp' & Hid).
        { rewrite Hw1. rewrite list_lookup_insert_eq; [done|].
          by eapply lookup_lt_Some. }
        exists p'. split; [done|]. rewrite Hid. simpl. congruence.
      * apply Hkeep2. rewrite Hw1. by rewrite list_lookup_insert_ne.
Qed.

(** The [try] block of [__call__] on the identity batch. *)
Lemma batch_body_serving fuel w :
  let n_jobs := Z.min (_n_jobs self) (Z.of_nat (length vs)) in
  1 ≤ _n_jobs self → vs ≠ [] →
  initializing self (length vs)
    (seq (Z.to_nat n_jobs) (length vs - Z.to_nat n_jobs)) w →
  clean self vs w → w_procs w = [] →
  (2 * length vs ≤ fuel)%nat →
  ∃ w', batch_body self identity [vs] sched manager fuel n_jobs w
        = (Ok (), w') ∧
        serving self vs w' ∧ _working_processes w' = Some [] ∧
        pending w' = 0%nat.
Proof.
  intros n_jobs Hj Hne Hinit Hclean Hprocs Hfuel.
  assert (1 ≤ length vs)%nat as Hn by (destruct vs; simpl; [done|lia]).
  unfold batch_body.
  pose proof (initialized_supervised self (length vs)) as Hsup. simpl in Hsup.
  fold n_jobs in Hsup.
  remember (Z.to_nat n_jobs) as nj eqn:Hnj.
  assert (1 ≤ nj ≤ length vs)%nat as Hnj' by (unfold n_jobs in Hnj; lia).
  clear Hnj.
  rewrite bind_unfold.
  destruct (init_processes_created nj 0 w _ ltac:(lia) Hinit Hclean)
    as (w1 & -> & Hinit1 & Hclean1 & Hlen1 & Hprocs1).
  { by rewrite Hprocs. }
  { intros pid p. by rewrite Hprocs. }
  cbv beta iota. rewrite bind_unfold.
  pose proof Hclean1 as (Hsig1 & Ht1 & He1 & Hrec1).
  rewrite Ht1. cbv beta iota.
  rewrite bind_unfold, modify_unfold. cbv beta iota.
  rewrite bind_unfold, modify_unfold. cbv beta iota.
  destruct (Hsup w1 (seq 0 nj) (Some <$> seq 0 nj) Hinit1) as [_ Hs2].
  { by rewrite length_seq. }
  { by rewrite length_fmap. }
  clear Hsup.
  rewrite failed_task_ids_none, mask_failed_all in Hs2 |- *.
  assert (∀ n, (1 ≤ n)%nat →
            Some <$> seq 0 n ≠ [] ∧
            forallb (λ p : option nat,
                       match p with None => true | Some _ => false end)
                    (Some <$> seq 0 n) = false) as Hsome.
  { intros [|n] ?; [lia|done]. }
  destruct (Hsome nj ltac:(lia)) as [Hne0 Hfa]. clear Hsome.
  specialize (Hs2 Hne0).
  destruct (Some <$> seq 0 nj) as [|p0 ps0] eqn:Hps0; [done|].
  rewrite Hfa.
  rewrite bind_unfold, modify_unfold. cbv beta iota. rewrite bind_unfold.
  rewrite <- Hps0 in *. clear Hfa.
  set (w2 := set_working_processes _ _) in *.
  destruct Hinit1 as (_ & Hwp1 & Hwi1 & Hquiet1 & Hall1 & Hcu1).
  destruct (start_all_running (seq 0 nj) w2) as
    (w3 & Hstart & Hclean3 & Hnc3 & Hkeep3 & Hall3 & Hcu3 & Hwp3 & Hwi3).
  { apply NoDup_seq. }
  { done. }
  { intros pid p Hp _. apply elem_of_seq. simpl in Hp.
    apply lookup_lt_Some in Hp. lia. }
  { intros pid Hpid. apply elem_of_seq in Hpid.
    destruct (lookup_lt_is_Some_2 (w_procs w1) pid ltac:(lia)) as [p Hp].
    exists p. split; [done|]. by apply (Hprocs1 pid p). }
  assert (hoare (λ w, supervised self (length vs) [] w ∧
                      _working_processes w = Some (Some <$> seq 0 nj))
            (for_each (Some <$> seq 0 nj)
               (λ p, match p with
                     | None => mret ()
                     | Some pid => start_process pid
                     end))
            (λ _ w, supervised self (length vs) [] w ∧
                    _working_processes w = Some (Some <$> seq 0 nj))
            (supervised self (length vs) [])) as Hstarted.
  { apply hoare_for_each. intros [pid|] Hin.
    - by apply start_process_in_working.
    - by apply hoare_ret. }
  specialize (Hstarted w2 (conj Hs2 eq_refl)).
  rewrite Hstart in Hstarted |- *. destruct Hstarted as [Hs3 Hps3].
  apply (main_loop_serving fuel w3 (Some <$> seq 0 nj)); [|done|done|].
  - split; [done|]. split; [done|]. split; [done|]. split; [|split; [|split]].
    + intros i Hi. rewrite Hall3, Hcu3. simpl. rewrite Hall1.
      destruct (decide (i < nj)%nat) as [Hlt|Hge].
      * right.
        destruct (lookup_lt_is_Some_2 (w_procs w1) i ltac:(lia)) as [p Hp].
        destruct (Hkeep3 i p Hp) as (p' & Hp' & Hid).
        exists i, p'. split; [done|]. rewrite Hid. by apply (Hprocs1 i p).
      * left. rewrite Hcu1. simpl. apply elem_of_seq. lia.
    + rewrite Hall3. simpl. rewrite Hall1. apply Forall_forall.
      intros i Hi. apply elem_of_seq in Hi. lia.
    + by rewrite Hwp3.
    + by rewrite Hwi3.
  - unfold work_left, pending. rewrite Hps3, Hall3, Hcu3. simpl.
    rewrite Hall1, Hcu1, length_seq, length_fmap, length_seq. lia.
Qed.

(** Once the working set and the queue are empty, every task has its value
    in the store. *)
Lemma serving_done w :
  serving self vs w → _working_processes w = Some [] → pending w = 0%nat →
  ∀ i v, vs !! i = Some v → rs w !! default_name self i = Some v.
Proof.
  intros [Hsup ((Hsig & Ht & He & Hrec) & Hnc & Hcov & _)] Hwp Hp i v Hv.
  destruct (Hcov i) as [Hin|(q & p & Hq & Hid)]; [by eapply lookup_lt_Some|..].
  - rewrite drop_ge in Hin by (unfold pending in Hp; lia). by inversion Hin.
  - destruct (Hrec q p Hq) as (v' & Hv' & _ & _ & Hdead).
    rewrite Hid in Hv', Hdead. rewrite Hv in Hv'. injection Hv' as <-.
    apply Hdead. destruct (p_status p) eqn:Hst; [| |done].
    + by destruct (Hnc q p Hq).
    + assert (is_alive w q = true) as Hal
        by (unfold is_alive; by rewrite Hq, Hst).
      destruct (sup_live _ _ _ _ Hsup q Hal) as [Hin|(ps & Hps & Hin)].
      * by inversion Hin.
      * rewrite Hwp in Hps. injection Hps as <-. by inversion Hin.
Qed.

End Identity.

(** (C1, as the code has it) For every non-empty list of values none of which
    is a dict with a truthy [terminate] entry, every [num_jobs] of at least
    one, default task names, off Windows, a resource manager that admits every
    task at once and no interrupt, the batch of [identity] over the list
    returns, however the children are scheduled, with [results[task_name(i)]]
    equal to the [i]-th value for every [i], an empty exceptions map and the
    termination flag false.  Twice as many turns of the main loop as there are
    tasks are enough. *)
Theorem C1_identity_batch self vs sched manager fuel :
  WINDOWS self = false → _task_names self = None →
  1 ≤ _n_jobs self → vs ≠ [] →
  Forall (λ v, terminate_requested v = false) vs →
  admits_at_once manager →
  (2 * length vs ≤ fuel)%nat →
  ∃ w, __call__ self identity [vs] sched manager fuel (new_world None)
       = (Ok (), w) ∧
       (∀ i v, vs !! i = Some v → rs w !! default_name self i = Some v) ∧
       exceptions (rs w) = Ok (VDict ∅) ∧
       terminated (rs w) = Ok false.
Proof.
  intros HW Hnames Hj Hne Hvs Hadm Hfuel.
  unfold __call__. rewrite HW.
  set (n_jobs := Z.min (_n_jobs self) (Z.of_nat (length vs))).
  rewrite bind_unfold, modify_unfold. cbv beta iota.
  rewrite bind_unfold, modify_unfold. cbv beta iota.
  rewrite bind_unfold, modify_unfold. cbv beta iota.
  rewrite bind_unfold.
  match goal with |- context [setup_resources self ?w] =>
    destruct (setup_resources_registers self w) as [kinds ->] end.
  cbv beta iota.
  rewrite bind_unfold, modify_unfold. cbv beta iota.
  match goal with |- context [try_finally _ _ ?w] => set (w0 := w) end.
  assert (initializing self (length vs)
            (seq (Z.to_nat n_jobs) (length vs - Z.to_nat n_jobs)) w0) as Hinit.
  { split; [|done]. constructor.
    - by constructor.
    - done.
    - by intros [].
    - done.
    - done.
    - done.
    - simpl. lia. }
  assert (clean self vs w0) as Hclean.
  { split; [done|]. split; [done|]. split; [done|]. by intros pid p. }
  destruct (batch_body_serving self vs sched manager Hnames Hvs Hadm fuel w0
              Hj Hne Hinit Hclean eq_refl Hfuel)
    as (w1 & Hbody & Hs & Hwp & Hp).
  unfold try_finally, try_except. simpl in Hbody. fold n_jobs in Hbody.
  rewrite Hbody.
  unfold batch_finally. rewrite !bind_unfold. unfold read. rewrite Hwp.
  cbn [join_all for_each].
  exists (set_manager_up false w1). split; [reflexivity|].
  pose proof Hs as [_ ((_ & Ht & He & _) & _)].
  split; [|split].
  - intros i v Hv.
    change (rs (set_manager_up false w1)) with (rs w1).
    by apply (serving_done self vs w1 Hs Hwp Hp i v).
  - change (rs (set_manager_up false w1)) with (rs w1).
    unfold exceptions, rs_get. by rewrite He.
  - done.
Qed.

Lemma C1_identity_batch_witness :
  ∃ w, __call__ (default_parallel 2) identity [[VInt 1; VInt 2; VInt 3]]
         lazy_sched admit_all 6 (new_world None) = (Ok (), w) ∧
       (∀ i v, [VInt 1; VInt 2; VInt 3] !! i = Some v →
               rs w !! default_name (default_parallel 2) i = Some v) ∧
       exceptions (rs w) = Ok (VDict ∅) ∧
       terminated (rs w) = Ok false.
Proof.
  apply (C1_identity_batch (default_parallel 2) [VInt 1; VInt 2; VInt 3]
           lazy_sched admit_all 6).
  - reflexivity.
  - reflexivity.
  - simpl. lia.
  - discriminate.
  - repeat constructor.
  - intros k. split; reflexivity.
  - simpl. lia.
Defined.

(** The claim of the specification fails on a value that is a dict with a
    truthy [terminate] entry: the worker stores the value and sets the flag,
    the parent then takes the batch for terminated by the user, and the batch
    ends with a [base] entry in the exceptions map and the flag true. *)
Lemma C1_counterexample_terminate_value :
  let v := VDict (<["terminate" := VBool true]> ∅) in
  let r := __call__ (default_parallel 1) identity [[v]]
             lazy_sched admit_all 2 (new_world None) in
  r.1 = Ok () ∧
  rs r.2 !! default_name (default_parallel 1) 0 = Some v ∧
  exceptions (rs r.2)
  = Ok (VDict (<["base" := VErr (_ParallelError
                                   "Parallel terminated by user action")]> ∅)) ∧
  terminated (rs r.2) = Ok true.
Proof.
  vm_compute. done.
Qed.

(** Two more batches that end with a [base] entry in the exceptions map: with
    no task, or with no job, there is no initial process, and the unpacking of
    [zip( *init_processes )] raises. *)
Lemma identity_batch_no_initial_process :
  let e := VErr (PyExc "ValueError"
                   "not enough values to unpack (expected 2, got 0)") in
  let r1 := __call__ (default_parallel 2) identity [[]]
              lazy_sched admit_all 2 (new_world None) in
  let r2 := __call__ (default_parallel 0) identity [[VInt 1]]
              lazy_sched admit_all 2 (new_world None) in
  exceptions (rs r1.2) = Ok (VDict (<["base" := e]> ∅)) ∧
  exceptions (rs r2.2) = Ok (VDict (<["base" := e]> ∅)) ∧
  rs r2.2 !! default_name (default_parallel 0) 0 = None.
Proof.
  vm_compute. done.
Qed.

(* ===================================================================== *)
(** * Further properties of the worker adapter and of the store *)

Lemma apply_write_frame w (rs : gmap string pyval) tn k :
  match w with WriteResult t _ => t = tn | _ => True end →
  (k = tn ∨ k = META ∨ k = EXCEPTIONS ∨ apply_write w rs !! k = rs !! k) ∧
  (is_Some (rs !! k) → is_Some (apply_write w rs !! k)).
Proof.
  intros Hw. destruct w as [t v|e|seen]; simpl.
  - subst t. destruct (decide (k = tn)) as [->|Hne].
    + split; [by left|]. intros _. by rewrite lookup_insert_eq.
    + rewrite lookup_insert_ne by done. split; [by repeat right|done].
  - destruct (decide (k = EXCEPTIONS)) as [->|Hne].
    + split; [by right; right; left|]. intros _. by rewrite lookup_insert_eq.
    + rewrite lookup_insert_ne by done. split; [by repeat right|done].
  - destruct (_set_terminate_stale seen rs) as [rs'| | |] eqn:Hs;
      try (split; [by repeat right|done]).
    apply _set_terminate_stale_Ok in Hs as (m & _ & ->).
    destruct (decide (k = META)) as [->|Hne].
    + split; [by right; left|]. intros _. by rewrite lookup_insert_eq.
    + rewrite lookup_insert_ne by done. split; [by repeat right|done].
Qed.

(** (X1) Whatever the function does, a worker changes the store only under
    its own task name and the two reserved keys, and it removes no key. *)
Theorem _inner_writes_own_keys self func tn cuda args s k :
  let rs' := sh_rs (_inner self func tn cuda args s).2 in
  (k = tn ∨ k = META ∨ k = EXCEPTIONS ∨ rs' !! k = sh_rs s !! k) ∧
  (is_Some (sh_rs s !! k) → is_Some (rs' !! k)).
Proof.
  destruct (_inner_writes self func tn cuda args s) as (ws & Hws & Heq).
  simpl. rewrite Heq. clear Heq. generalize (sh_rs s) as rs.
  induction Hws as [|w ws Hw Hws IH]; intros rs; simpl.
  - split; [by repeat right|done].
  - destruct (apply_write_frame w rs tn k Hw) as [Hk Hsome].
    destruct (IH (apply_write w rs)) as [IHk IHsome].
    split; [|auto].
    destruct Hk as [?|[?|[?|Hk]]]; auto.
    destruct IHk as [?|[?|[?|IHk]]]; auto.
    repeat right. by rewrite IHk.
Qed.



(** (X3) When the function ends with something that is not an [Exception]
    (a [KeyboardInterrupt], a [SystemExit]), the worker records nothing: the
    store is as it was, with no result, no entry in [__exceptions__], and
    the flag unchanged. *)
Theorem _inner_silent_on_non_exception self func tn cuda args s err :
  f_call func args (build_kwargs self func tn cuda s).1 = Raises err →
  is_Exception err = false →
  sh_rs (_inner self func tn cuda args s).2 = sh_rs s.
Proof.
  intros Hc Hexc. unfold _inner.
  destruct (terminated (sh_rs s)) as [[|]| | |]; try done.
  destruct (build_kwargs self func tn cuda
              (log_method tn INFO "task started" s)) as [kw s1] eqn:Hb.
  assert (sh_rs s1 = sh_rs s) as Hrs.
  { change s1 with (kw, s1).2. rewrite <- Hb. by rewrite build_kwargs_rs. }
  assert (kw = (build_kwargs self func tn cuda s).1) as ->.
  { change kw with (kw, s1).1. rewrite <- Hb. apply build_kwargs_fst. }
  rewrite Hc, Hexc. by destruct (is_KeyboardInterrupt err).
Qed.

Lemma _inner_silent_on_non_exception_witness :
  let interrupted :=
    PyFunc [("x", POSITIONAL_OR_KEYWORD)] (λ _ _, Raises KeyboardInterrupt) in
  sh_rs (_inner (default_parallel 1) interrupted "task_0" VNone [VInt 1]
           (fresh_shared 1 1)).2
  = sh_rs (fresh_shared 1 1).
Proof.
  apply (_inner_silent_on_non_exception (default_parallel 1)
           (PyFunc [("x", POSITIONAL_OR_KEYWORD)] (λ _ _, Raises KeyboardInterrupt))
           "task_0" VNone [VInt 1] (fresh_shared 1 1) KeyboardInterrupt);
    reflexivity.
Defined.

(** (X4) A worker that starts with the flag clear and whose function returns
    stores the value under its task name and leaves [__exceptions__] as it
    is; it sets the flag exactly when the value is a dict with a truthy
    [terminate] entry, and in that case too the value is stored. *)
Theorem _inner_stores_result self func tn cuda args s r :
  terminated (sh_rs s) = Ok false →
  tn ≠ META → tn ≠ EXCEPTIONS →
  f_call func args (build_kwargs self func tn cuda s).1 = Returns r →
  let s' := (_inner self func tn cuda args s).2 in
  sh_rs s' !! tn = Some r ∧
  sh_rs s' !! EXCEPTIONS = sh_rs s !! EXCEPTIONS ∧
  terminated (sh_rs s') = Ok (terminate_requested r).
Proof.
  intros Ht Hn1 Hn2 Hc. unfold _inner. rewrite Ht.
  destruct (build_kwargs self func tn cuda
              (log_method tn INFO "task started" s)) as [kw s1] eqn:Hb.
  assert (sh_rs s1 = sh_rs s) as Hrs.
  { change s1 with (kw, s1).2. rewrite <- Hb. by rewrite build_kwargs_rs. }
  assert (kw = (build_kwargs self func tn cuda s).1) as ->.
  { change kw with (kw, s1).1. rewrite <- Hb. apply build_kwargs_fst. }
  rewrite Hc.
  destruct (terminated_Ok_inv _ _ Ht) as (m & v & Hm & Hv & Htr).
  unfold finish_inner. destruct (terminate_requested r); simpl.
  - rewrite (_set_terminate_defined _ m) by (by rewrite lookup_insert_ne, Hrs).
    simpl. split; [|split].
    + by rewrite lookup_insert_ne, lookup_insert_eq.
    + rewrite !lookup_insert_ne by done. by rewrite Hrs.
    + apply terminated_set.
  - split; [by rewrite lookup_insert_eq|]. split.
    + rewrite lookup_insert_ne by done. by rewrite Hrs.
    + by rewrite terminated_insert_other, Hrs.
Qed.

Lemma _inner_stores_result_witness :
  let v := VDict (<["terminate" := VBool true]> ∅) in
  let s' := (_inner (default_parallel 1) identity "task_0" VNone [v]
               (fresh_shared 1 1)).2 in
  sh_rs s' !! "task_0" = Some v ∧
  sh_rs s' !! EXCEPTIONS = sh_rs (fresh_shared 1 1) !! EXCEPTIONS ∧
  terminated (sh_rs s') = Ok (terminate_requested v).
Proof.
  apply (_inner_stores_result (default_parallel 1) identity "task_0" VNone
           [VDict (<["terminate" := VBool true]> ∅)] (fresh_shared 1 1));
    [reflexivity | discriminate | discriminate | reflexivity].
Defined.

(** (X5) With no names supplied, different task ids get different task
    names, and no task name is one of the two reserved keys of the store. *)
Theorem _get_task_name_default_injective self i j :
  _task_names self = None →
  (_get_task_name self (Some i) = _get_task_name self (Some j) → i = j) ∧
  _get_task_name self (Some i) ≠ Ok (Some META) ∧
  _get_task_name self (Some i) ≠ Ok (Some EXCEPTIONS).
Proof.
  intros Hn. rewrite !_get_task_name_default by done.
  split; [|split].
  - intros H. apply (default_name_inj self). congruence.
  - intros H. destruct (default_name_not_reserved self i). congruence.
  - intros H. destruct (default_name_not_reserved self i). congruence.
Qed.

Lemma _get_task_name_default_injective_witness :
  (_get_task_name (default_parallel 2) (Some 3%nat)
   = _get_task_name (default_parallel 2) (Some 4%nat) → 3%nat = 4%nat) ∧
  _get_task_name (default_parallel 2) (Some 3%nat) ≠ Ok (Some META) ∧
  _get_task_name (default_parallel 2) (Some 3%nat) ≠ Ok (Some EXCEPTIONS).
Proof.
  apply (_get_task_name_default_injective (default_parallel 2) 3 4).
  reflexivity.
Defined.

(** (X6) [_set_terminate] changes nothing but the [terminated] entry of the
    [__meta__] record, which it sets, and doing it again changes nothing. *)
Theorem _set_terminate_idempotent (rs rs' : gmap string pyval) :
  _set_terminate rs = Ok rs' →
  _set_terminate rs' = Ok rs' ∧
  terminated rs' = Ok true ∧
  (∀ k, k ≠ META → rs' !! k = rs !! k) ∧
  (∀ key, key ≠ "terminated" →
          getitem (default VNone (rs' !! META)) key
          = getitem (default VNone (rs !! META)) key).
Proof.
  intros H. apply _set_terminate_Ok in H as (m & Hm & ->).
  split; [|split; [|split]].
  - rewrite (_set_terminate_defined _ (<["terminated" := VBool true]> m))
      by (by rewrite lookup_insert_eq).
    by rewrite !insert_insert_eq.
  - apply terminated_set.
  - intros k Hk. by rewrite lookup_insert_ne.
  - intros key Hk. rewrite lookup_insert_eq, Hm. simpl.
    by rewrite lookup_insert_ne.
Qed.

Lemma _set_terminate_idempotent_witness :
  let rs' := <[META := VDict (<["terminated" := VBool true]>
                                (<["n_jobs" := VInt 1]>
                                   (<["n_tasks" := VInt 1]>
                                      (<["terminated" := VBool false]> ∅))))]>
               (init_rs 1 1) in
  _set_terminate rs' = Ok rs' ∧
  terminated rs' = Ok true ∧
  (∀ k, k ≠ META → rs' !! k = init_rs 1 1 !! k) ∧
  (∀ key, key ≠ "terminated" →
          getitem (default VNone (rs' !! META)) key
          = getitem (default VNone (init_rs 1 1 !! META)) key).
Proof.
  apply (_set_terminate_idempotent (init_rs 1 1)). reflexivity.
Defined.

(* ===================================================================== *)
(** * Further properties of the wait and of the pops *)






Lemma keep_unmasked_filter {X} (f : X → bool) (l : list X) :
  keep_unmasked (f <$> l) l = filter (λ x, f x = false) l.
Proof.
  induction l as [|x l IH]; [done|].
  rewrite fmap_cons, filter_cons. cbn [keep_unmasked].
  destruct (f x) eqn:Hx.
  - rewrite decide_False by done. apply IH.
  - rewrite decide_True by done. by rewrite IH.
Qed.

Lemma keep_unmasked_zip {X Y} (f : Y → bool) : ∀ (l : list X) (k : list Y),
  length l = length k →
  keep_unmasked (f <$> k) l = (filter (λ s, f s.2 = false) (zip l k)).*1.
Proof.
  induction l as [|x l IH]; intros [|y k] Hlen; try done.
  simpl in Hlen. rewrite fmap_cons. cbn [keep_unmasked zip zip_with].
  rewrite filter_cons. cbn [snd]. destruct (f y) eqn:Hy.
  - rewrite decide_False by done. apply IH. lia.
  - rewrite decide_True by done. rewrite fmap_cons. cbn [fst].
    by rewrite IH by lia.
Qed.

(** (X8) The pops of [_wait_and_handle_finish], made from the last finished
    slot to the first, remove exactly the slots the poll found finished: the
    processes left are those not finished, in their order, and the task ids
    left are theirs. *)
Theorem pops_keep_unfinished self w ids ps fs :
  _working_task_ids w = Some ids → _working_processes w = Some ps →
  length ids = length ps →
  poll self w = (Ok fs, w) →
  _working_processes (popped fs w)
  = Some (filter (λ p, slot_finished w p = false) ps) ∧
  _working_task_ids (popped fs w)
  = Some (filter (λ s, slot_finished w s.2 = false) (zip ids ps)).*1.
Proof.
  intros Hids Hps Hlen Hpoll. unfold poll in Hpoll. rewrite Hids, Hps in Hpoll.
  destruct (working_names self ids); try done.
  assert (poll_slots self w 0 (zip ids ps) = Ok fs) as Hslots by congruence.
  apply poll_slots_indices in Hslots.
  assert (((λ s : option nat * option nat, slot_finished w s.2) <$> zip ids ps)
          = slot_finished w <$> ps) as Hm.
  { rewrite <- (snd_zip ids ps) at 2 by lia. by rewrite <- list_fmap_compose. }
  rewrite Hm in Hslots. subst fs.
  unfold popped. simpl. rewrite Hids, Hps. simpl.
  rewrite !pop_slots_indices. split.
  - by rewrite keep_unmasked_filter.
  - rewrite keep_unmasked_zip by done. done.
Qed.

Lemma pops_keep_unfinished_witness :
  let w := set_procs [Process 0 "task_0" VNone [VInt 7] Dead;
                      Process 1 "task_1" VNone [VInt 8] Alive]
             (set_working_task_ids (Some [Some 0%nat; Some 1%nat])
                (set_working_processes (Some [Some 0%nat; Some 1%nat])
                   one_live_child)) in
  _working_processes (popped [0%nat] w)
  = Some (filter (λ p, slot_finished w p = false) [Some 0%nat; Some 1%nat]) ∧
  _working_task_ids (popped [0%nat] w)
  = Some (filter (λ s, slot_finished w s.2 = false)
            (zip [Some 0%nat; Some 1%nat] [Some 0%nat; Some 1%nat])).*1.
Proof.
  apply (pops_keep_unfinished (default_parallel 2)); reflexivity.
Defined.

(* ===================================================================== *)
(** * Further properties of [__call__] *)

(** (X9) A batch with no task, or with a number of jobs that is not positive,
    has no initial process: whatever the function, the scheduling, the
    resource manager and the interrupt, [__call__] starts no worker, the
    unpacking of the empty [zip] raises, and the call returns with that
    [ValueError] under [base] in the exceptions map. *)
Theorem batch_without_initial_process self func args rest sched manager fuel
  interrupt :
  WINDOWS self = false →
  Z.min (_n_jobs self) (Z.of_nat (length args)) ≤ 0 →
  ∃ w, __call__ self func (args :: rest) sched manager fuel
         (new_world interrupt) = (Ok (), w) ∧
       w_procs w = [] ∧
       exceptions (rs w)
       = Ok (VDict (<["base" := VErr (PyExc "ValueError"
                        "not enough values to unpack (expected 2, got 0)")]> ∅)) ∧
       terminated (rs w) = Ok false.
Proof.
  intros HW Hj. unfold __call__. rewrite HW.
  set (n_jobs := Z.min (_n_jobs self) (Z.of_nat (length args))) in *.
  assert (Z.to_nat n_jobs = 0%nat) as Hz by lia.
  rewrite bind_unfold, modify_unfold. cbv beta iota.
  rewrite bind_unfold, modify_unfold. cbv beta iota.
  rewrite bind_unfold, modify_unfold. cbv beta iota.
  rewrite bind_unfold.
  match goal with |- context [setup_resources self ?w] =>
    destruct (setup_resources_registers self w) as [kinds ->] end.
  cbv beta iota.
  rewrite bind_unfold, modify_unfold. cbv beta iota.
  unfold try_finally, try_except, batch_body. rewrite Hz.
  cbn [seq map_M]. rewrite bind_unfold, ret_unfold. cbv beta iota.
  rewrite bind_unfold.
  match goal with |- context [terminated (rs ?w)] => set (w0 := w) end.
  assert (terminated (rs w0) = Ok false) as -> by reflexivity.
  eexists. split; [reflexivity|]. split; [reflexivity|].
  split; reflexivity.
Qed.

Lemma batch_without_initial_process_witness :
  ∃ w, __call__ (default_parallel 0) identity [[VInt 1]] lazy_sched admit_all 2
         (new_world None) = (Ok (), w) ∧
       w_procs w = [] ∧
       exceptions (rs w)
       = Ok (VDict (<["base" := VErr (PyExc "ValueError"
                        "not enough values to unpack (expected 2, got 0)")]> ∅)) ∧
       terminated (rs w) = Ok false.
Proof.
  apply (batch_without_initial_process (default_parallel 0) identity
           [VInt 1] [] lazy_sched admit_all 2 None).
  - reflexivity.
  - simpl. lia.
Defined.










(** ** The Windows branch *)

Lemma pool_names self : ∀ n a w,
  _task_names self = None →
  map_M (λ i, lift (_get_task_name self (Some i))) (seq a n) w
  = (Ok ((λ i, Some (default_name self i)) <$> seq a n), w).
Proof.
  induction n as [|n IH]; intros a w Hn; [done|].
  cbn [seq map_M]. rewrite bind_unfold. unfold lift at 1.
  rewrite _get_task_name_default by done. cbv beta iota.
  rewrite bind_unfold, IH by done. done.
Qed.

Lemma rows_column (vs : list pyval) : ∀ n a,
  (a + n ≤ length vs)%nat →
  rows [vs] n a = (λ v, [v]) <$> take n (drop a vs).
Proof.
  induction n as [|n IH]; intros a Hle; [done|].
  destruct (lookup_lt_is_Some_2 vs a ltac:(lia)) as [v Hv].
  cbn [rows row]. rewrite Hv. rewrite IH by lia.
  rewrite (drop_S _ _ _ Hv). done.
Qed.

Lemma pool_results func (g : pyval → pyval) (vs : list pyval) w :
  (∀ v, v ∈ vs → f_call func [v] ∅ = Returns (g v)) →
  map_M (λ args, match f_call func args ∅ with
                 | Returns v => mret v
                 | Raises e => raise e
                 end) ((λ v, [v]) <$> vs) w
  = (Ok (g <$> vs), w).
Proof.
  induction vs as [|v vs IH]; intros Hf; [done|].
  rewrite fmap_cons. cbn [map_M]. rewrite bind_unfold.
  rewrite (Hf v) by (by left). rewrite ret_unfold. cbv beta iota.
  rewrite bind_unfold, IH; [done|]. intros v' Hv'. apply Hf. by right.
Qed.

Lemma pool_store_other (l : list (option string * pyval)) : ∀ m k,
  k ∉ (λ kv, default "" kv.1) <$> l →
  foldl (λ (m : gmap string pyval) '(k, v), <[default "" k := v]> m) m l !! k
  = m !! k.
Proof.
  induction l as [|[ko v] l IH]; intros m k Hk; [done|].
  rewrite fmap_cons, not_elem_of_cons in Hk. destruct Hk as [Hne Hk].
  cbn [foldl]. rewrite IH by done. by rewrite lookup_insert_ne.
Qed.

Lemma pool_store_lookup (l : list (option string * pyval)) : ∀ m i ko v,
  NoDup ((λ kv, default "" kv.1) <$> l) →
  l !! i = Some (ko, v) →
  foldl (λ (m : gmap string pyval) '(k, v), <[default "" k := v]> m) m l
    !! default "" ko = Some v.
Proof.
  induction l as [|[ko' v'] l IH]; intros m i ko v Hnd Hi; [done|].
  rewrite fmap_cons in Hnd. apply NoDup_cons in Hnd as [Hnotin Hnd].
  destruct i as [|i]; cbn [foldl].
  - injection Hi as -> ->. rewrite pool_store_other by done.
    by rewrite lookup_insert_eq.
  - by apply (IH _ i).
Qed.

Lemma pool_keys self (ids : list nat) : ∀ results : list pyval,
  length ids = length results →
  (λ kv : option string * pyval, default "" kv.1)
    <$> zip ((λ i, Some (default_name self i)) <$> ids) results
  = default_name self <$> ids.
Proof.
  induction ids as [|i ids IH]; intros [|r results] Hlen; try done.
  simpl in Hlen. rewrite !fmap_cons. cbn [zip zip_with].
  rewrite fmap_cons. cbn [fst default from_option]. rewrite IH by lia. done.
Qed.

(** (X12) On Windows the batch is a plain map over a pool (of at least one
    process, for at least one task): when the function returns on every
    value, [__call__] returns with each result under its task name, also a
    result that is a dict with a truthy [terminate] entry; and the store has
    no reserved record, so that [terminated] and [exceptions] raise
    [KeyError]. *)
Theorem windows_batch_results self func (g : pyval → pyval) vs sched manager
  fuel w0 :
  WINDOWS self = true → _task_names self = None →
  1 ≤ Z.min (_n_jobs self) (Z.of_nat (length vs)) →
  (∀ v, v ∈ vs → f_call func [v] ∅ = Returns (g v)) →
  ∃ w, __call__ self func [vs] sched manager fuel w0 = (Ok (), w) ∧
       (∀ i v name, vs !! i = Some v →
                    _get_task_name self (Some i) = Ok (Some name) →
                    rs w !! name = Some (g v)) ∧
       terminated (rs w) = Raise (PyExc "KeyError" META) ∧
       exceptions (rs w) = Raise (PyExc "KeyError" EXCEPTIONS).
Proof.
  intros HW Hn _ Hf. unfold __call__. rewrite HW. unfold pool_map.
  rewrite bind_unfold, pool_names by done. cbv beta iota.
  rewrite bind_unfold, rows_column by (simpl; lia).
  rewrite drop_0, firstn_all, (pool_results func g vs) by done.
  cbv beta iota. rewrite modify_unfold.
  eexists. split; [reflexivity|].
  set (names := (λ i, Some (default_name self i)) <$> seq 0 (length vs)).
  assert ((λ kv : option string * pyval, default "" kv.1)
            <$> zip names (g <$> vs)
          = default_name self <$> seq 0 (length vs)) as Hkeys.
  { apply pool_keys. by rewrite length_fmap, length_seq. }
  assert (∀ k, (∀ i, k ≠ default_name self i) →
               rs (set_shared
                     (Shared (foldl (λ (m : gmap string pyval) '(k, v),
                                       <[default "" k := v]> m) ∅
                                (zip names (g <$> vs)))
                             (sh_logs (w_shared w0))) w0) !! k = None)
    as Hnone.
  { intros k Hk. unfold rs. simpl. rewrite pool_store_other; [done|].
    rewrite Hkeys. intros Hin. apply list_elem_of_fmap in Hin as (i & -> & _).
    by apply (Hk i). }
  split; [|split].
  - intros i v name Hv Hname.
    rewrite _get_task_name_default in Hname by done.
    injection Hname as <-. unfold rs. simpl.
    apply (pool_store_lookup _ ∅ i (Some (default_name self i)) (g v)).
    + rewrite Hkeys. apply NoDup_fmap_2_strong; [|apply NoDup_seq].
      intros ? ? _ _. apply default_name_inj.
    + apply lookup_zip_with_Some. exists (Some (default_name self i)), (g v).
      split; [done|]. split.
      * unfold names. rewrite list_lookup_fmap, lookup_seq_lt; [done|].
        by eapply lookup_lt_Some.
      * by rewrite list_lookup_fmap, Hv.
  - unfold terminated, meta, rs_get. rewrite Hnone; [done|].
    intros i. by destruct (default_name_not_reserved self i).
  - unfold exceptions, rs_get. rewrite Hnone; [done|].
    intros i. by destruct (default_name_not_reserved self i).
Qed.

Lemma windows_batch_results_witness :
  let self := MkParallel 2 false None "" (ResourceConfig None None) true in
  let vs := [VInt 1; VDict (<["terminate" := VBool true]> ∅)] in
  ∃ w, __call__ self identity [vs] lazy_sched admit_all 0 (new_world None)
       = (Ok (), w) ∧
       (∀ i v name, vs !! i = Some v →
                    _get_task_name self (Some i) = Ok (Some name) →
                    rs w !! name = Some (id v)) ∧
       terminated (rs w) = Raise (PyExc "KeyError" META) ∧
       exceptions (rs w) = Raise (PyExc "KeyError" EXCEPTIONS).
Proof.
  apply (windows_batch_results
           (MkParallel 2 false None "" (ResourceConfig None None) true)
           identity id).
  - reflexivity.
  - reflexivity.
  - simpl. lia.
  - intros v _. reflexivity.
Defined.

(* ===================================================================== *)
(** * Further properties of [HPOBase.search] *)

(** The parameters [search] tries are the first ones of the enumeration. *)
Lemma search_all_params_take {A} (draws : nat → nat) (n_params num_search : Z)
  (generated : list A) :
  0 ≤ num_search ≤ n_params →
  n_params = Z.of_nat (length generated) →
  ∃ ids, search_all_params draws n_params num_search generated
         = Ok (ids, take (Z.to_nat num_search) generated).
Proof.
  intros Hns Hn. unfold search_all_params.
  rewrite Z.gtb_ltb, (proj2 (Z.ltb_ge n_params num_search)) by lia.
  destruct (random_sample_all draws (py_range num_search))
    as (picked & Hp & Hperm).
  unfold py_range in *. rewrite length_seq, Z2Nat.id in Hp by lia.
  rewrite Hp. eexists. f_equal. f_equal.
  set (n := Z.to_nat num_search) in *.
  assert (∀ i, i ∈ (list_to_set picked : gset nat) ↔ (i < n)%nat) as Hset.
  { intros i. rewrite elem_of_list_to_set, Hperm, elem_of_seq. lia. }
  replace num_search with (Z.of_nat n) by lia.
  destruct (decide (n = 0%nat)) as [Hz|Hz].
  - rewrite Hz. destruct generated as [|p rest]; [done|].
    simpl. rewrite decide_False; [done|]. rewrite Hset. lia.
  - rewrite (select_params_prefix _ n); [by rewrite Nat.sub_0_r|done|done|lia|lia].
Qed.

Lemma dict_zip_snoc {V} (keys : list string) (values : list V) k v :
  length keys = length values →
  dict_zip (keys ++ [k]) (values ++ [v]) = <[k := v]> (dict_zip keys values).
Proof.
  intros Hlen. unfold dict_zip.
  rewrite zip_with_app by done. by rewrite foldl_app.
Qed.

Lemma dict_zip_last {V} (keys : list string) (values : list V) k v :
  length keys = length values →
  last keys = Some k → last values = Some v →
  dict_zip keys values !! k = Some v.
Proof.
  intros Hlen Hk Hv.
  apply last_Some in Hk as [keys' ->]. apply last_Some in Hv as [values' ->].
  rewrite !length_app in Hlen. simpl in Hlen.
  rewrite dict_zip_snoc by lia. by rewrite lookup_insert_eq.
Qed.

(** (X13) After a search of [num_search ≥ 1] parameter sets of a finite
    space, [last_params] is the last parameter set tried, the
    [num_search]-th of the enumeration, also when the codes of different
    parameter sets collide. *)
Theorem search_last_params {A P} (str : A → string)
  (hash_code : string → string) (_core : A → outcome P)
  (parallel_patterns : Z → list A → outcome (list P)) (draws : nat → nat)
  (num_search n_params num_jobs : Z) (generated : list A) (st : searched A P) :
  1 ≤ num_search ≤ n_params →
  n_params = Z.of_nat (length generated) →
  search_finite str hash_code _core parallel_patterns draws
    (CountNum num_search) n_params num_jobs generated = Ok st →
  ∃ params,
    generated !! (Z.to_nat num_search - 1)%nat = Some params ∧
    last_params st = Ok params ∧
    last_code st = hash_code (str params).
Proof.
  intros Hns Hn Hst. unfold search_finite in Hst.
  destruct (search_all_params_take draws n_params num_search generated
              ltac:(lia) Hn) as [ids Hall].
  rewrite Hall in Hst.
  set (all_params := take (Z.to_nat num_search) generated) in *.
  destruct (if _ <=? 1 then _ else _) as [computed| | |]; try done.
  destruct (last _) as [code|] eqn:Hcode; [|done].
  injection Hst as <-.
  rewrite fmap_last in Hcode.
  destruct (last all_params) as [params|] eqn:Hlast; [|done].
  injection Hcode as <-. exists params. split; [|split].
  - rewrite last_lookup in Hlast. unfold all_params in Hlast.
    rewrite length_take in Hlast. apply lookup_take_Some in Hlast as [Hl _].
    replace (Z.to_nat num_search - 1)%nat
      with (pred (Z.to_nat num_search `min` length generated)) by lia.
    done.
  - unfold last_params. simpl.
    rewrite (dict_zip_last _ all_params (hash_code (str params)) params).
    + done.
    + by rewrite length_fmap.
    + by rewrite fmap_last, Hlast.
    + done.
  - done.
Qed.

Lemma search_last_params_witness :
  let st : searched Z Z :=
    Searched (dict_zip ["10"; "20"] [10; 20]) (dict_zip ["10"; "20"] [10; 20])
             "20" in
  ∃ params,
    [10; 20; 30] !! (Z.to_nat 2 - 1)%nat = Some params ∧
    last_params st = Ok params ∧
    last_code st = pretty params.
Proof.
  apply (search_last_params (pretty : Z → string) (λ s, s) (λ p, Ok p)
           (λ _ l, Ok l) (λ _, 0%nat) 2 3 1 [10; 20; 30]).
  - lia.
  - reflexivity.
  - vm_compute. reflexivity.
Defined.

(** (X14) A search whose number of searches, after the clamp to the size of
    the space, is zero fails with an [IndexError] at [codes[-1]], after it
    has searched nothing (so does every search over an empty space, also
    with 'all'); one with a negative number fails in [random.sample]. *)
Theorem search_finite_without_search {A P} (str : A → string)
  (hash_code : string → string) (_core : A → outcome P)
  (parallel_patterns : Z → list A → outcome (list P)) (draws : nat → nat)
  (num_search : search_count) (requested n_params num_jobs : Z)
  (generated : list A) :
  num_search = CountNum requested ∨
  (num_search = CountStr "all" ∧ requested = n_params) →
  (Z.min requested n_params = 0 →
   search_finite str hash_code _core parallel_patterns draws num_search
     n_params num_jobs generated
   = Raise (PyExc "IndexError" "list index out of range")) ∧
  (Z.min requested n_params < 0 →
   search_finite str hash_code _core parallel_patterns draws num_search
     n_params num_jobs generated
   = Raise (PyExc "ValueError"
              "Sample larger than population or is negative")).
Proof.
  intros Hreq.
  assert (search_finite str hash_code _core parallel_patterns draws num_search
            n_params num_jobs generated
          = search_finite str hash_code _core parallel_patterns draws
              (CountNum requested) n_params num_jobs generated) as ->.
  { destruct Hreq as [->|[-> ->]]; done. }
  unfold search_finite, search_all_params.
  set (ns := if requested >? n_params then n_params else requested).
  assert (ns = Z.min requested n_params) as Hns.
  { unfold ns. destruct (Z.gtb_spec requested n_params); lia. }
  split; intros Hmin; rewrite <- Hns in Hmin.
  - rewrite Hmin. simpl.
    assert (select_params (∅ : gset nat) 0 0 generated [] = []) as Hsel.
    { destruct generated as [|p rest]; [done|].
      simpl. rewrite decide_False; [done|]. set_solver. }
    unfold random_sample, py_range. simpl. rewrite Hsel.
    rewrite (proj2 (Z.leb_le (Z.min 0 num_jobs) 1)) by lia. done.
  - unfold random_sample.
    rewrite (proj2 (Z.ltb_lt ns 0)) by lia. done.
Qed.

Lemma search_finite_without_search_witness :
  (Z.min 0 0 = 0 →
   search_finite (pretty : Z → string) (λ s, s) (λ p, Ok p) (λ _ l, Ok l)
     (λ _, 0%nat) (CountStr "all") 0 4 ([] : list Z)
   = Raise (PyExc "IndexError" "list index out of range")) ∧
  (Z.min 0 0 < 0 →
   search_finite (pretty : Z → string) (λ s, s) (λ p, Ok p) (λ _ l, Ok l)
     (λ _, 0%nat) (CountStr "all") 0 4 ([] : list Z)
   = Raise (PyExc "ValueError"
              "Sample larger than population or is negative")).
Proof.
  apply (search_finite_without_search (pretty : Z → string) (λ s, s)
           (λ p, Ok p) (λ _ l, Ok l) (λ _, 0%nat) (CountStr "all") 0 0 4 []).
  right. split; reflexivity.
Defined.

Lemma dict_zip_fold_other {V} (l : list (string * V)) : ∀ (m : gmap string V) k,
  k ∉ l.*1 →
  foldl (λ d kv, <[kv.1 := kv.2]> d) m l !! k = m !! k.
Proof.
  induction l as [|[k' v'] l IH]; intros m k Hk; [done|].
  rewrite fmap_cons, not_elem_of_cons in Hk. destruct Hk as [Hne Hk].
  cbn [foldl]. rewrite IH by done. by rewrite lookup_insert_ne.
Qed.

Lemma dict_zip_fold_lookup {V} (l : list (string * V)) :
  ∀ (m : gmap string V) i k v,
  NoDup l.*1 → l !! i = Some (k, v) →
  foldl (λ d kv, <[kv.1 := kv.2]> d) m l !! k = Some v.
Proof.
  induction l as [|[k' v'] l IH]; intros m i k v Hnd Hi; [done|].
  rewrite fmap_cons in Hnd. apply NoDup_cons in Hnd as [Hnotin Hnd].
  destruct i as [|i]; cbn [foldl].
  - injection Hi as -> ->. rewrite dict_zip_fold_other by done.
    by rewrite lookup_insert_eq.
  - by apply (IH _ i).
Qed.

Lemma dict_zip_lookup {V} (keys : list string) (values : list V) i k v :
  NoDup keys → length keys = length values →
  keys !! i = Some k → values !! i = Some v →
  dict_zip keys values !! k = Some v.
Proof.
  intros Hnd Hlen Hk Hv. unfold dict_zip.
  apply (dict_zip_fold_lookup _ ∅ i).
  - by rewrite fst_zip by lia.
  - apply lookup_zip_with_Some. by exists k, v.
Qed.

Lemma map_core_Forall2 {A P} (_core : A → outcome P) (l : list A) :
  ∀ computed, map_core _core l = Ok computed →
              Forall2 (λ params r, _core params = Ok r) l computed.
Proof.
  induction l as [|params l IH]; intros computed H; simpl in H.
  - injection H as <-. constructor.
  - destruct (_core params) as [r| | |] eqn:Hr; try done.
    destruct (map_core _core l) as [rs| | |]; try done.
    injection H as <-. constructor; [done|by apply IH].
Qed.

(** (X15) When the codes of the parameter sets tried are distinct, each of
    them is found in [param_mapping] under its code; and if the search ran
    with one job, [patterns] holds under that code what [_core] returned for
    it. *)
Theorem search_param_mapping {A P} (str : A → string)
  (hash_code : string → string) (_core : A → outcome P)
  (parallel_patterns : Z → list A → outcome (list P)) (draws : nat → nat)
  (num_search n_params num_jobs : Z) (generated : list A) (st : searched A P)
  (i : nat) (params : A) :
  1 ≤ num_search ≤ n_params →
  n_params = Z.of_nat (length generated) →
  NoDup ((λ params, hash_code (str params))
           <$> take (Z.to_nat num_search) generated) →
  search_finite str hash_code _core parallel_patterns draws
    (CountNum num_search) n_params num_jobs generated = Ok st →
  (i < Z.to_nat num_search)%nat → generated !! i = Some params →
  param_mapping st !! hash_code (str params) = Some params ∧
  (Z.min num_search num_jobs ≤ 1 →
   ∃ r, _core params = Ok r ∧
        patterns st !! hash_code (str params) = Some r).
Proof.
  intros Hns Hn Hnd Hst Hi Hp. unfold search_finite in Hst.
  destruct (search_all_params_take draws n_params num_search generated
              ltac:(lia) Hn) as [ids Hall].
  rewrite Hall in Hst.
  rewrite Z.gtb_ltb, (proj2 (Z.ltb_ge n_params num_search)) in Hst by lia.
  set (all_params := take (Z.to_nat num_search) generated) in *.
  assert (all_params !! i = Some params) as Hpi.
  { unfold all_params. by rewrite lookup_take_lt. }
  destruct (if _ <=? 1 then _ else _) as [computed| | |] eqn:Hc; try done.
  destruct (last _) as [code|]; [|done].
  injection Hst as <-. simpl. split.
  - apply (dict_zip_lookup _ _ i); [done|by rewrite length_fmap| |done].
    by rewrite list_lookup_fmap, Hpi.
  - intros Hj. rewrite (proj2 (Z.leb_le _ 1) Hj) in Hc.
    apply map_core_Forall2 in Hc.
    destruct (Forall2_lookup_l _ _ _ i params Hc Hpi) as (r & Hr & Hcore).
    exists r. split; [done|].
    apply (dict_zip_lookup _ _ i); [done| |by rewrite list_lookup_fmap, Hpi|done].
    rewrite length_fmap. by apply Forall2_length in Hc.
Qed.

Lemma search_param_mapping_witness :
  let st : searched Z Z :=
    Searched (dict_zip ["10"; "20"] [10; 20]) (dict_zip ["10"; "20"] [11; 21])
             "20" in
  param_mapping st !! pretty 10 = Some 10 ∧
  (Z.min 2 1 ≤ 1 →
   ∃ r, Ok (10 + 1) = Ok r ∧ patterns st !! pretty 10 = Some r).
Proof.
  apply (search_param_mapping (pretty : Z → string) (λ s, s)
           (λ p, Ok (p + 1)) (λ _ l, Ok l) (λ _, 0%nat) 2 3 1 [10; 20; 30]
           (Searched (dict_zip ["10"; "20"] [10; 20])
                     (dict_zip ["10"; "20"] [11; 21]) "20") 0 10).
  - lia.
  - reflexivity.
  - change (NoDup ["10"; "20"]). by apply (bool_decide_unpack _).
  - vm_compute. reflexivity.
  - simpl. lia.
  - reflexivity.
Defined.

(* ===================================================================== *)
(** * Further properties of [CubeNormalizer] *)

Lemma index_lookup {A} `{EqDecision A} (choices : list A) (v : A) i :
  CubeNormalizer.index choices v = Some i →
  choices !! i = Some v ∧ (i < length choices)%nat.
Proof.
  revert i. induction choices as [|c rest IH]; intros i H; [done|].
  simpl in H. destruct (decide (c = v)) as [->|Hne].
  - injection H as <-. split; [done|simpl; lia].
  - destruct (CubeNormalizer.index rest v) as [j|] eqn:Hj; [|done].
    injection H as <-. destruct (IH j eq_refl) as [Hl Hlt].
    split; [done|simpl; lia].
Qed.








(** (X19) Under a rounding that keeps the order and is exact on [0] and [1],
    what [normalize] returns for a choice lies within [bounds]. *)
Theorem normalize_within_bounds {A} `{EqDecision A} (fl : Q → Q)
  (choices : list A) (v : A) (q : Q) :
  monotone_rounding fl →
  CubeNormalizer.normalize fl choices v = Ok q →
  (CubeNormalizer.bounds.1 <= q)%Q ∧ (q <= CubeNormalizer.bounds.2)%Q.
Proof.
  intros (Hmono & H0 & H1) Hn. unfold CubeNormalizer.normalize in Hn.
  destruct (CubeNormalizer.index choices v) as [i|] eqn:Hi; [|done].
  apply index_lookup in Hi as [_ Hlt].
  destruct (Z.eqb_spec (Z.of_nat (length choices) - 1) 0) as [Hd|Hd]; [done|].
  injection Hn as <-. simpl.
  set (d := Z.of_nat (length choices) - 1) in *.
  assert (0 < inject_Z d)%Q as HdQ.
  { change 0%Q with (inject_Z 0). rewrite <- Zlt_Qlt. lia. }
  assert (0 <= inject_Z (Z.of_nat i))%Q as Hi0.
  { change 0%Q with (inject_Z 0). rewrite <- Zle_Qle. lia. }
  assert (inject_Z (Z.of_nat i) <= inject_Z d)%Q as Hid.
  { rewrite <- Zle_Qle. lia. }
  assert (0 <= inject_Z (Z.of_nat i) / inject_Z d)%Q as Hlo.
  { apply Qle_shift_div_l; [done|]. lra. }
  assert (inject_Z (Z.of_nat i) / inject_Z d <= 1)%Q as Hhi.
  { apply Qle_shift_div_r; [done|]. lra. }
  split.
  - rewrite <- H0. by apply Hmono.
  - rewrite <- H1. by apply Hmono.
Qed.

Lemma normalize_within_bounds_witness :
  (CubeNormalizer.bounds.1 <= 1 # 2)%Q ∧ (1 # 2 <= CubeNormalizer.bounds.2)%Q.
Proof.
  apply (normalize_within_bounds (λ x, x) [10; 20; 30] 20 (1 # 2)).
  - split; [done|]. split; reflexivity.
  - reflexivity.
Defined.

(* ===================================================================== *)
(** * No task is dispatched twice *)

Section Dispatch.
Context (self : Parallel) (func : pyfunc) (args_list : list (list pyval)).
Context (sched : nat → list nat) (manager : nat → admission).

Lemma dispatched_run_child w pid :
  dispatched (run_child self func w pid) = dispatched w.
Proof.
  unfold run_child. destruct (w_procs w !! pid) as [p|] eqn:Hp; [|done].
  destruct (p_status p); try done.
  unfold dispatched. simpl. rewrite list_fmap_insert. simpl.
  apply list_insert_id. by rewrite list_lookup_fmap, Hp.
Qed.

(** An invariant that looks only at the processes' task ids, the queue and
    the cursor is kept by everything but the creation of a process and the
    moves of the cursor. *)
Lemma stable_of_frame (I E : world → Prop) :
  (∀ w w', dispatched w' = dispatched w →
           _all_task_ids w' = _all_task_ids w → _cursor w' = _cursor w →
           I w → I w') →
  (∀ w w', dispatched w' = dispatched w → E w → E w') →
  (∀ w, I w → E w) →
  stable self func I E.
Proof.
  intros HI HE HIE. constructor.
  - intros w pid Hw. revert Hw. apply HI.
    + apply dispatched_run_child.
    + apply (cal_all _ _ (run_child_calmer self func w pid)).
    + apply (cal_cursor _ _ (run_child_calmer self func w pid)).
  - intros w n. by apply HI.
  - intros w s Hw _. revert Hw. by apply HI.
  - intros w n. by apply HI.
  - intros w1 w2 fs _ Hw _ _. revert Hw. by apply HI.
  - done.
  - intros w rs' Hw _. apply (HE w); [done|]. by apply HIE.
Qed.

Lemma framed_stable ids queue c :
  stable self func (framed ids queue c) (λ w, dispatched w = ids).
Proof.
  apply stable_of_frame.
  - intros w w' Hd Ha Hc (H1 & H2 & H3). unfold framed. by rewrite Hd, Ha, Hc.
  - intros w w' Hd. by rewrite Hd.
  - by intros w (? & _).
Qed.

Lemma dispatching_stable n_tasks :
  stable self func (dispatching n_tasks) (dispatched_ok n_tasks).
Proof.
  apply stable_of_frame.
  - intros w w' Hd Ha Hc. unfold dispatching. by rewrite Hd, Ha, Hc.
  - intros w w' Hd. unfold dispatched_ok. by rewrite Hd.
  - intros w [Hnd Hlt]. split.
    + by apply NoDup_app in Hnd as (? & _).
    + by apply Forall_app in Hlt as [? _].
Qed.

Lemma dispatched_ok_stable n_tasks :
  stable self func (dispatched_ok n_tasks) (dispatched_ok n_tasks).
Proof.
  apply stable_of_frame.
  - intros w w' Hd _ _. unfold dispatched_ok. by rewrite Hd.
  - intros w w' Hd. unfold dispatched_ok. by rewrite Hd.
  - done.
Qed.

Lemma resource_manager_get_process_keeps (I E : world → Prop) :
  stable self func I E →
  hoare I (resource_manager_get_process self func sched manager) (λ _, I) E.
Proof.
  intros Hst. unfold resource_manager_get_process. eapply hoare_bind.
  { eapply hoare_conseq; [apply (yield_stable _ _ _ _ _ Hst)|done|done|].
    apply (st_exc _ _ _ _ Hst). }
  intros []. eapply (hoare_bind _ _ _ (λ _, I)).
  { intros w Hw. by apply (st_asked _ _ _ _ Hst). }
  intros adm. eapply hoare_bind.
  { apply hoare_for_each. intros c _. apply (__sleep_stable _ _ _ _ _ Hst). }
  intros []. by apply hoare_ret.
Qed.

(** [_get_process] creates at most one process, for the task it is given. *)
Lemma _get_process_dispatch ids queue c task_id start :
  hoare (framed ids queue c)
    (_get_process self func args_list sched manager task_id start)
    (λ r, framed (ids ++ match r with Some _ => [task_id] | None => [] end)
            queue c)
    (λ w, dispatched w = ids).
Proof.
  pose proof (framed_stable ids queue c) as Hst.
  unfold _get_process. eapply hoare_bind;
    [by apply resource_manager_get_process_keeps|].
  intros adm. destruct (negb (adm_create adm)).
  { apply hoare_ret. intros w. by rewrite app_nil_r. }
  eapply (hoare_bind _ _ _ (λ _, framed ids queue c)).
  { apply hoare_lift. intros w Hw.
    destruct (_get_task_name self (Some task_id)); try done;
      by apply (st_exc _ _ _ _ Hst). }
  intros name. eapply (hoare_bind _ _ _ (λ _, framed ids queue c)).
  { apply hoare_lift. intros w Hw.
    destruct (row task_id args_list); try done; by apply (st_exc _ _ _ _ Hst). }
  intros args w (H1 & H2 & H3). rewrite bind_unfold. cbv beta iota.
  rewrite bind_unfold.
  set (P := Process _ _ _ _ _).
  destruct start.
  - unfold start_process. simpl. rewrite list_lookup_middle by done. simpl.
    rewrite insert_created. unfold framed, dispatched. simpl.
    rewrite fmap_app. simpl. by rewrite <- H1.
  - rewrite ret_unfold. unfold framed, dispatched. simpl.
    rewrite fmap_app. simpl. by rewrite <- H1.
Qed.

Lemma somes_mask_failed_cons i ids p ps :
  somes (mask_failed (i :: ids) (p :: ps))
  = match p with Some _ => [i] | None => [] end ++ somes (mask_failed ids ps).
Proof. unfold somes, mask_failed. by destruct p. Qed.

Lemma mask_failed_sublist ids : ∀ ps,
  sublist (somes (mask_failed ids ps)) ids.
Proof.
  induction ids as [|i ids IH]; intros [|p ps]; try done.
  - apply sublist_nil_l.
  - rewrite somes_mask_failed_cons. destruct p; simpl.
    + by apply sublist_skip.
    + by apply sublist_cons.
Qed.

Lemma mask_failed_partition ids : ∀ ps,
  length ids = length ps →
  somes (mask_failed ids ps) ++ failed_task_ids ids ps ≡ₚ ids.
Proof.
  induction ids as [|i ids IH]; intros [|p ps] Hlen; try done.
  simpl in Hlen. rewrite somes_mask_failed_cons.
  specialize (IH ps ltac:(lia)).
  assert (failed_task_ids (i :: ids) (p :: ps)
          = match p with Some _ => [] | None => [i] end
            ++ failed_task_ids ids ps) as ->
    by (unfold failed_task_ids; by destruct p).
  destruct p; simpl.
  - by constructor.
  - etrans; [symmetry; apply Permutation_middle|]. by constructor.
Qed.

(** The creation of the initial processes. *)
Lemma init_dispatch queue c n : ∀ a ids,
  hoare (framed ids queue c)
    (map_M (λ i, _get_process self func args_list sched manager i false)
           (seq a n))
    (λ ps w, framed (ids ++ somes (mask_failed (seq a n) ps)) queue c w ∧
             length ps = n)
    (λ w, ∃ l, dispatched w = ids ++ l ∧ sublist l (seq a n)).
Proof.
  induction n as [|n IH]; intros a ids; cbn [seq map_M].
  - apply hoare_ret. intros w Hw. by rewrite app_nil_r.
  - eapply hoare_bind.
    { eapply hoare_conseq; [apply (_get_process_dispatch ids queue c a false)
                           |done|done|].
      intros w Hw. exists []. rewrite app_nil_r. split; [done|].
      apply sublist_nil_l. }
    intros p. eapply hoare_bind.
    { eapply hoare_conseq; [apply (IH (S a))|done|done|].
      intros w (l & Hl & Hsub). rewrite <- app_assoc in Hl.
      eexists. split; [done|]. destruct p; simpl.
      - by apply sublist_skip.
      - by apply sublist_cons. }
    intros ps. apply hoare_ret. intros w [Hw Hlen].
    rewrite somes_mask_failed_cons, app_assoc. split; [done|].
    simpl. by rewrite Hlen.
Qed.

Section Bounded.
Context (n_tasks : nat).

Lemma start_process_dispatching pid :
  hoare (dispatching n_tasks) (start_process pid)
    (λ _, dispatching n_tasks) (dispatched_ok n_tasks).
Proof.
  pose proof (dispatching_stable n_tasks) as Hst.
  intros w Hw. unfold start_process.
  destruct (w_procs w !! pid) as [p|] eqn:Hp; [|done].
  destruct (p_status p); try by apply (st_exc _ _ _ _ Hst).
  unfold dispatching, dispatched in *. simpl.
  rewrite list_fmap_insert. simpl.
  rewrite (list_insert_id (p_task_id <$> w_procs w))
    by (by rewrite list_lookup_fmap, Hp).
  done.
Qed.

(** A turn of the loop of [_add_new_processes]. *)
Lemma _add_new_processes_dispatching :
  hoare (dispatching n_tasks)
    (_add_new_processes self func args_list sched manager)
    (λ _, dispatching n_tasks) (dispatched_ok n_tasks).
Proof.
  pose proof (dispatching_stable n_tasks) as Hst.
  unfold _add_new_processes.
  eapply (hoare_bind _ _ _ (λ _, dispatching n_tasks)).
  { intros w Hw. destruct (_working_processes w); [done|].
    by apply (st_exc _ _ _ _ Hst). }
  intros nw. eapply (hoare_bind _ _ _ (λ _, dispatching n_tasks)).
  { by apply hoare_read. }
  intros n_res. destruct (0 <? n_res); [|by apply hoare_ret].
  eapply (hoare_bind _ _ _ (λ _, dispatching n_tasks));
    [|intros []; by apply hoare_ret].
  apply hoare_for_each. intros x _ w Hw.
  rewrite bind_unfold.
  destruct (_all_task_ids w !! _cursor w) as [i|] eqn:Hi;
    [|by apply (st_exc _ _ _ _ Hst)].
  cbv beta iota. rewrite bind_unfold.
  pose proof (_get_process_dispatch (dispatched w) (_all_task_ids w)
                (_cursor w) i true w (conj eq_refl (conj eq_refl eq_refl)))
    as Hget.
  destruct Hw as [Hnd Hlt]. rewrite (drop_S _ _ _ Hi) in Hnd, Hlt.
  destruct (_get_process self func args_list sched manager i true w)
    as [[r| | |] w1].
  2-4: (split; rewrite Hget;
        [by apply NoDup_app in Hnd as (? & _)
        |by apply Forall_app in Hlt as [? _]]).
  destruct Hget as (Hd & Ha & Hc).
  rewrite !bind_unfold, !modify_unfold. cbv beta iota.
  unfold dispatching, dispatched in *. simpl. rewrite Hd, Ha, Hc.
  destruct r as [pid|].
  - rewrite <- app_assoc. simpl. done.
  - rewrite app_nil_r. split.
    + apply NoDup_app in Hnd as (H1 & H2 & H3).
      apply NoDup_cons in H3 as [_ H3].
      apply NoDup_app. split; [done|]. split; [|done].
      intros j Hj Hin. apply (H2 j Hj). by right.
    + apply Forall_app in Hlt as [H1 H2]. apply Forall_cons in H2 as [_ H2].
      by apply Forall_app.
Qed.

Lemma main_loop_dispatching fuel :
  hoare (dispatching n_tasks)
    (main_loop self func args_list sched manager fuel)
    (λ _, dispatching n_tasks) (dispatched_ok n_tasks).
Proof.
  pose proof (dispatching_stable n_tasks) as Hst.
  induction fuel as [|fuel IH]; simpl.
  - apply hoare_lift. apply (st_exc _ _ _ _ Hst).
  - eapply (hoare_bind _ _ _ (λ _, dispatching n_tasks)).
    { eapply hoare_conseq;
        [apply (_wait_and_handle_finish_stable _ _ _ _ _ Hst)|done| |done].
      by intros a w [? _]. }
    intros []. eapply hoare_bind; [apply _add_new_processes_dispatching|].
    intros [|]; [apply IH|by apply hoare_ret].
Qed.

Lemma batch_body_dispatching fuel :
  let nj := Z.to_nat (Z.min (_n_jobs self) (Z.of_nat n_tasks)) in
  hoare (framed [] (seq nj (n_tasks - nj)) 0)
    (batch_body self func args_list sched manager fuel
       (Z.min (_n_jobs self) (Z.of_nat n_tasks)))
    (λ _, dispatched_ok n_tasks) (dispatched_ok n_tasks).
Proof.
  intros nj. unfold batch_body. fold nj.
  set (queue := seq nj (n_tasks - nj)).
  assert (nj ≤ n_tasks)%nat as Hnj by (unfold nj; lia).
  assert (∀ l, sublist l (seq 0 nj) → ∀ w, dispatched w = l →
               dispatched_ok n_tasks w) as Hsub.
  { intros l Hl w Hw. unfold dispatched_ok. rewrite Hw. split.
    - apply (sublist_NoDup l (seq 0 nj)); [apply NoDup_seq|done].
    - apply Forall_forall. intros i Hi.
      apply (elem_of_sublist l (seq 0 nj)) in Hi; [|done].
      apply elem_of_seq in Hi. lia. }
  eapply hoare_bind.
  { eapply hoare_conseq; [apply (init_dispatch queue 0 nj 0 [])|done|done|].
    intros w (l & Hl & Hs). by apply (Hsub l). }
  intros ps.
  set (created := somes (mask_failed (seq 0 nj) ps)).
  eapply (hoare_bind _ _ _
            (λ _ w, framed created queue 0 w ∧ length ps = nj)).
  { intros w [Hw Hlen]. simpl in Hw.
    destruct (terminated (rs w)); try done;
      apply (Hsub created); try apply mask_failed_sublist; by destruct Hw. }
  intros [|].
  { eapply hoare_conseq;
      [apply (_user_terminate_stable _ _ _ _ _ (framed_stable created queue 0)
                (λ _ _, False))
      |by intros w [? _]|by intros| ].
    intros w Hw. apply (Hsub created); [apply mask_failed_sublist|done]. }
  intros w [(Hd & Ha & Hc) Hlen].
  rewrite bind_unfold, modify_unfold. cbv beta iota.
  rewrite bind_unfold, modify_unfold. cbv beta iota.
  assert (dispatched_ok n_tasks w) as Hok
    by (apply (Hsub created); [apply mask_failed_sublist|done]).
  destruct ps as [|p ps]; [exact Hok|].
  destruct (forallb _ (p :: ps)); [exact Hok|].
  rewrite bind_unfold, modify_unfold. cbv beta iota. rewrite bind_unfold.
  set (w2 := set_working_processes _ _).
  assert (dispatching n_tasks w2) as Hw2.
  { unfold dispatching, dispatched in *. simpl. rewrite Hd, Ha, Hc.
    rewrite drop_0. unfold created. rewrite app_assoc.
    rewrite (mask_failed_partition (seq 0 nj) (p :: ps))
      by (by rewrite length_seq).
    unfold queue. split.
    - rewrite <- seq_app. apply NoDup_seq.
    - rewrite <- seq_app. apply Forall_forall. intros i Hi.
      apply elem_of_seq in Hi. lia. }
  assert (hoare (dispatching n_tasks)
            (for_each (p :: ps) (λ p0, match p0 with
                                       | Some pid => start_process pid
                                       | None => mret ()
                                       end))
            (λ _, dispatching n_tasks) (dispatched_ok n_tasks)) as Hstart.
  { apply hoare_for_each. intros [pid|] _.
    - apply start_process_dispatching.
    - by apply hoare_ret. }
  specialize (Hstart w2 Hw2).
  destruct (for_each _ _ w2) as [[[]| | |] w3]; try done.
  pose proof (main_loop_dispatching fuel w3 Hstart) as Hloop.
  destruct (main_loop _ _ _ _ _ _ w3) as [[[]| | |] w4]; try done.
  by apply (st_exc _ _ _ _ (dispatching_stable n_tasks)).
Qed.

Lemma record_base_dispatched e :
  hoare (dispatched_ok n_tasks) (record_base e)
    (λ _, dispatched_ok n_tasks) (dispatched_ok n_tasks).
Proof.
  unfold record_base.
  eapply (hoare_bind _ _ _ (λ _, dispatched_ok n_tasks)).
  { intros w Hw. by destruct (exceptions (rs w)). }
  intros excs. eapply (hoare_bind _ _ _ (λ _, dispatched_ok n_tasks)).
  { apply hoare_lift. intros w Hw. by destruct (setitem _ _ _). }
  intros excs'. by apply hoare_modify.
Qed.

Lemma batch_finally_dispatched :
  hoare (dispatched_ok n_tasks) (batch_finally self func sched)
    (λ _, dispatched_ok n_tasks) (dispatched_ok n_tasks).
Proof.
  unfold batch_finally.
  eapply (hoare_bind _ _ _ (λ _, dispatched_ok n_tasks)).
  { by apply hoare_read. }
  intros ps. eapply (hoare_bind _ _ _ (λ _, dispatched_ok n_tasks)).
  { destruct ps as [l|]; [|by apply hoare_ret].
    apply (join_all_stable _ _ _ _ _ (dispatched_ok_stable n_tasks)). }
  intros []. by apply hoare_modify.
Qed.

End Bounded.
End Dispatch.

Lemma pool_map_creates_nothing self func args_list n :
  hoare (λ w, w_procs w = []) (pool_map self func args_list n)
    (λ _ w, w_procs w = []) (λ w, w_procs w = []).
Proof.
  unfold pool_map.
  eapply (hoare_bind _ _ _ (λ _ w, w_procs w = [])).
  { apply hoare_map_M_inv. intros i. apply hoare_lift. intros w Hw.
    by destruct (_get_task_name self (Some i)). }
  intros names. eapply (hoare_bind _ _ _ (λ _ w, w_procs w = [])).
  { apply hoare_map_M_inv. intros args w Hw.
    by destruct (f_call func args ∅). }
  intros results. by apply hoare_modify.
Qed.

(** (X20) Whatever the function, the arguments, the scheduling of the
    children, the answers of the resource manager, the interrupt and the way
    the batch ends, no two processes are created for the same task, and
    every process is created for a task of the batch. *)
Theorem no_task_dispatched_twice self func args_list sched manager fuel
  interrupt :
  let n_tasks := length (default [] (head args_list)) in
  let w := (__call__ self func args_list sched manager fuel
              (new_world interrupt)).2 in
  NoDup (p_task_id <$> w_procs w) ∧
  Forall (λ i, (i < n_tasks)%nat) (p_task_id <$> w_procs w).
Proof.
  intros n_tasks. unfold __call__.
  destruct args_list as [|args rest]; [by split; constructor|].
  simpl in n_tasks. fold n_tasks.
  destruct (WINDOWS self).
  { pose proof (pool_map_creates_nothing self func (args :: rest) n_tasks
                  (new_world interrupt) eq_refl) as H.
    destruct (pool_map _ _ _ _ _) as [[[]| | |] w]; simpl in *;
      rewrite H; by split; constructor. }
  set (n_jobs := Z.min (_n_jobs self) (Z.of_nat n_tasks)).
  set (queue := seq (Z.to_nat n_jobs) (n_tasks - Z.to_nat n_jobs)).
  rewrite bind_unfold, modify_unfold. cbv beta iota.
  rewrite bind_unfold, modify_unfold. cbv beta iota.
  rewrite bind_unfold, modify_unfold. cbv beta iota.
  rewrite bind_unfold.
  match goal with |- context [setup_resources self ?w] =>
    destruct (setup_resources_registers self w) as [kinds ->] end.
  cbv beta iota.
  rewrite bind_unfold, modify_unfold. cbv beta iota.
  match goal with |- context [try_finally _ _ ?w] => set (w0 := w) end.
  assert (framed [] queue 0 w0) as Hinit by done.
  assert (hoare (framed [] queue 0)
            (try_finally
               (try_except
                  (batch_body self func (args :: rest) sched manager fuel n_jobs)
                  (batch_handler))
               (batch_finally self func sched))
            (λ _, dispatched_ok n_tasks)
            (dispatched_ok n_tasks)) as Hrun.
  { eapply hoare_try_finally.
    - eapply (hoare_try_except _ _ _ _ (dispatched_ok n_tasks)).
      + apply batch_body_dispatching.
      + intros e h He. unfold batch_handler in He.
        destruct (is_KeyboardInterrupt e); [|destruct (is_Exception e)];
          simplify_eq; apply record_base_dispatched.
      + done.
    - intros []. apply batch_finally_dispatched.
    - apply batch_finally_dispatched.
    - done. }
  specialize (Hrun w0 Hinit).
  destruct (try_finally _ _ w0) as [[[]| | |] w1]; exact Hrun.
Qed.

(* ===================================================================== *)
(** * A batch maps its function

    A batch of a function that returns on every value runs as the batch of
    [identity] on the results does: the two go through states that differ
    in the log and in the arguments of the processes only. *)

Section Simulation.
Context (self : Parallel) (func : pyfunc) (g : pyval → pyval).
Context (vs : list pyval).
Context (sched : nat → list nat) (manager : nat → admission).
Hypothesis Hfunc : ∀ v kw, v ∈ vs → f_call func [v] kw = Returns (g v).

Notation "m1 ~ m2" := (simM g vs m1 m2) (at level 70).

Lemma simM_ret {A} (a : A) : (mret a : M A) ~ mret a.
Proof. by intros w1 w2 Hs. Qed.

Lemma simM_bind {A B} (m1 m2 : M A) (f1 f2 : A → M B) :
  m1 ~ m2 → (∀ a, f1 a ~ f2 a) → (m1 ≫= f1) ~ (m2 ≫= f2).
Proof.
  intros Hm Hf w1 w2 Hs. rewrite !bind_unfold.
  destruct (Hm w1 w2 Hs) as [Ho Hs'].
  destruct (m1 w1) as [[a1| | |] w1'], (m2 w2) as [[a2| | |] w2'];
    simpl in *; try done; try (split; [congruence|assumption]).
  injection Ho as ->. by apply Hf.
Qed.

Lemma simM_get {A} (f1 f2 : world → outcome A) :
  (∀ w1 w2, sim g vs w1 w2 → f1 w1 = f2 w2) →
  (λ w, (f1 w, w)) ~ (λ w, (f2 w, w)).
Proof. intros Hf w1 w2 Hs. simpl. split; [by apply Hf|done]. Qed.

Lemma simM_lift {A} (o : outcome A) : lift o ~ lift o.
Proof. by intros w1 w2 Hs. Qed.

Lemma simM_raise {A} e : (raise e : M A) ~ raise e.
Proof. by intros w1 w2 Hs. Qed.

Lemma simM_modify (f1 f2 : world → world) :
  (∀ w1 w2, sim g vs w1 w2 → sim g vs (f1 w1) (f2 w2)) →
  modify f1 ~ modify f2.
Proof. intros Hf w1 w2 Hs. split; [done|by apply Hf]. Qed.

Lemma simM_read {A} (f1 f2 : world → A) :
  (∀ w1 w2, sim g vs w1 w2 → f1 w1 = f2 w2) → read f1 ~ read f2.
Proof.
  intros Hf w1 w2 Hs. unfold read. simpl. by rewrite (Hf w1 w2 Hs).
Qed.

Lemma simM_try_except {A} (b1 b2 : M A) handler :
  b1 ~ b2 → (∀ e h, handler e = Some h → h ~ h) →
  try_except b1 handler ~ try_except b2 handler.
Proof.
  intros Hb Hh w1 w2 Hs. unfold try_except.
  destruct (Hb w1 w2 Hs) as [Ho Hs'].
  destruct (b1 w1) as [[a1|e1| |] w1'], (b2 w2) as [[a2|e2| |] w2'];
    simpl in *; try done; try (split; [congruence|assumption]).
  injection Ho as ->. destruct (handler e2) as [h|] eqn:He; [|by split].
  by apply (Hh e2 h).
Qed.

Lemma simM_try_finally {A} (b1 b2 : M A) (f1 f2 : M unit) :
  b1 ~ b2 → f1 ~ f2 → try_finally b1 f1 ~ try_finally b2 f2.
Proof.
  intros Hb Hf w1 w2 Hs. unfold try_finally.
  destruct (Hb w1 w2 Hs) as [Ho Hs'].
  destruct (b1 w1) as [[a1|e1| |] w1'], (b2 w2) as [[a2|e2| |] w2'];
    simpl in *; try done; try (split; [congruence|assumption]).
  - injection Ho as ->.
    apply (simM_bind f1 f2 (λ _, mret a2) (λ _, mret a2)); [done| |done].
    intros _. apply simM_ret.
  - injection Ho as ->.
    apply (simM_bind f1 f2 (λ _, raise e2) (λ _, raise e2)); [done| |done].
    intros _. apply simM_raise.
Qed.

Lemma simM_for_each {X} (l : list X) (body1 body2 : X → M unit) :
  (∀ x, body1 x ~ body2 x) → for_each l body1 ~ for_each l body2.
Proof.
  intros Hb. induction l as [|x l IH]; simpl; [apply simM_ret|].
  apply simM_bind; [apply Hb|]. by intros _.
Qed.

Lemma simM_map_M {X Y} (l : list X) (f1 f2 : X → M Y) :
  (∀ x, f1 x ~ f2 x) → map_M f1 l ~ map_M f2 l.
Proof.
  intros Hf. induction l as [|x l IH]; simpl; [apply simM_ret|].
  apply simM_bind; [apply Hf|]. intros y.
  apply simM_bind; [apply IH|]. intros ys. apply simM_ret.
Qed.

(** *** What the two states agree on *)

Lemma sim_lookup w1 w2 pid :
  sim g vs w1 w2 →
  match w_procs w1 !! pid, w_procs w2 !! pid with
  | Some p1, Some p2 => sim_proc g vs p1 p2
  | None, None => True
  | _, _ => False
  end.
Proof.
  intros Hs. pose proof (sim_procs _ _ _ _ Hs) as Hp.
  destruct (w_procs w1 !! pid) as [p1|] eqn:H1.
  - destruct (Forall2_lookup_l _ _ _ _ _ Hp H1) as (p2 & -> & ?). done.
  - destruct (w_procs w2 !! pid) as [p2|] eqn:H2; [|done].
    destruct (Forall2_lookup_r _ _ _ _ _ Hp H2) as (p1 & ? & _). congruence.
Qed.

Lemma sim_is_alive w1 w2 pid :
  sim g vs w1 w2 → is_alive w1 pid = is_alive w2 pid.
Proof.
  intros Hs. pose proof (sim_lookup w1 w2 pid Hs) as Hl. unfold is_alive.
  destruct (w_procs w1 !! pid) as [p1|], (w_procs w2 !! pid) as [p2|];
    try done.
  destruct Hl as (_ & _ & -> & _). done.
Qed.

Lemma sim_live_count w1 w2 : sim g vs w1 w2 → live_count w1 = live_count w2.
Proof.
  intros Hs. unfold live_count, live_pids.
  rewrite (Forall2_length _ _ _ (sim_procs _ _ _ _ Hs)).
  f_equal. apply list_filter_iff. intros pid.
  by rewrite (sim_is_alive w1 w2 pid Hs).
Qed.

Lemma sim_slot_finished w1 w2 p :
  sim g vs w1 w2 → slot_finished w1 p = slot_finished w2 p.
Proof.
  intros Hs. destruct p as [pid|]; [|done]. simpl.
  by rewrite (sim_is_alive w1 w2 pid Hs).
Qed.

(** *** The children *)

Lemma _inner_same_store tn cuda1 cuda2 v s1 s2 :
  v ∈ vs → sh_rs s1 = sh_rs s2 →
  sh_rs (_inner self func tn cuda1 [v] s1).2
  = sh_rs (_inner self identity tn cuda2 [g v] s2).2.
Proof.
  intros Hv Hrs. unfold _inner. rewrite <- Hrs.
  destruct (terminated (sh_rs s1)) as [[|]| | |]; try done.
  destruct (build_kwargs self func tn cuda1
              (log_method tn INFO "task started" s1)) as [kw1 t1] eqn:Hb1.
  destruct (build_kwargs self identity tn cuda2
              (log_method tn INFO "task started" s2)) as [kw2 t2] eqn:Hb2.
  assert (sh_rs t1 = sh_rs s1) as Ht1.
  { change t1 with (kw1, t1).2. rewrite <- Hb1. by rewrite build_kwargs_rs. }
  assert (sh_rs t2 = sh_rs s1) as Ht2.
  { change t2 with (kw2, t2).2. rewrite <- Hb2.
    by rewrite build_kwargs_rs, log_method_rs. }
  rewrite (Hfunc v kw1 Hv). simpl.
  unfold finish_inner.
  destruct (terminate_requested (g v)); simpl; rewrite Ht1, Ht2; [|done].
  destruct (_set_terminate (<[tn := g v]> (sh_rs s1))); simpl;
    by rewrite ?Ht1, ?Ht2.
Qed.

Lemma sim_run_child w1 w2 pid :
  sim g vs w1 w2 →
  sim g vs (run_child self func w1 pid) (run_child self identity w2 pid).
Proof.
  intros Hs. pose proof (sim_lookup w1 w2 pid Hs) as Hl. unfold run_child.
  destruct (w_procs w1 !! pid) as [p1|] eqn:H1,
           (w_procs w2 !! pid) as [p2|] eqn:H2; try done.
  destruct Hl as (Hid & Hname & Hst & v & Hv & Ha1 & Ha2).
  rewrite <- Hst. destruct (p_status p1) eqn:Hst1; try done.
  destruct Hs as [Hrs Hp ? ? ? ? ? ? ? ? ? ?].
  constructor; simpl; try done.
  - unfold rs. simpl. rewrite Ha1, Ha2, Hname.
    by apply _inner_same_store.
  - apply Forall2_insert; [done|].
    split; [done|]. split; [done|]. split; [done|]. by exists v.
Qed.

Lemma sim_run_children pids : ∀ w1 w2,
  sim g vs w1 w2 →
  sim g vs (run_children self func pids w1)
           (run_children self identity pids w2).
Proof.
  induction pids as [|pid pids IH]; intros w1 w2 Hs; [done|].
  simpl. apply IH. by apply sim_run_child.
Qed.

Lemma simM_yield : yield self func sched ~ yield self identity sched.
Proof.
  intros w1 w2 Hs. unfold yield. rewrite (sim_clock _ _ _ _ Hs).
  pose proof (sim_run_children (sched (clock w2)) w1 w2 Hs) as Hr.
  set (r1 := run_children self func _ w1) in *.
  set (r2 := run_children self identity _ w2) in *.
  assert (sim g vs (set_clock (S (clock r1)) r1) (set_clock (S (clock r2)) r2))
    as Hc.
  { destruct Hr as [? ? ? ? ? ? ? ? Hclock ? ? ?].
    constructor; simpl; try done. by rewrite Hclock. }
  assert (sigint (set_clock (S (clock r1)) r1)
          = sigint (set_clock (S (clock r2)) r2)) as Hsig
    by apply (sim_sigint _ _ _ _ Hc).
  rewrite Hsig.
  destruct (sigint (set_clock (S (clock r2)) r2)) as [[|n]|]; simpl;
    (split; [done|]); try done;
    destruct Hc as [? ? ? ? ? ? ? ? ? ? ? ?]; by constructor.
Qed.

Lemma simM_start_process pid : start_process pid ~ start_process pid.
Proof.
  intros w1 w2 Hs. pose proof (sim_lookup w1 w2 pid Hs) as Hl.
  unfold start_process.
  destruct (w_procs w1 !! pid) as [p1|] eqn:H1,
           (w_procs w2 !! pid) as [p2|] eqn:H2; try done.
  destruct Hl as (Hid & Hname & Hst & v & Hv & Ha1 & Ha2).
  rewrite <- Hst. destruct (p_status p1) eqn:Hst1; try done.
  simpl. split; [done|].
  assert (sim g vs (set_procs (<[pid := set_status Alive p1]> (w_procs w1)) w1)
                   (set_procs (<[pid := set_status Alive p2]> (w_procs w2)) w2))
    as Hs'.
  { destruct Hs as [? Hp ? ? ? ? ? ? ? ? ? ?]. constructor; simpl; try done.
    apply Forall2_insert; [done|].
    split; [done|]. split; [done|]. split; [done|]. by exists v. }
  pose proof (sim_live_count _ _ Hs') as Hlive.
  destruct Hs' as [? ? ? ? ? ? ? ? ? ? ? Hh]. constructor; simpl; try done.
  simpl in Hh. by rewrite Hh, Hlive.
Qed.

Lemma simM_join pid :
  join self func sched pid ~ join self identity sched pid.
Proof.
  intros w1 w2 Hs. pose proof (sim_lookup w1 w2 pid Hs) as Hl. unfold join.
  destruct (w_procs w1 !! pid) as [p1|] eqn:H1,
           (w_procs w2 !! pid) as [p2|] eqn:H2; try done.
  destruct Hl as (_ & _ & Hst & _). rewrite <- Hst.
  assert ((yield self func sched ;; modify (λ w, run_child self func w pid))
          ~ (yield self identity sched ;;
             modify (λ w, run_child self identity w pid))) as Hj.
  { apply simM_bind; [apply simM_yield|]. intros _.
    apply simM_modify. intros ? ?. apply sim_run_child. }
  destruct (p_status p1); [done|by apply Hj..].
Qed.

Lemma simM_join_all ps :
  join_all self func sched ps ~ join_all self identity sched ps.
Proof.
  unfold join_all. apply simM_for_each. intros [pid|].
  - apply simM_join.
  - apply simM_ret.
Qed.

Lemma simM_set_terminate : set_terminate ~ set_terminate.
Proof.
  intros w1 w2 Hs. unfold set_terminate. rewrite (sim_rs _ _ _ _ Hs).
  destruct (_set_terminate (rs w2)) as [rs'| | |]; try done.
  simpl. split; [done|].
  destruct Hs as [? ? ? ? ? ? ? ? ? ? ? ?]. by constructor.
Qed.

(** *** The wait *)

Lemma sim_poll_slots w1 w2 slots : ∀ i,
  sim g vs w1 w2 → poll_slots self w1 i slots = poll_slots self w2 i slots.
Proof.
  induction slots as [|[tid p] slots IH]; intros i Hs; [done|].
  simpl. rewrite (IH (S i) Hs). destruct p as [pid|]; [|done].
  by rewrite (sim_is_alive w1 w2 pid Hs).
Qed.

Lemma simM_poll : poll self ~ poll self.
Proof.
  intros w1 w2 Hs. unfold poll.
  rewrite (sim_task_ids _ _ _ _ Hs), (sim_processes _ _ _ _ Hs).
  destruct (_working_task_ids w2) as [ids|]; [|done].
  destruct (working_names self ids); try done.
  destruct (_working_processes w2) as [ps|]; [|done].
  simpl. by rewrite (sim_poll_slots w1 w2 _ 0 Hs).
Qed.

Lemma sim_first_live w1 w2 ps :
  sim g vs w1 w2 → first_live w1 ps = first_live w2 ps.
Proof.
  intros Hs. induction ps as [|[pid|] ps IH]; simpl; [done| |done].
  by rewrite (sim_is_alive w1 w2 pid Hs), IH.
Qed.

Lemma simM_time_sleep b :
  time_sleep self func sched b ~ time_sleep self identity sched b.
Proof.
  unfold time_sleep. apply simM_bind; [apply simM_yield|]. intros _.
  destruct b; [|apply simM_ret].
  apply simM_modify. intros w1 w2 Hs.
  rewrite (sim_processes _ _ _ _ Hs).
  destruct (_working_processes w2) as [ps|]; [|done].
  assert (existsb (slot_finished w1) ps = existsb (slot_finished w2) ps) as ->.
  { induction ps as [|p ps IH]; [done|]. simpl.
    by rewrite (sim_slot_finished w1 w2 p Hs), IH. }
  destruct (existsb (slot_finished w2) ps); [done|].
  rewrite (sim_first_live w1 w2 ps Hs).
  destruct (first_live w2 ps); [|done]. by apply sim_run_child.
Qed.

Lemma simM_wait_loop rounds b :
  wait_loop self func sched rounds b ~ wait_loop self identity sched rounds b.
Proof.
  induction rounds as [|rounds IH]; simpl; [apply simM_lift|].
  apply simM_bind; [apply simM_yield|]. intros _.
  apply simM_bind; [apply simM_poll|]. intros fs.
  destruct (negb b || _); [apply simM_ret|].
  apply simM_bind; [apply simM_time_sleep|]. by intros _.
Qed.

Lemma simM___wait b :
  __wait self func sched b ~ __wait self identity sched b.
Proof.
  unfold __wait. apply simM_try_except; [apply simM_wait_loop|].
  intros e h He. destruct (is_KeyboardInterrupt e); [|done].
  injection He as <-. apply simM_bind; [apply simM_set_terminate|].
  intros _. apply simM_raise.
Qed.

Lemma simM__user_terminate {A} :
  (_user_terminate self func sched : M A)
  ~ _user_terminate self identity sched.
Proof.
  unfold _user_terminate. apply simM_bind.
  { intros w1 w2 Hs. rewrite (sim_processes _ _ _ _ Hs).
    by destruct (_working_processes w2). }
  intros ps. apply simM_bind; [apply simM_join_all|]. intros _.
  apply simM_bind.
  { apply (simM_get (λ w, exceptions (rs w)) (λ w, exceptions (rs w))).
    intros w1 w2 Hs. by rewrite (sim_rs _ _ _ _ Hs). }
  intros excs. destruct (negb (truthy excs)); apply simM_raise.
Qed.

Lemma sim_popped fs w1 w2 :
  sim g vs w1 w2 → sim g vs (popped fs w1) (popped fs w2).
Proof.
  intros [? ? Hi Hp ? ? ? ? ? ? ? ?]. constructor; simpl; try done.
  - by rewrite Hi.
  - by rewrite Hp.
Qed.

Lemma simM__wait_and_handle_finish b :
  _wait_and_handle_finish self func sched b
  ~ _wait_and_handle_finish self identity sched b.
Proof.
  unfold _wait_and_handle_finish. apply simM_bind; [apply simM___wait|].
  intros [|i fs]; [apply simM_ret|].
  apply simM_bind; [apply simM_yield|]. intros _.
  apply simM_bind.
  { apply (simM_get (λ w, terminated (rs w)) (λ w, terminated (rs w))).
    intros w1 w2 Hs. by rewrite (sim_rs _ _ _ _ Hs). }
  intros [|]; [apply simM__user_terminate|].
  apply simM_modify. intros ? ?. apply sim_popped.
Qed.

Lemma simM___sleep c b :
  __sleep self func sched c b ~ __sleep self identity sched c b.
Proof.
  unfold __sleep, _refresh. apply simM_bind; [apply simM_time_sleep|].
  intros _. destruct (negb c); [apply simM_ret|].
  destruct (negb b); [apply simM__wait_and_handle_finish|apply simM_ret].
Qed.

(** *** The creation of the processes *)

Lemma simM_resource_manager_get_process :
  resource_manager_get_process self func sched manager
  ~ resource_manager_get_process self identity sched manager.
Proof.
  unfold resource_manager_get_process.
  apply simM_bind; [apply simM_yield|]. intros _.
  apply simM_bind.
  { intros w1 w2 Hs. simpl. rewrite (sim_asked _ _ _ _ Hs).
    split; [done|]. destruct Hs as [? ? ? ? ? ? ? ? ? Ha ? ?].
    by constructor. }
  intros adm. apply simM_bind.
  { apply simM_for_each. intros c. apply simM___sleep. }
  intros _. apply simM_ret.
Qed.

Lemma simM__get_process task_id start :
  _get_process self func [vs] sched manager task_id start
  ~ _get_process self identity [g <$> vs] sched manager task_id start.
Proof.
  unfold _get_process.
  apply simM_bind; [apply simM_resource_manager_get_process|].
  intros adm. destruct (negb (adm_create adm)); [apply simM_ret|].
  apply simM_bind; [apply simM_lift|]. intros name.
  simpl row. rewrite list_lookup_fmap.
  destruct (vs !! task_id) as [v|] eqn:Hv; simpl.
  2:{ intros w1 w2 Hs. rewrite !bind_unfold. by split. }
  intros w1 w2 Hs. rewrite !bind_unfold. unfold lift. cbv beta iota.
  rewrite !bind_unfold. cbv beta iota.
  rewrite (Forall2_length _ _ _ (sim_procs _ _ _ _ Hs)).
  set (P1 := Process _ _ _ [v] _). set (P2 := Process _ _ _ [g v] _).
  assert (sim g vs (set_procs (w_procs w1 ++ [P1]) w1)
                   (set_procs (w_procs w2 ++ [P2]) w2)) as Hs'.
  { destruct Hs as [? Hp ? ? ? ? ? ? ? ? ? ?]. constructor; simpl; try done.
    apply Forall2_app; [done|]. constructor; [|done].
    split; [done|]. split; [done|]. split; [done|]. exists v.
    split; [by eapply list_elem_of_lookup_2|done]. }
  assert (((if start then start_process (length (w_procs w2)) else mret ()) ;;
           mret (Some (length (w_procs w2))))
          ~ ((if start then start_process (length (w_procs w2)) else mret ()) ;;
             mret (Some (length (w_procs w2))))) as Hrest.
  { apply simM_bind.
    - destruct start; [apply simM_start_process|apply simM_ret].
    - intros _. apply simM_ret. }
  specialize (Hrest _ _ Hs'). rewrite !bind_unfold in Hrest. exact Hrest.
Qed.

Lemma simM__add_new_processes :
  _add_new_processes self func [vs] sched manager
  ~ _add_new_processes self identity [g <$> vs] sched manager.
Proof.
  unfold _add_new_processes. apply simM_bind.
  { intros w1 w2 Hs. rewrite (sim_processes _ _ _ _ Hs).
    by destruct (_working_processes w2). }
  intros nw. apply simM_bind.
  { apply simM_read. intros w1 w2 Hs.
    by rewrite (sim_all _ _ _ _ Hs), (sim_cursor _ _ _ _ Hs). }
  intros n_res. destruct (0 <? n_res); [|apply simM_ret].
  apply simM_bind; [|intros _; apply simM_ret].
  apply simM_for_each. intros _. apply simM_bind.
  { intros w1 w2 Hs. rewrite (sim_all _ _ _ _ Hs), (sim_cursor _ _ _ _ Hs).
    by destruct (_all_task_ids w2 !! _cursor w2). }
  intros i. apply simM_bind; [apply simM__get_process|]. intros p.
  apply simM_bind.
  { apply simM_modify. intros w1 w2 [? ? ? Hp ? ? ? ? ? ? ? Hh].
    constructor; simpl; try done; by rewrite ?Hp, ?Hh. }
  intros _. apply simM_bind.
  { apply simM_modify. intros w1 w2 [? ? Hi ? ? ? ? ? ? ? ? ?].
    constructor; simpl; try done. by rewrite Hi. }
  intros _. apply simM_modify. intros w1 w2 [? ? ? ? ? Hc ? ? ? ? ? ?].
  constructor; simpl; try done. by rewrite Hc.
Qed.

(** *** The batch *)

Lemma simM_main_loop fuel :
  main_loop self func [vs] sched manager fuel
  ~ main_loop self identity [g <$> vs] sched manager fuel.
Proof.
  induction fuel as [|fuel IH]; simpl; [apply simM_lift|].
  apply simM_bind; [apply simM__wait_and_handle_finish|]. intros _.
  apply simM_bind; [apply simM__add_new_processes|].
  intros [|]; [apply IH|apply simM_ret].
Qed.

Lemma simM_record_base e : record_base e ~ record_base e.
Proof.
  unfold record_base. apply simM_bind.
  { apply (simM_get (λ w, exceptions (rs w)) (λ w, exceptions (rs w))).
    intros w1 w2 Hs. by rewrite (sim_rs _ _ _ _ Hs). }
  intros excs. apply simM_bind; [apply simM_lift|]. intros excs'.
  apply simM_modify. intros w1 w2 [Hrs ? ? ? ? ? ? ? ? ? ? ?].
  constructor; simpl; try done. unfold rs in *. simpl. by rewrite Hrs.
Qed.

Lemma simM_batch_body fuel n_jobs :
  batch_body self func [vs] sched manager fuel n_jobs
  ~ batch_body self identity [g <$> vs] sched manager fuel n_jobs.
Proof.
  unfold batch_body. apply simM_bind.
  { apply simM_map_M. intros i. apply simM__get_process. }
  intros ps. apply simM_bind.
  { apply (simM_get (λ w, terminated (rs w)) (λ w, terminated (rs w))).
    intros w1 w2 Hs. by rewrite (sim_rs _ _ _ _ Hs). }
  intros [|]; [apply simM__user_terminate|].
  apply simM_bind.
  { apply simM_modify. intros w1 w2 [? ? ? ? Ha ? ? ? ? ? ? ?].
    constructor; simpl; try done. by rewrite Ha. }
  intros _. apply simM_bind.
  { apply simM_modify. intros w1 w2 [? ? ? ? ? ? ? ? ? ? ? ?].
    by constructor. }
  intros _. destruct ps as [|p ps]; [apply simM_raise|].
  destruct (forallb _ (p :: ps)); [apply simM_raise|].
  apply simM_bind.
  { apply simM_modify. intros w1 w2 [? ? ? ? ? ? ? ? ? ? ? ?].
    by constructor. }
  intros _. apply simM_bind.
  { apply simM_for_each. intros [pid|];
      [apply simM_start_process|apply simM_ret]. }
  intros _. apply simM_main_loop.
Qed.

Lemma simM_batch_finally :
  batch_finally self func sched ~ batch_finally self identity sched.
Proof.
  unfold batch_finally. apply simM_bind.
  { apply simM_read. intros w1 w2 Hs. apply (sim_processes _ _ _ _ Hs). }
  intros ps. apply simM_bind.
  { destruct ps as [l|]; [apply simM_join_all|apply simM_ret]. }
  intros _. apply simM_modify. intros w1 w2 [? ? ? ? ? ? ? ? ? ? ? ?].
  by constructor.
Qed.

Lemma simM_register kind : register kind ~ register kind.
Proof.
  apply simM_modify. intros w1 w2 [? ? ? ? ? ? Hr ? ? ? ? ?].
  constructor; simpl; try done. by rewrite Hr.
Qed.

Lemma simM_setup_resources : setup_resources self ~ setup_resources self.
Proof.
  unfold setup_resources. apply simM_bind.
  { apply simM_modify. intros w1 w2 [? ? ? ? ? ? ? ? ? ? ? ?].
    by constructor. }
  intros _. apply simM_bind; [apply simM_register|]. intros _.
  destruct (default _ (available_cuda_list _)) as [[|? ?]|];
    [apply simM_ret|apply simM_register..].
Qed.

(** The two batches end in the same way, with the same store. *)
Lemma __call___simulates fuel interrupt :
  WINDOWS self = false →
  let r1 := __call__ self func [vs] sched manager fuel (new_world interrupt) in
  let r2 := __call__ self identity [g <$> vs] sched manager fuel
              (new_world interrupt) in
  r1.1 = r2.1 ∧ rs r1.2 = rs r2.2.
Proof.
  intros HW.
  assert (__call__ self func [vs] sched manager fuel
          ~ __call__ self identity [g <$> vs] sched manager fuel) as Hsim.
  { unfold __call__. rewrite HW, length_fmap.
    apply simM_bind.
    { apply simM_modify. intros w1 w2 [? ? ? ? ? ? ? ? ? ? ? ?].
      by constructor. }
    intros _. apply simM_bind.
    { apply simM_modify. intros w1 w2 [? ? ? ? ? ? ? ? ? ? ? ?].
      by constructor. }
    intros _. apply simM_bind.
    { apply simM_modify. intros w1 w2 [? ? ? ? ? ? ? ? ? ? ? ?].
      by constructor. }
    intros _. apply simM_bind; [apply simM_setup_resources|].
    intros _. apply simM_bind.
    { apply simM_modify. intros w1 w2 [? ? ? ? ? ? ? ? ? ? ? ?].
      by constructor. }
    intros _. apply simM_try_finally; [|apply simM_batch_finally].
    apply simM_try_except; [apply simM_batch_body|].
    intros e h He. unfold batch_handler in He.
    destruct (is_KeyboardInterrupt e); [|destruct (is_Exception e)];
      simplify_eq; apply simM_record_base. }
  assert (sim g vs (new_world interrupt) (new_world interrupt)) as H0
    by (by constructor).
  destruct (Hsim _ _ H0) as [Ho Hs]. split; [done|].
  apply (sim_rs _ _ _ _ Hs).
Qed.

End Simulation.

(** The batch of [identity], for the comparison. *)
Lemma identity_batch_returns self vs sched manager fuel :
  WINDOWS self = false → _task_names self = None →
  1 ≤ _n_jobs self → vs ≠ [] →
  Forall (λ v, terminate_requested v = false) vs →
  admits_at_once manager →
  (2 * length vs ≤ fuel)%nat →
  ∃ w, __call__ self identity [vs] sched manager fuel (new_world None)
       = (Ok (), w) ∧
       (∀ i v, vs !! i = Some v → rs w !! default_name self i = Some v) ∧
       exceptions (rs w) = Ok (VDict ∅) ∧
       terminated (rs w) = Ok false.
Proof.
  intros HW Hnames Hj Hne Hvs Hadm Hfuel.
  unfold __call__. rewrite HW.
  set (n_jobs := Z.min (_n_jobs self) (Z.of_nat (length vs))).
  rewrite bind_unfold, modify_unfold. cbv beta iota.
  rewrite bind_unfold, modify_unfold. cbv beta iota.
  rewrite bind_unfold, modify_unfold. cbv beta iota.
  rewrite bind_unfold.
  match goal with |- context [setup_resources self ?w] =>
    destruct (setup_resources_registers self w) as [kinds ->] end.
  cbv beta iota.
  rewrite bind_unfold, modify_unfold. cbv beta iota.
  match goal with |- context [try_finally _ _ ?w] => set (w0 := w) end.
  assert (initializing self (length vs)
            (seq (Z.to_nat n_jobs) (length vs - Z.to_nat n_jobs)) w0) as Hinit.
  { split; [|done]. constructor.
    - by constructor.
    - done.
    - by intros [].
    - done.
    - done.
    - done.
    - simpl. lia. }
  assert (clean self vs w0) as Hclean.
  { split; [done|]. split; [done|]. split; [done|]. by intros pid p. }
  destruct (batch_body_serving self vs sched manager Hnames Hvs Hadm fuel w0
              Hj Hne Hinit Hclean eq_refl Hfuel)
    as (w1 & Hbody & Hs & Hwp & Hp).
  unfold try_finally, try_except. simpl in Hbody. fold n_jobs in Hbody.
  rewrite Hbody.
  unfold batch_finally. rewrite !bind_unfold. unfold read. rewrite Hwp.
  cbn [join_all for_each].
  exists (set_manager_up false w1). split; [reflexivity|].
  pose proof Hs as [_ ((_ & Ht & He & _) & _)].
  split; [|split].
  - intros i v Hv.
    change (rs (set_manager_up false w1)) with (rs w1).
    by apply (serving_done self vs w1 Hs Hwp Hp i v).
  - change (rs (set_manager_up false w1)) with (rs w1).
    unfold exceptions, rs_get. by rewrite He.
  - done.
Qed.

(** (X21) A batch maps its function: for a function that returns on every
    value of a non-empty list, whatever keyword arguments the adapter passes,
    and returns no dict with a truthy [terminate] entry, with at least one
    job, default task names, off Windows, a resource manager that admits
    every task at once and no interrupt, [__call__] returns, however the
    children are scheduled, with the function's result for the [i]-th value
    under the [i]-th task name, an empty exceptions map and the flag
    false. *)
Theorem batch_maps_function self func (g : pyval → pyval) vs sched manager
  fuel :
  WINDOWS self = false → _task_names self = None →
  1 ≤ _n_jobs self → vs ≠ [] →
  (∀ v kw, v ∈ vs → f_call func [v] kw = Returns (g v)) →
  Forall (λ v, terminate_requested (g v) = false) vs →
  admits_at_once manager →
  (2 * length vs ≤ fuel)%nat →
  ∃ w, __call__ self func [vs] sched manager fuel (new_world None)
       = (Ok (), w) ∧
       (∀ i v, vs !! i = Some v → rs w !! default_name self i = Some (g v)) ∧
       exceptions (rs w) = Ok (VDict ∅) ∧
       terminated (rs w) = Ok false.
Proof.
  intros HW Hnames Hj Hne Hfunc Hvs Hadm Hfuel.
  destruct (identity_batch_returns self (g <$> vs) sched manager fuel)
    as (w2 & Hcall & Hres & He & Ht); try done.
  { by destruct vs. }
  { by apply Forall_fmap. }
  { by rewrite length_fmap. }
  pose proof (__call___simulates self func g vs sched manager Hfunc fuel None HW)
    as Hsim.
  cbv zeta in Hsim. rewrite Hcall in Hsim.
  destruct (__call__ self func [vs] sched manager fuel (new_world None))
    as [o w1].
  destruct Hsim as [Ho Hrs]. cbn [fst snd] in Ho, Hrs. subst o.
  exists w1. split; [done|]. rewrite Hrs. split; [|done].
  intros i v Hv. apply Hres. by rewrite list_lookup_fmap, Hv.
Qed.

Lemma batch_maps_function_witness :
  ∃ w, __call__ (default_parallel 2) add_one [[VInt 1; VInt 2; VInt 3]]
         lazy_sched admit_all 6 (new_world None) = (Ok (), w) ∧
       (∀ i v, [VInt 1; VInt 2; VInt 3] !! i = Some v →
               rs w !! default_name (default_parallel 2) i
               = Some (match v with VInt x => VInt (x + 1) | _ => VNone end)) ∧
       exceptions (rs w) = Ok (VDict ∅) ∧
       terminated (rs w) = Ok false.
Proof.
  apply (batch_maps_function (default_parallel 2) add_one
           (λ v, match v with VInt x => VInt (x + 1) | _ => VNone end)
           [VInt 1; VInt 2; VInt 3] lazy_sched admit_all 6).
  - reflexivity.
  - reflexivity.
  - simpl. lia.
  - discriminate.
  - intros v kw Hv. rewrite !elem_of_cons, elem_of_nil in Hv.
    destruct Hv as [->|[->|[->|[]]]]; reflexivity.
  - repeat constructor.
  - intros k. split; reflexivity.
  - simpl. lia.
Defined.
